(** * Shallow embedding of the [io] package (src/io/io.go)

    The development follows the layout of the Go file: sentinel errors,
    the capability interfaces, the transfer engine ([Copy], [CopyN],
    [CopyBuffer]), [ReadAtLeast]/[ReadFull], [LimitedReader],
    [SectionReader], [teeReader] and [discard].

    Conventions.
    - Go's [int] and [int64] are 64-bit two's complement integers; they are
      modelled by [Z] and every arithmetic result is passed through
      [wrap64].
    - A Go [error] value is an [option error]; [None] is [nil].
    - A method with a pointer receiver takes the receiver's state and
      returns the new state.
    - A call can return, panic, or (for the unbounded [for] loops) run out
      of the fuel given to the model: see [outcome]. *)

From Stdlib.Strings Require Import String Byte.
From Stdlib Require Import ZArith List Lia Bool.
Import ListNotations.
Local Open Scope Z_scope.

Set Implicit Arguments.

(* ================================================================= *)
(** ** Machine integers *)

Definition maxint64 : Z := 2 ^ 63 - 1.
Definition minint64 : Z := - 2 ^ 63.

(** Two's complement wrap-around of a 64-bit signed result. *)
Definition wrap64 (z : Z) : Z := (z + 2 ^ 63) mod 2 ^ 64 - 2 ^ 63.

Definition is_int64 (z : Z) : Prop := minint64 <= z <= maxint64.

Arguments maxint64 : simpl never.
Arguments minint64 : simpl never.
Arguments wrap64 z : simpl never.

(* ================================================================= *)
(** ** Sentinel errors *)

(** The package-level error variables.  Go compares them by identity;
    [ErrOther] stands for any error value created outside the package. *)
Inductive error : Type :=
| ErrShortWrite
| errInvalidWrite
| ErrShortBuffer
| EOF
| ErrUnexpectedEOF
| ErrNoProgress
| errWhence
| errOffset
| ErrOther (msg : string).

Definition is_EOF (e : error) : bool :=
  match e with EOF => true | _ => false end.

(** Seek whence values. *)
Definition SeekStart : Z := 0.
Definition SeekCurrent : Z := 1.
Definition SeekEnd : Z := 2.

(* ================================================================= *)
(** ** Outcomes of a call *)

Inductive outcome (A : Type) : Type :=
| Ret (a : A)
| Panic (msg : string)
| OutOfFuel.

Arguments Ret {A} a.
Arguments Panic {A} msg%_string.
Arguments OutOfFuel {A}.

Definition bind {A B : Type} (m : outcome A) (k : A -> outcome B) : outcome B :=
  match m with
  | Ret a => k a
  | Panic msg => Panic msg
  | OutOfFuel => OutOfFuel
  end.

Declare Scope outcome_scope.
Delimit Scope outcome_scope with outcome.
Notation "x <- m ;; k" := (bind m (fun x => k))
  (at level 100, m at next level, right associativity) : outcome_scope.
Notation "' pat <- m ;; k" := (bind m (fun x => match x with pat => k end))
  (at level 100, pat pattern, m at next level, right associativity) : outcome_scope.
Local Open Scope outcome_scope.

(** What one pass through the body of a [for] loop decides. *)
Inductive loop_ctl (St Res : Type) : Type :=
| Continue (st : St)
| Break (res : Res).

Arguments Continue {St Res} st.
Arguments Break {St Res} res.

(* ================================================================= *)
(** ** Byte slices *)

(** A slice [p] is the part of its backing array from its first element
    to its capacity: [elems p] are the [len(p)] visible bytes and
    [spare p] the bytes between [len(p)] and [cap(p)]. *)
Record slice : Type := Slice { elems : list byte; spare : list byte }.

Definition backing (p : slice) : list byte := elems p ++ spare p.
Definition len (p : slice) : Z := Z.of_nat (length (elems p)).
Definition cap (p : slice) : Z := Z.of_nat (length (backing p)).

Definition bounds_panic : string := "slice bounds out of range"%string.

(** [p[0:hi]]: legal up to the capacity. *)
Definition slice_to (p : slice) (hi : Z) : outcome slice :=
  if (0 <=? hi) && (hi <=? cap p)
  then Ret (Slice (firstn (Z.to_nat hi) (backing p)) (skipn (Z.to_nat hi) (backing p)))
  else Panic bounds_panic.

(** [p[lo:]]: legal up to the length. *)
Definition slice_from (p : slice) (lo : Z) : outcome slice :=
  if (0 <=? lo) && (lo <=? len p)
  then Ret (Slice (skipn (Z.to_nat lo) (elems p)) (spare p))
  else Panic bounds_panic.

(** [make([]byte, size)]. *)
Definition make (size : Z) : slice := Slice (repeat x00 (Z.to_nat size)) [].

(** [overlay data l]: the array [l] after [data] was written at its
    start; the array keeps its length. *)
Definition overlay (data l : list byte) : list byte :=
  firstn (length l) data ++ skipn (length data) l.

(** The slice [p] after a callee wrote [data] at [p[0:]]. *)
Definition store (data : list byte) (p : slice) : slice :=
  let a := overlay data (backing p) in
  Slice (firstn (length (elems p)) a) (skipn (length (elems p)) a).

(** The slice [buf] after a callee wrote [data] at [buf[lo:]]. *)
Definition store_from (data : list byte) (buf : slice) (lo : Z) : slice :=
  let k := Z.to_nat lo in
  let a := firstn k (backing buf) ++ overlay data (skipn k (backing buf)) in
  Slice (firstn (length (elems buf)) a) (skipn (length (elems buf)) a).

(* ================================================================= *)
(** ** Capability interfaces *)

(** [Read(p)] returns [(n, err)]; the model also returns the bytes the
    call left at the start of [p] and the reader's next state. *)
Definition ReadFn (S : Type) : Type :=
  S -> slice -> outcome (Z * list byte * option error * S).

(** [Write(p)] returns [(n, err)] and the writer's next state.  A writer
    sees the visible bytes of [p] only. *)
Definition WriteFn (W : Type) : Type :=
  W -> list byte -> outcome (Z * option error * W).

(** [ReadAt(p, off)]. *)
Definition ReadAtFn (S : Type) : Type :=
  S -> slice -> Z -> outcome (Z * list byte * option error * S).

(** [WriteTo(w)] and [ReadFrom(r)]: the bulk-transfer capabilities.  They
    may loop, so they take fuel. *)
Definition WriteToFn (S : Type) : Type :=
  nat -> forall W : Type, WriteFn W -> S -> W -> outcome (Z * option error * S * W).

Definition ReadFromFn (W : Type) : Type :=
  nat -> forall S : Type, ReadFn S -> W -> S -> outcome (Z * option error * S * W).

(** A [Reader] value with state of type [S].  The optional fields stand
    for Go's dynamic type tests: [WriteTo] is present when the value also
    implements [WriterTo]; [asLimitedReader] answers the type assertion
    [src.( *LimitedReader)] with the field [N]. *)
Record Reader (S : Type) : Type := mkReader {
  Read : ReadFn S;
  WriteTo : option (WriteToFn S);
  asLimitedReader : S -> option Z
}.

(** A [Writer] value; [ReadFrom] is present when it implements
    [ReaderFrom]. *)
Record Writer (W : Type) : Type := mkWriter {
  Write : WriteFn W;
  ReadFrom : option (ReadFromFn W)
}.

Record ReaderAt (S : Type) : Type := mkReaderAt {
  ReadAt : ReadAtFn S
}.

(* ================================================================= *)
(** ** LimitedReader *)

Module LimitedReader.

Record t (S : Type) : Type := mk { R : S; N : Z }.

(** [func (l *LimitedReader) Read(p []byte) (n int, err error)] *)
Definition Read {S : Type} (rd : ReadFn S) (l : t S) (p : slice)
  : outcome (Z * list byte * option error * t S) :=
  if N l <=? 0 then Ret (0, [], Some EOF, l)
  else
    p' <- (if N l <? len p then slice_to p (N l) else Ret p) ;;
    '(n, data, err, r') <- rd (R l) p' ;;
    Ret (n, data, err, mk r' (wrap64 (N l - n))).

End LimitedReader.

(** [func LimitReader(r Reader, n int64) Reader] *)
Definition LimitReader {S : Type} (r : Reader S) : Reader (LimitedReader.t S) :=
  {| Read := LimitedReader.Read (Read r);
     WriteTo := None;
     asLimitedReader := fun l => Some (LimitedReader.N l) |}.

(* ================================================================= *)
(** ** The transfer engine *)

Section Transfer.

Variables S W : Type.

(** State of the staging loop: source, sink, staging buffer, [written]. *)
Definition copy_state : Type := (S * W * slice * Z)%type.
Definition copy_result : Type := (Z * option error * S * W)%type.

(** One pass through the body of the [for] loop of [copyBuffer]. *)
Definition copyIter (rd : ReadFn S) (wr : WriteFn W) (st : copy_state)
  : outcome (loop_ctl copy_state copy_result) :=
  let '(s, w, buf, written) := st in
  '(nr, data, er, s) <- rd s buf ;;
  let buf := store data buf in
  let after_write (w : W) (written : Z) :=
    match er with
    | Some e => Break (written, if is_EOF e then None else Some e, s, w)
    | None => Continue (s, w, buf, written)
    end in
  if 0 <? nr then
    chunk <- slice_to buf nr ;;
    '(nw, ew, w) <- wr w (elems chunk) ;;
    let '(nw, ew) :=
      if (nw <? 0) || (nr <? nw)
      then (0, match ew with None => Some errInvalidWrite | Some _ => ew end)
      else (nw, ew) in
    let written := wrap64 (written + nw) in
    match ew with
    | Some e => Ret (Break (written, Some e, s, w))
    | None =>
        if negb (nr =? nw) then Ret (Break (written, Some ErrShortWrite, s, w))
        else Ret (after_write w written)
    end
  else Ret (after_write w written).

Fixpoint copyLoop (fuel : nat) (rd : ReadFn S) (wr : WriteFn W) (st : copy_state)
  : outcome copy_result :=
  match fuel with
  | O => OutOfFuel
  | Datatypes.S fuel =>
      c <- copyIter rd wr st ;;
      match c with
      | Continue st => copyLoop fuel rd wr st
      | Break res => Ret res
      end
  end.

(** [func copyBuffer(dst Writer, src Reader, buf []byte)]; a [nil]
    buffer is [None]. *)
Definition copyBuffer (fuel : nat) (dst : Writer W) (src : Reader S)
    (w : W) (s : S) (buf : option slice) : outcome copy_result :=
  match WriteTo src with
  | Some wt => wt fuel W (Write dst) s w
  | None =>
    match ReadFrom dst with
    | Some rt => rt fuel S (Read src) w s
    | None =>
        let buf :=
          match buf with
          | Some b => b
          | None =>
              let size := 32 * 1024 in
              let size :=
                match asLimitedReader src s with
                | Some n => if n <? size then (if n <? 1 then 1 else n) else size
                | None => size
                end in
              make size
          end in
        copyLoop fuel (Read src) (Write dst) (s, w, buf, 0)
    end
  end.

(** [func Copy(dst Writer, src Reader)] *)
Definition Copy (fuel : nat) (dst : Writer W) (src : Reader S) (w : W) (s : S)
  : outcome copy_result :=
  copyBuffer fuel dst src w s None.

(** [func CopyBuffer(dst Writer, src Reader, buf []byte)] *)
Definition CopyBuffer (fuel : nat) (dst : Writer W) (src : Reader S)
    (w : W) (s : S) (buf : option slice) : outcome copy_result :=
  match buf with
  | Some b =>
      if len b =? 0 then Panic "empty buffer in CopyBuffer"
      else copyBuffer fuel dst src w s buf
  | None => copyBuffer fuel dst src w s buf
  end.

End Transfer.

(** [func CopyN(dst Writer, src Reader, n int64)] *)
Definition CopyN {S W : Type} (fuel : nat) (dst : Writer W) (src : Reader S)
    (w : W) (s : S) (n : Z) : outcome (Z * option error * S * W) :=
  '(written, err, l, w) <- Copy fuel dst (LimitReader src) w (LimitedReader.mk s n) ;;
  let s := LimitedReader.R l in
  if written =? n then Ret (n, None, s, w)
  else if (written <? n) && (match err with None => true | Some _ => false end)
       then Ret (written, Some EOF, s, w)
       else Ret (written, err, s, w).

(* ================================================================= *)
(** ** ReadAtLeast and ReadFull *)

Section ReadHelpers.

Variable S : Type.

(** The loop [for n < min && err == nil] of [ReadAtLeast]. *)
Fixpoint readLoop (fuel : nat) (rd : ReadFn S) (s : S) (buf : slice)
    (min n : Z) (err : option error) : outcome (Z * option error * S * slice) :=
  if (n <? min) && (match err with None => true | Some _ => false end) then
    match fuel with
    | O => OutOfFuel
    | Datatypes.S fuel =>
        p <- slice_from buf n ;;
        '(nn, data, err, s) <- rd s p ;;
        readLoop fuel rd s (store_from data buf n) min (wrap64 (n + nn)) err
    end
  else Ret (n, err, s, buf).

(** [func ReadAtLeast(r Reader, buf []byte, min int)]; the result also
    carries the reader's state and the buffer. *)
Definition ReadAtLeast (fuel : nat) (r : Reader S) (s : S) (buf : slice) (min : Z)
  : outcome (Z * option error * S * slice) :=
  if len buf <? min then Ret (0, Some ErrShortBuffer, s, buf)
  else
    '(n, err, s, buf) <- readLoop fuel (Read r) s buf min 0 None ;;
    let err :=
      if min <=? n then None
      else if (0 <? n) && (match err with Some EOF => true | _ => false end)
           then Some ErrUnexpectedEOF
           else err in
    Ret (n, err, s, buf).

(** [func ReadFull(r Reader, buf []byte)] *)
Definition ReadFull (fuel : nat) (r : Reader S) (s : S) (buf : slice)
  : outcome (Z * option error * S * slice) :=
  ReadAtLeast fuel r s buf (len buf).

End ReadHelpers.

(* ================================================================= *)
(** ** SectionReader *)

Module SectionReader.

Record t (S : Type) : Type := mk { r : S; base : Z; off : Z; limit : Z }.

(** [func NewSectionReader(r ReaderAt, off int64, n int64) *SectionReader] *)
Definition New {S : Type} (r : S) (off n : Z) : t S :=
  let remaining :=
    if off <=? wrap64 (maxint64 - n) then wrap64 (n + off) else maxint64 in
  mk r off off remaining.

(** [func (s *SectionReader) Read(p []byte) (n int, err error)] *)
Definition Read {S : Type} (ra : ReadAtFn S) (s : t S) (p : slice)
  : outcome (Z * list byte * option error * t S) :=
  if limit s <=? off s then Ret (0, [], Some EOF, s)
  else
    let max := wrap64 (limit s - off s) in
    p <- (if max <? len p then slice_to p max else Ret p) ;;
    '(n, data, err, r') <- ra (r s) p (off s) ;;
    Ret (n, data, err, mk r' (base s) (wrap64 (off s + n)) (limit s)).

(** [func (s *SectionReader) Seek(offset int64, whence int) (int64, error)] *)
Definition Seek {S : Type} (s : t S) (offset whence : Z) : Z * option error * t S :=
  let resolved :=
    if whence =? SeekStart then Some (wrap64 (offset + base s))
    else if whence =? SeekCurrent then Some (wrap64 (offset + off s))
    else if whence =? SeekEnd then Some (wrap64 (offset + limit s))
    else None in
  match resolved with
  | None => (0, Some errWhence, s)
  | Some offset =>
      if offset <? base s then (0, Some errOffset, s)
      else (wrap64 (offset - base s), None, mk (r s) (base s) offset (limit s))
  end.

(** [func (s *SectionReader) ReadAt(p []byte, off int64) (n int, err error)] *)
Definition ReadAt {S : Type} (ra : ReadAtFn S) (s : t S) (p : slice) (off : Z)
  : outcome (Z * list byte * option error * t S) :=
  if (off <? 0) || (wrap64 (limit s - base s) <=? off) then Ret (0, [], Some EOF, s)
  else
    let off := wrap64 (off + base s) in
    let max := wrap64 (limit s - off) in
    if max <? len p then
      p <- slice_to p max ;;
      '(n, data, err, r') <- ra (r s) p off ;;
      let err := match err with None => Some EOF | Some _ => err end in
      Ret (n, data, err, mk r' (base s) (SectionReader.off s) (limit s))
    else
      '(n, data, err, r') <- ra (r s) p off ;;
      Ret (n, data, err, mk r' (base s) (SectionReader.off s) (limit s)).

(** [func (s *SectionReader) Size() int64] *)
Definition Size {S : Type} (s : t S) : Z := wrap64 (limit s - base s).

End SectionReader.

(* ================================================================= *)
(** ** teeReader *)

Module teeReader.

Record t (S W : Type) : Type := mk { r : S; w : W }.

(** [func (t *teeReader) Read(p []byte) (n int, err error)] *)
Definition Read {S W : Type} (rd : ReadFn S) (wr : WriteFn W) (t0 : t S W) (p : slice)
  : outcome (Z * list byte * option error * t S W) :=
  '(n, data, err, r') <- rd (r t0) p ;;
  if 0 <? n then
    q <- slice_to (store data p) n ;;
    '(nw, ew, w') <- wr (w t0) (elems q) ;;
    match ew with
    | Some _ => Ret (nw, data, ew, mk r' w')
    | None => Ret (n, data, err, mk r' w')
    end
  else Ret (n, data, err, mk r' (w t0)).

End teeReader.

(** [func TeeReader(r Reader, w Writer) Reader] *)
Definition TeeReader {S W : Type} (r : Reader S) (w : Writer W) : Reader (teeReader.t S W) :=
  {| Read := teeReader.Read (Read r) (Write w);
     WriteTo := None;
     asLimitedReader := fun _ => None |}.

(* ================================================================= *)
(** ** discard *)

Module discard.

(** [func (discard) Write(p []byte) (int, error)] *)
Definition Write : WriteFn unit :=
  fun _ p => Ret (Z.of_nat (length p), None, tt).

(** The loop of [func (discard) ReadFrom(r Reader)]; [bufp] is the
    8192-byte buffer taken from [blackHolePool]. *)
Fixpoint readFromLoop (fuel : nat) (S : Type) (rd : ReadFn S) (s : S)
    (bufp : slice) (n : Z) : outcome (Z * option error * S * unit) :=
  match fuel with
  | O => OutOfFuel
  | Datatypes.S fuel =>
      '(readSize, data, err, s) <- rd s bufp ;;
      let n := wrap64 (n + readSize) in
      match err with
      | Some e => Ret (n, if is_EOF e then None else Some e, s, tt)
      | None => readFromLoop fuel rd s (store data bufp) n
      end
  end.

Definition ReadFrom : ReadFromFn unit :=
  fun fuel S rd _ s => readFromLoop fuel rd s (make 8192) 0.

End discard.

(** [var Discard Writer = discard{}] *)
Definition Discard : Writer unit :=
  {| Write := discard.Write; ReadFrom := Some discard.ReadFrom |}.

(* ================================================================= *)
(** ** Sources, sinks and stores used in the examples *)

Module Fixtures.

(** An in-memory source that hands out at most [k] bytes per call and
    reports [EOF] on the call after the last byte. *)
Definition chunkRead (k : Z) : ReadFn (list byte) :=
  fun s p =>
    match s with
    | [] => Ret (0, [], Some EOF, s)
    | _ =>
        let n := Z.min (Z.min k (len p)) (Z.of_nat (length s)) in
        Ret (n, firstn (Z.to_nat n) s, None, skipn (Z.to_nat n) s)
    end.

Definition chunkReader (k : Z) : Reader (list byte) :=
  {| Read := chunkRead k; WriteTo := None; asLimitedReader := fun _ => None |}.

(** A source that delivers its bytes and a failure of its own in the
    same call. *)
Definition failingRead (e : error) : ReadFn (list byte) :=
  fun s p =>
    let n := Z.min (len p) (Z.of_nat (length s)) in
    Ret (n, firstn (Z.to_nat n) s, Some e, skipn (Z.to_nat n) s).

Definition failingReader (e : error) : Reader (list byte) :=
  {| Read := failingRead e; WriteTo := None; asLimitedReader := fun _ => None |}.

(** A broken source: it reports [k] bytes whatever the length of [p]. *)
Definition overReportingRead (k : Z) : ReadFn unit :=
  fun s p => Ret (k, [], None, s).

(** An accumulating sink. *)
Definition bufferWrite : WriteFn (list byte) :=
  fun w p => Ret (Z.of_nat (length p), None, w ++ p).

Definition bufferWriter : Writer (list byte) :=
  {| Write := bufferWrite; ReadFrom := None |}.

(** A broken sink: it drops the last byte of every write and reports
    no failure. *)
Definition shortWrite : WriteFn (list byte) :=
  fun w p => Ret (Z.of_nat (length p) - 1, None, w ++ removelast p).

Definition shortWriter : Writer (list byte) :=
  {| Write := shortWrite; ReadFrom := None |}.

(** A sink that fails every write with [e] after accepting nothing. *)
Definition brokenWrite (e : error) : WriteFn (list byte) :=
  fun w p => Ret (0, Some e, w).

(** A random-access store over a byte sequence: a read at or past the
    end reports [EOF], a read that reaches the end reports [EOF] with
    the bytes it got. *)
Definition storeReadAt : ReadAtFn (list byte) :=
  fun s p off =>
    if off <? 0 then Ret (0, [], Some (ErrOther "negative offset"), s)
    else if Z.of_nat (length s) <=? off then Ret (0, [], Some EOF, s)
    else
      let avail := skipn (Z.to_nat off) s in
      let n := Z.min (len p) (Z.of_nat (length avail)) in
      Ret (n, firstn (Z.to_nat n) avail, if n <? len p then Some EOF else None, s).

Definition hello : list byte := list_byte_of_string "hello".

(** A 100-byte store whose byte at offset [i] is [i]. *)
Definition store100 : list byte :=
  map (fun i => match Byte.of_nat i with Some b => b | None => x00 end) (seq 0 100).

End Fixtures.

(* ================================================================= *)
(** ** Specification predicates *)

Section SourcesAndSinks.

Variable S : Type.
Variable rd : ReadFn S.

(** [Yields s bs]: from state [s] the source's total content is [bs].
    A call with a non-empty [p] returns, delivers a prefix of [bs] of
    at most [len(p)] bytes, and either reports no failure and goes on
    with the rest, or reports [EOF] having delivered everything.  The
    predicate is inductive: every sequence of calls reaches [EOF]. *)
Inductive Yields : S -> list byte -> Prop :=
| Yields_intro (s : S) (bs : list byte) :
    (forall p, 0 < len p ->
       exists n data err s',
         rd s p = Ret (n, data, err, s') /\
         0 <= n <= len p /\
         n <= Z.of_nat (length bs) /\
         firstn (Z.to_nat n) (elems (store data p)) = firstn (Z.to_nat n) bs /\
         (err = None \/ (err = Some EOF /\ n = Z.of_nat (length bs)))) ->
    (forall p n data s',
       0 < len p ->
       rd s p = Ret (n, data, None, s') ->
       Yields s' (skipn (Z.to_nat n) bs)) ->
    Yields s bs.

End SourcesAndSinks.

Section Sinks.

Variable W : Type.
Variable wr : WriteFn W.

(** [Accepts view]: the sink takes every byte it is given and reports
    no failure; [view] reads off a sink state the bytes received so
    far. *)
Definition Accepts (view : W -> list byte) : Prop :=
  forall w p, exists w',
    wr w p = Ret (Z.of_nat (length p), None, w') /\ view w' = view w ++ p.

End Sinks.

(** The origin that a [whence] value selects. *)
Inductive seek_origin {S : Type} (s : SectionReader.t S) : Z -> Z -> Prop :=
| origin_start : seek_origin s SeekStart (SectionReader.base s)
| origin_current : seek_origin s SeekCurrent (SectionReader.off s)
| origin_end : seek_origin s SeekEnd (SectionReader.limit s).

(** A caller of a [LimitedReader]: one [Read] per buffer of [ps], in
    order; the result is the sum of the counts returned and the reader's
    last state. *)
Fixpoint limitedReads {S : Type} (rd : ReadFn S) (l : LimitedReader.t S)
    (ps : list slice) : outcome (Z * LimitedReader.t S) :=
  match ps with
  | [] => Ret (0, l)
  | p :: ps =>
      '(n, _, _, l) <- LimitedReader.Read rd l p ;;
      '(total, l) <- limitedReads rd l ps ;;
      Ret (n + total, l)
  end.

(** The count part of the [Reader] contract: every call returns, with
    [0 <= n <= len(p)]. *)
Definition CountsWithin {S : Type} (rd : ReadFn S) : Prop :=
  forall s p, exists n data err s',
    rd s p = Ret (n, data, err, s') /\ 0 <= n <= len p.

(* ================================================================= *)
(** ** Example runs *)

Module Examples.

Import Fixtures.

(** A section with base 10 and length 5 over the 100-byte store: read
    3 bytes, seek to the end of the section, read again.  The result
    lists what each call returned. *)
Definition sectionRun
  : outcome (Z * list byte * option error * Z * option error * Z * option error) :=
  let s := SectionReader.New store100 10 5 in
  '(n1, d1, e1, s) <- SectionReader.Read storeReadAt s (make 3) ;;
  let '(pos, e2, s) := SectionReader.Seek s 0 SeekEnd in
  '(n3, _, e3, s) <- SectionReader.Read storeReadAt s (make 3) ;;
  Ret (n1, d1, e1, pos, e2, n3, e3).

(** Reading the five bytes of [hello] through a tee into an empty
    accumulating sink, with a buffer of eight bytes. *)
Definition teeRun
  : outcome (Z * list byte * option error * teeReader.t (list byte) (list byte)) :=
  teeReader.Read (chunkRead 8) bufferWrite (teeReader.mk hello []) (make 8).

End Examples.

(* ================================================================= *)
(** ** OffsetWriter *)

(** [WriteAt(p, off)] returns [(n, err)] and the writer's next state. *)
Definition WriteAtFn (W : Type) : Type :=
  W -> list byte -> Z -> outcome (Z * option error * W).

Module OffsetWriter.

Record t (W : Type) : Type := mk { w : W; base : Z; off : Z }.

(** [func NewOffsetWriter(w WriterAt, off int64) *OffsetWriter] *)
Definition New {W : Type} (w : W) (off : Z) : t W := mk w off off.

(** [func (o *OffsetWriter) Write(p []byte) (n int, err error)] *)
Definition Write {W : Type} (wa : WriteAtFn W) (o : t W) (p : list byte)
  : outcome (Z * option error * t W) :=
  '(n, err, w') <- wa (w o) p (off o) ;;
  Ret (n, err, mk w' (base o) (wrap64 (off o + n))).

(** [func (o *OffsetWriter) WriteAt(p []byte, off int64) (n int, err error)] *)
Definition WriteAt {W : Type} (wa : WriteAtFn W) (o : t W) (p : list byte) (off : Z)
  : outcome (Z * option error * t W) :=
  let off := wrap64 (off + base o) in
  '(n, err, w') <- wa (w o) p off ;;
  Ret (n, err, mk w' (base o) (OffsetWriter.off o)).

(** [func (o *OffsetWriter) Seek(offset int64, whence int) (int64, error)] *)
Definition Seek {W : Type} (o : t W) (offset whence : Z) : Z * option error * t W :=
  let resolved :=
    if whence =? SeekStart then Some (wrap64 (offset + base o))
    else if whence =? SeekCurrent then Some (wrap64 (offset + off o))
    else None in
  match resolved with
  | None => (0, Some errWhence, o)
  | Some offset =>
      if offset <? base o then (0, Some errOffset, o)
      else (wrap64 (offset - base o), None, mk (w o) (base o) offset)
  end.

End OffsetWriter.

(* ================================================================= *)
(** ** NopCloser *)

Module nopCloser.

(** [func (nopCloser) Close() error] and
    [func (nopCloserWriterTo) Close() error] *)
Definition Close {S : Type} (s : S) : option error * S := (None, s).

End nopCloser.

(** [func NopCloser(r Reader) ReadCloser]: a [nopCloserWriterTo], which
    forwards [WriteTo], when [r] implements [WriterTo], a [nopCloser]
    otherwise.  Neither is a [*LimitedReader]. *)
Definition NopCloser {S : Type} (r : Reader S) : Reader S :=
  match WriteTo r with
  | Some wt =>
      {| Read := Read r; WriteTo := Some wt; asLimitedReader := fun _ => None |}
  | None =>
      {| Read := Read r; WriteTo := None; asLimitedReader := fun _ => None |}
  end.

(* ================================================================= *)
(** ** ReadAll *)

Section ReadAllDef.

Variable S : Type.

(** The capacity that [append] gives a full slice is chosen by the Go
    runtime, which is not part of the package: [newcap c] stands for the
    capacity chosen for a full slice of capacity [c]. *)
Variable newcap : Z -> Z.

(** [b = append(b, 0)[:len(b)]]: the bytes of [b] in a new array of
    capacity [newcap (cap b)], zero past [len(b)]. *)
Definition grow (b : slice) : slice :=
  Slice (elems b) (repeat x00 (Z.to_nat (newcap (cap b) - len b))).

(** One pass through the body of the [for] loop of [ReadAll]. *)
Definition readAllIter (rd : ReadFn S) (st : S * slice)
  : outcome (loop_ctl (S * slice) (slice * option error * S)) :=
  let '(s, b) := st in
  let b := if len b =? cap b then grow b else b in
  let p := Slice (spare b) [] in
  '(n, data, err, s) <- rd s p ;;
  b <- slice_to (Slice (elems b) (elems (store data p))) (wrap64 (len b + n)) ;;
  match err with
  | Some e => Ret (Break (b, if is_EOF e then None else Some e, s))
  | None => Ret (Continue (s, b))
  end.

Fixpoint readAllLoop (fuel : nat) (rd : ReadFn S) (st : S * slice)
  : outcome (slice * option error * S) :=
  match fuel with
  | O => OutOfFuel
  | Datatypes.S fuel =>
      c <- readAllIter rd st ;;
      match c with
      | Continue st => readAllLoop fuel rd st
      | Break res => Ret res
      end
  end.

(** [func ReadAll(r Reader) ([]byte, error)] *)
Definition ReadAll (fuel : nat) (r : Reader S) (s : S)
  : outcome (slice * option error * S) :=
  readAllLoop fuel (Read r) (s, Slice [] (repeat x00 512)).

End ReadAllDef.

(* ================================================================= *)
(** ** SectionReader as a Reader *)

(** A [*SectionReader] used as a [Reader]: it has no [WriteTo] and is not
    a [*LimitedReader]. *)
Definition SectionReader_Reader {S : Type} (ra : ReadAtFn S)
  : Reader (SectionReader.t S) :=
  {| Read := SectionReader.Read ra;
     WriteTo := None;
     asLimitedReader := fun _ => None |}.

(* ================================================================= *)
(** ** alphaReader (the example reader of the package's tests) *)

Module alphaReader.

(** [func alpha(r byte) byte] *)
Definition alpha (r : byte) : byte :=
  let c := Byte.to_N r in
  if ((65 <=? c) && (c <=? 90) || (97 <=? c) && (c <=? 122))%N then r else x00.

(** [func (a *alphaReader) Read(p []byte) (int, error)].  [make] panics
    on a negative [n]; [p[i]] panics once [i] reaches [len(p)].  The
    bytes returned are the whole array of [p] after [copy(p, buf)]. *)
Definition Read {S : Type} (rd : ReadFn S) (a : S) (p : slice)
  : outcome (Z * list byte * option error * S) :=
  '(n, data, err, a) <- rd a p ;;
  match err with
  | Some _ => Ret (n, data, err, a)
  | None =>
      if n <? 0 then Panic "makeslice: len out of range"
      else if len p <? n then Panic "index out of range"
      else
        let p := store data p in
        let buf := map alpha (firstn (Z.to_nat n) (elems p)) in
        Ret (n, backing (store buf p), None, a)
  end.

End alphaReader.

(* ================================================================= *)
(** ** More specification predicates *)

Section MorePredicates.

Variable S : Type.
Variable rd : ReadFn S.

(** [YieldsUntil s bs e]: as [Yields], with the status [e] in the place
    of [EOF]: the source delivers [bs] and then reports [e], in the call
    that delivers the last bytes or in a later one. *)
Inductive YieldsUntil (e : error) : S -> list byte -> Prop :=
| YieldsUntil_intro (s : S) (bs : list byte) :
    (forall p, 0 < len p ->
       exists n data err s',
         rd s p = Ret (n, data, err, s') /\
         0 <= n <= len p /\
         n <= Z.of_nat (length bs) /\
         firstn (Z.to_nat n) (elems (store data p)) = firstn (Z.to_nat n) bs /\
         (err = None \/ (err = Some e /\ n = Z.of_nat (length bs)))) ->
    (forall p n data s',
       0 < len p ->
       rd s p = Ret (n, data, None, s') ->
       YieldsUntil e s' (skipn (Z.to_nat n) bs)) ->
    YieldsUntil e s bs.

(** A source that reports a status only in a call that delivers no
    bytes. *)
Definition StatusAlone : Prop :=
  forall s p n data e s', rd s p = Ret (n, data, Some e, s') -> n = 0.

End MorePredicates.

(** The [ReaderAt] contract over a store whose content is [c] and whose
    state [st] does not change: a read at [off >= 0] returns the bytes of
    [c] from [off], as many as fit in [p]; a short read reports [EOF]; a
    full read reports no failure, or [EOF] when it ends at the end of
    [c]. *)
Definition ServesAt {S : Type} (ra : ReadAtFn S) (st : S) (c : list byte) : Prop :=
  forall p off, 0 <= off ->
    exists n data err,
      ra st p off = Ret (n, data, err, st) /\
      n = Z.min (len p) (Z.max 0 (Z.of_nat (length c) - off)) /\
      firstn (Z.to_nat n) (elems (store data p))
        = firstn (Z.to_nat n) (skipn (Z.to_nat off) c) /\
      (n < len p -> err = Some EOF) /\
      (n = len p -> err = None \/ (err = Some EOF /\ Z.of_nat (length c) <= off + n)).

(** A random-access sink that takes every write whole and keeps a
    record of it: [log] reads off a sink state the writes received so
    far, each with the offset it was handed. *)
Definition RecordsAt {W : Type} (wa : WriteAtFn W) (log : W -> list (Z * list byte))
  : Prop :=
  forall w p off, exists w',
    wa w p off = Ret (Z.of_nat (length p), None, w') /\
    log w' = log w ++ [(off, p)].

(** A caller of an [OffsetWriter]: one [Write] per element of [ps], in
    order; the result is the sum of the counts returned and the writer's
    last state. *)
Fixpoint offsetWrites {W : Type} (wa : WriteAtFn W) (o : OffsetWriter.t W)
    (ps : list (list byte)) : outcome (Z * OffsetWriter.t W) :=
  match ps with
  | [] => Ret (0, o)
  | p :: ps =>
      '(n, _, o) <- OffsetWriter.Write wa o p ;;
      '(total, o) <- offsetWrites wa o ps ;;
      Ret (n + total, o)
  end.

(** The ASCII letters, and the filter that keeps them and turns every
    other byte into 0. *)
Definition letters : list byte :=
  list_byte_of_string "ABCDEFGHIJKLMNOPQRSTUVWXYZabcdefghijklmnopqrstuvwxyz".

Definition letterOrZero (b : byte) : byte :=
  if existsb (Byte.eqb b) letters then b else x00.

(* ================================================================= *)
(** ** More sources and sinks for the examples *)

Module MoreFixtures.

(** As [Fixtures.chunkRead], with the status [e] in the place of [EOF]
    once the bytes are used up. *)
Definition endingRead (e : error) (k : Z) : ReadFn (list byte) :=
  fun s p =>
    match s with
    | [] => Ret (0, [], Some e, s)
    | _ =>
        let n := Z.min (Z.min k (len p)) (Z.of_nat (length s)) in
        Ret (n, firstn (Z.to_nat n) s, None, skipn (Z.to_nat n) s)
    end.

Definition endingReader (e : error) (k : Z) : Reader (list byte) :=
  {| Read := endingRead e k; WriteTo := None; asLimitedReader := fun _ => None |}.

(** A random-access sink that records each write with its offset. *)
Definition logWriteAt : WriteAtFn (list (Z * list byte)) :=
  fun w p off => Ret (Z.of_nat (length p), None, w ++ [(off, p)]).

End MoreFixtures.

(* ================================================================= *)
(** ** Sources and sinks with the bulk-transfer capabilities *)

Module BulkFixtures.

(** A [WriteTo] that writes nothing and returns a fixed count and
    status. *)
Definition fixedWriteTo (n : Z) (err : option error) : WriteToFn (list byte) :=
  fun _ W _ s w => Ret (n, err, s, w).

(** A source that reads as [Fixtures.chunkRead] and has that [WriteTo]. *)
Definition bulkReader (k n : Z) (err : option error) : Reader (list byte) :=
  {| Read := Fixtures.chunkRead k;
     WriteTo := Some (fixedWriteTo n err);
     asLimitedReader := fun _ => None |}.

(** A [ReadFrom] that reads nothing and returns a fixed count and
    status. *)
Definition fixedReadFrom (n : Z) (err : option error) : ReadFromFn (list byte) :=
  fun _ S _ w s => Ret (n, err, s, w).

(** A sink that writes as [Fixtures.bufferWrite] and has that
    [ReadFrom]. *)
Definition bulkWriter (n : Z) (err : option error) : Writer (list byte) :=
  {| Write := Fixtures.bufferWrite; ReadFrom := Some (fixedReadFrom n err) |}.

(** A source whose only read reports the length of the buffer it was
    handed, with [EOF]. *)
Definition probeRead : ReadFn unit :=
  fun s p => Ret (len p, [], Some EOF, s).

Definition probeReader : Reader unit :=
  {| Read := probeRead; WriteTo := None; asLimitedReader := fun _ => None |}.

End BulkFixtures.

(** The count part of the [ReaderAt] contract: every call returns, with
    [0 <= n <= len(p)]. *)
Definition CountsWithinAt {S : Type} (ra : ReadAtFn S) : Prop :=
  forall st p off, exists n data err st',
    ra st p off = Ret (n, data, err, st') /\ 0 <= n <= len p.

(** Where consecutive writes of [ps] land when the first lands at
    [start] and each next one right after the bytes of the one before:
    the offset of each write, with its bytes. *)
Fixpoint landings (start : Z) (ps : list (list byte)) : list (Z * list byte) :=
  match ps with
  | [] => []
  | p :: ps => (start, p) :: landings (start + Z.of_nat (length p)) ps
  end.

(** The number of bytes in the writes [ps]. *)
Definition totalLength (ps : list (list byte)) : Z :=
  fold_right (fun p acc => Z.of_nat (length p) + acc) 0 ps.

(* ================================================================= *)
(** * Properties *)

(** ** Arithmetic on machine integers *)

Lemma wrap64_id (z : Z) : is_int64 z -> wrap64 z = z.
Proof.
  unfold is_int64, wrap64, minint64, maxint64. intros H.
  rewrite Z.mod_small; lia.
Qed.

Lemma wrap64_range (z : Z) : is_int64 (wrap64 z).
Proof.
  unfold is_int64, wrap64, minint64, maxint64.
  pose proof (Z.mod_pos_bound (z + 2 ^ 63) (2 ^ 64) ltac:(lia)). lia.
Qed.

Lemma wrap64_above (z : Z) : maxint64 < z <= 2 * maxint64 + 1 -> wrap64 z = z - 2 ^ 64.
Proof.
  unfold wrap64, maxint64. intros H.
  replace (z + 2 ^ 63) with ((z - 2 ^ 64 + 2 ^ 63) + 1 * 2 ^ 64) by lia.
  rewrite Z.mod_add by lia. rewrite Z.mod_small; lia.
Qed.

(* ----------------------------------------------------------------- *)
(** ** NewSectionReader *)

(** C8, as the claim states it, fails for a negative length: with
    [off = 0] and [n = -1] the sum [-1] is representable, but
    [maxint64 - n] wraps around, the test [off <= maxint64 - n] fails and
    the limit is set to [maxint64]. *)
Lemma NewSectionReader_negative_length :
  ~ (forall off n : Z,
       is_int64 off -> is_int64 n -> is_int64 (off + n) ->
       SectionReader.limit (SectionReader.New tt off n) = off + n).
Proof.
  intros H. specialize (H 0 (-1)).
  assert (E : SectionReader.limit (SectionReader.New tt 0 (-1)) = maxint64)
    by (vm_compute; reflexivity).
  rewrite E in H. unfold is_int64, minint64, maxint64 in H.
  assert (2 ^ 63 - 1 = 0 + -1) by (apply H; lia). lia.
Qed.

(** C8 (amended): for every base offset [off] and every non-negative
    length [n], [NewSectionReader] stores [base = off], a cursor equal to
    [off], and a limit equal to [off + n] when the sum is representable
    as an [int64], saturated to [maxint64 = 2^63 - 1] otherwise; the
    constructor always returns a reader, it has no error result. *)
Theorem NewSectionReader_limit (S : Type) (r : S) (off n : Z) :
  is_int64 off -> is_int64 n -> 0 <= n ->
  let s := SectionReader.New r off n in
  SectionReader.r s = r /\
  SectionReader.base s = off /\
  SectionReader.off s = off /\
  (is_int64 (off + n) -> SectionReader.limit s = off + n) /\
  (~ is_int64 (off + n) -> SectionReader.limit s = maxint64).
Proof.
  intros Hoff Hn Hpos.
  cbv beta iota zeta delta [SectionReader.New SectionReader.limit SectionReader.base
                              SectionReader.off SectionReader.r].
  repeat split; trivial.
  - intros Hsum.
    rewrite (wrap64_id (z := maxint64 - n))
      by (unfold is_int64, minint64, maxint64 in *; lia).
    destruct (Z.leb_spec off (maxint64 - n)) as [Hle | Hgt].
    + rewrite Z.add_comm. apply wrap64_id. exact Hsum.
    + unfold is_int64 in Hsum. lia.
  - intros Hsum.
    rewrite (wrap64_id (z := maxint64 - n))
      by (unfold is_int64, minint64, maxint64 in *; lia).
    destruct (Z.leb_spec off (maxint64 - n)) as [Hle | Hgt]; trivial.
    exfalso. apply Hsum. unfold is_int64, minint64, maxint64 in *. lia.
Qed.

Lemma NewSectionReader_limit_witness :
  SectionReader.limit (SectionReader.New tt 10 5) = 15 /\
  SectionReader.limit (SectionReader.New tt 10 maxint64) = maxint64.
Proof.
  assert (H10 : is_int64 10) by (unfold is_int64, minint64, maxint64; lia).
  assert (H5 : is_int64 5) by (unfold is_int64, minint64, maxint64; lia).
  assert (Hm : is_int64 maxint64) by (unfold is_int64, minint64, maxint64; lia).
  split.
  - apply (NewSectionReader_limit tt H10 H5); unfold is_int64, minint64, maxint64; lia.
  - apply (NewSectionReader_limit tt H10 Hm);
      unfold is_int64, minint64, maxint64; lia.
Defined.

(* ----------------------------------------------------------------- *)
(** ** CopyN: a full count wins over a failure *)

(** C10: whenever the [Copy] that [CopyN] runs over the limited source
    reports exactly [n] bytes, [CopyN] returns [(n, nil)], whatever
    failure [Copy] reported with that count. *)
Theorem CopyN_full_count_is_success (S W : Type) (fuel : nat)
    (dst : Writer W) (src : Reader S) (w w' : W) (s : S) (n : Z)
    (err : option error) (l : LimitedReader.t S) :
  Copy fuel dst (LimitReader src) w (LimitedReader.mk s n) = Ret (n, err, l, w') ->
  CopyN fuel dst src w s n = Ret (n, None, LimitedReader.R l, w').
Proof.
  intros H. unfold CopyN. rewrite H. cbv beta iota delta [bind].
  rewrite Z.eqb_refl. reflexivity.
Qed.

(** A source that hands over its last bytes together with a failure of
    its own: [Copy] reports the failure, [CopyN] drops it. *)
Lemma CopyN_full_count_is_success_witness :
  Copy 5 Fixtures.bufferWriter (LimitReader (Fixtures.failingReader (ErrOther "boom")))
       [] (LimitedReader.mk Fixtures.hello 5)
    = Ret (5, Some (ErrOther "boom"), LimitedReader.mk [] 0, Fixtures.hello) /\
  CopyN 5 Fixtures.bufferWriter (Fixtures.failingReader (ErrOther "boom"))
        [] Fixtures.hello 5
    = Ret (5, None, [], Fixtures.hello).
Proof.
  assert (H : Copy 5 Fixtures.bufferWriter
                (LimitReader (Fixtures.failingReader (ErrOther "boom")))
                [] (LimitedReader.mk Fixtures.hello 5)
              = Ret (5, Some (ErrOther "boom"), LimitedReader.mk [] 0, Fixtures.hello))
    by (vm_compute; reflexivity).
  split.
  - exact H.
  - exact (CopyN_full_count_is_success _ _ _ _ _ H).
Defined.

(* ----------------------------------------------------------------- *)
(** ** The staging loop and misbehaving sinks *)

(** C3, as the claim states it, fails in its first part: a sink that
    takes one byte of two and reports no failure makes the loop report
    [ErrShortWrite], not [errInvalidWrite]. *)
Lemma copyLoop_short_count_is_not_invalid_write :
  ~ (forall (S W : Type) (rd : ReadFn S) (wr : WriteFn W) s w buf written fuel
            nr data er s' chunk nw w',
       rd s buf = Ret (nr, data, er, s') ->
       0 < nr ->
       slice_to (store data buf) nr = Ret chunk ->
       wr w (elems chunk) = Ret (nw, None, w') ->
       nw < nr ->
       exists written',
         copyLoop (Datatypes.S fuel) rd wr (s, w, buf, written)
           = Ret (written', Some errInvalidWrite, s', w')).
Proof.
  intros H.
  destruct (H (list byte) (list byte) (Fixtures.chunkRead 2) Fixtures.shortWrite
              Fixtures.hello [] (make 4) 0 O
              2 (firstn 2 Fixtures.hello) None (skipn 2 Fixtures.hello)
              (Slice (firstn 2 Fixtures.hello) [x00; x00]) 1 [x68])
    as [written' E]; try (vm_compute; reflexivity).
  vm_compute in E. discriminate E.
Qed.

(** C3 (amended): in the staging loop, once the source returned
    [nr > 0] bytes and the sink answered [(nw, ew)] to the write of those
    bytes, the loop stops there whenever the write was not clean:
    - a count that is negative or greater than [nr] is an invalid write:
      nothing is added to [written], and the failure is the sink's own
      [ew] if it gave one, [errInvalidWrite] otherwise;
    - a count from [0] to [nr - 1] without a failure from the sink is
      reported as [ErrShortWrite];
    - a failure from the sink with a possible count is reported as it
      is. *)
Theorem copyLoop_write_failures (S W : Type) (rd : ReadFn S) (wr : WriteFn W)
    (s s' : S) (w w' : W) (buf chunk : slice) (written nr nw : Z)
    (data : list byte) (er ew : option error) (fuel : nat) :
  rd s buf = Ret (nr, data, er, s') ->
  0 < nr ->
  slice_to (store data buf) nr = Ret chunk ->
  wr w (elems chunk) = Ret (nw, ew, w') ->
  let run := copyLoop (Datatypes.S fuel) rd wr (s, w, buf, written) in
  (nw < 0 \/ nr < nw ->
     run = Ret (wrap64 (written + 0),
                Some (match ew with None => errInvalidWrite | Some e => e end), s', w')) /\
  (0 <= nw < nr -> ew = None ->
     run = Ret (wrap64 (written + nw), Some ErrShortWrite, s', w')) /\
  (0 <= nw <= nr -> forall e, ew = Some e ->
     run = Ret (wrap64 (written + nw), Some e, s', w')).
Proof.
  intros Hrd Hnr Hsl Hwr run. subst run.
  cbv beta iota zeta delta [copyLoop copyIter].
  rewrite Hrd. cbv beta iota zeta delta [bind].
  destruct (Z.ltb_spec 0 nr) as [_ | ?]; [| lia].
  rewrite Hsl, Hwr.
  repeat split.
  - intros Hbad.
    assert (E : (nw <? 0) || (nr <? nw) = true).
    { apply orb_true_iff. destruct Hbad; [left | right]; apply Z.ltb_lt; lia. }
    rewrite E. destruct ew; reflexivity.
  - intros Hshort ->.
    assert (E : (nw <? 0) || (nr <? nw) = false).
    { apply orb_false_iff. split; apply Z.ltb_ge; lia. }
    rewrite E.
    destruct (Z.eqb_spec nr nw) as [-> | _]; [lia | reflexivity].
  - intros Hok e ->.
    assert (E : (nw <? 0) || (nr <? nw) = false).
    { apply orb_false_iff. split; apply Z.ltb_ge; lia. }
    rewrite E. reflexivity.
Qed.

(** A sink that takes one byte of two without a failure, in the loop. *)
Lemma copyLoop_write_failures_witness :
  copyLoop 1 (Fixtures.chunkRead 2) Fixtures.shortWrite (Fixtures.hello, [], make 4, 0)
    = Ret (wrap64 (0 + 1), Some ErrShortWrite, skipn 2 Fixtures.hello, [x68]).
Proof.
  refine (proj1 (proj2
    (@copyLoop_write_failures _ _ (Fixtures.chunkRead 2) Fixtures.shortWrite
       Fixtures.hello (skipn 2 Fixtures.hello) [] [x68] (make 4)
       (Slice (firstn 2 Fixtures.hello) [x00; x00]) 0 2 1
       (firstn 2 Fixtures.hello) None None O _ _ _ _)) _ _);
    try (vm_compute; reflexivity); lia.
Defined.

(* ----------------------------------------------------------------- *)
(** ** SectionReader.Seek *)

Lemma Seek_resolved (S : Type) (s : SectionReader.t S) (offset whence origin : Z) :
  seek_origin s whence origin ->
  SectionReader.Seek s offset whence =
    let resolved := wrap64 (offset + origin) in
    if resolved <? SectionReader.base s then (0, Some errOffset, s)
    else (wrap64 (resolved - SectionReader.base s), None,
          SectionReader.mk (SectionReader.r s) (SectionReader.base s) resolved
                           (SectionReader.limit s)).
Proof. intros H. destruct H; reflexivity. Qed.

(** C7: [Seek] takes the origins start, current and end (any other
    [whence] is refused with [errWhence]); it resolves the request to the
    absolute offset [origin + offset], in [int64] arithmetic; a resolved
    offset before [base] is refused with [errOffset] and leaves the
    reader as it was; any other resolved offset becomes the cursor,
    without comparison against [limit], and the result is that offset
    relative to [base]; when the new cursor is at or past [limit] the
    next [Read] returns [(0, EOF)] without a call to the store.  The run
    of the spec (base 10, length 5, 100-byte store): reading 3 bytes
    gives bytes 10..12, [Seek(0, SeekEnd)] gives 5, and the next read
    gives [(0, EOF)]; [Seek(-1, SeekStart)] is refused. *)
Theorem SectionReader_Seek_spec (S : Type) (s : SectionReader.t S) (offset whence : Z) :
  (whence <> SeekStart -> whence <> SeekCurrent -> whence <> SeekEnd ->
     SectionReader.Seek s offset whence = (0, Some errWhence, s)) /\
  (forall origin, seek_origin s whence origin ->
     let resolved := wrap64 (offset + origin) in
     let s' := SectionReader.mk (SectionReader.r s) (SectionReader.base s) resolved
                                (SectionReader.limit s) in
     (is_int64 (offset + origin) -> resolved = offset + origin) /\
     (resolved < SectionReader.base s ->
        SectionReader.Seek s offset whence = (0, Some errOffset, s)) /\
     (SectionReader.base s <= resolved ->
        SectionReader.Seek s offset whence
          = (wrap64 (resolved - SectionReader.base s), None, s') /\
        (is_int64 (resolved - SectionReader.base s) ->
           wrap64 (resolved - SectionReader.base s) = resolved - SectionReader.base s) /\
        (SectionReader.limit s <= resolved ->
           forall (ra : ReadAtFn S) (p : slice),
             SectionReader.Read ra s' p = Ret (0, [], Some EOF, s')))) /\
  Examples.sectionRun = Ret (3, [x0a; x0b; x0c], None, 5, None, 0, Some EOF) /\
  SectionReader.Seek (SectionReader.New Fixtures.store100 10 5) (-1) SeekStart
    = (0, Some errOffset, SectionReader.New Fixtures.store100 10 5).
Proof.
  split; [| split; [| split]].
  - intros H0 H1 H2. unfold SectionReader.Seek.
    destruct (Z.eqb_spec whence SeekStart); [contradiction |].
    destruct (Z.eqb_spec whence SeekCurrent); [contradiction |].
    destruct (Z.eqb_spec whence SeekEnd); [contradiction |]. reflexivity.
  - intros origin Ho resolved s'.
    rewrite (Seek_resolved offset Ho). cbv zeta. fold resolved. fold s'.
    split; [| split].
    + apply wrap64_id.
    + intros Hlt. destruct (Z.ltb_spec resolved (SectionReader.base s)); [reflexivity | lia].
    + intros Hge. split; [| split].
      * destruct (Z.ltb_spec resolved (SectionReader.base s)); [lia | reflexivity].
      * apply wrap64_id.
      * intros Hlim ra p. unfold SectionReader.Read.
        change (SectionReader.limit s') with (SectionReader.limit s).
        change (SectionReader.off s') with resolved.
        destruct (Z.leb_spec (SectionReader.limit s) resolved); [reflexivity | lia].
  - vm_compute. reflexivity.
  - vm_compute. reflexivity.
Qed.

(** [Seek(3, SeekCurrent)] on a fresh section with base 10 and length 5
    puts the cursor at 13; [Seek(7, SeekStart)] puts it past the limit and
    the next read reports [EOF]. *)
Lemma SectionReader_Seek_spec_witness :
  SectionReader.Seek (SectionReader.New tt 10 5) 7 SeekStart
    = (7, None, SectionReader.mk tt 10 17 15) /\
  (forall (ra : ReadAtFn unit) (p : slice),
     SectionReader.Read ra (SectionReader.mk tt 10 17 15) p
       = Ret (0, [], Some EOF, SectionReader.mk tt 10 17 15)) /\
  SectionReader.Seek (SectionReader.New tt 10 5) 9 99 
    = (0, Some errWhence, SectionReader.New tt 10 5).
Proof.
  pose proof (SectionReader_Seek_spec (SectionReader.New tt 10 5) 7 SeekStart) as [_ [H _]].
  specialize (H 10 (origin_start _)). cbv zeta in H.
  destruct H as [_ [_ H]].
  assert (Hge : SectionReader.base (SectionReader.New tt 10 5) <= wrap64 (7 + 10))
    by (vm_compute; discriminate).
  destruct (H Hge) as [H1 [_ H3]].
  assert (Hlim : SectionReader.limit (SectionReader.New tt 10 5) <= wrap64 (7 + 10))
    by (vm_compute; discriminate).
  split; [exact H1 | split; [exact (H3 Hlim) |]].
  apply (proj1 (SectionReader_Seek_spec (SectionReader.New tt 10 5) 9 99));
    vm_compute; discriminate.
Defined.

(* ----------------------------------------------------------------- *)
(** ** SectionReader.ReadAt *)

Lemma slice_to_within (p : slice) (hi : Z) :
  0 <= hi <= len p ->
  exists p', slice_to p hi = Ret p' /\
             elems p' = firstn (Z.to_nat hi) (elems p) /\
             len p' = hi.
Proof.
  intros H. unfold slice_to, cap, backing, len in *.
  rewrite length_app.
  destruct (Z.leb_spec 0 hi); [| lia].
  destruct (Z.leb_spec hi (Z.of_nat (length (elems p) + length (spare p)))); [| lia].
  eexists. split; [reflexivity |]. cbn [elems andb].
  rewrite firstn_app.
  replace (Z.to_nat hi - length (elems p))%nat with O by lia.
  rewrite firstn_O, app_nil_r. split; [reflexivity |].
  rewrite length_firstn. lia.
Qed.

(** The window of a section whose fields satisfy [base <= limit]: an
    offset that [Size] admits is below the exact difference
    [limit - base]. *)
Lemma Size_exact (S : Type) (s : SectionReader.t S) (off : Z) :
  is_int64 (SectionReader.base s) -> is_int64 (SectionReader.limit s) ->
  SectionReader.base s <= SectionReader.limit s ->
  0 <= off < SectionReader.Size s ->
  SectionReader.Size s = SectionReader.limit s - SectionReader.base s.
Proof.
  unfold SectionReader.Size. intros Hb Hl Hbl Hoff.
  destruct (Z_le_gt_dec (SectionReader.limit s - SectionReader.base s) maxint64) as [Hle | Hgt].
  - apply wrap64_id. unfold is_int64, minint64, maxint64 in *. lia.
  - rewrite wrap64_above in Hoff; unfold is_int64, minint64, maxint64 in *; lia.
Qed.

(** C6: for a section with [base <= limit], [ReadAt(p, off)]
    - returns [(0, EOF)], without a call to the store, when the local
      offset [off] is outside [[0, Size)], and [Size] is the exact
      [limit - base] whenever some offset is inside;
    - when [off] is inside and [len(p)] exceeds [max = limit - (base + off)],
      reads into [p[0:max]] at the absolute offset [base + off] and turns
      a [nil] status of the store into [EOF], leaving a failure of the
      store as it is;
    - otherwise returns what the store's [ReadAt(p, base + off)] returns. *)
Theorem SectionReader_ReadAt_spec (S : Type) (ra : ReadAtFn S)
    (s : SectionReader.t S) (p : slice) (off : Z) :
  is_int64 (SectionReader.base s) -> is_int64 (SectionReader.limit s) ->
  SectionReader.base s <= SectionReader.limit s ->
  let abs := SectionReader.base s + off in
  let max := SectionReader.limit s - abs in
  let with_store r' :=
    SectionReader.mk r' (SectionReader.base s) (SectionReader.off s) (SectionReader.limit s) in
  (off < 0 \/ SectionReader.Size s <= off ->
     SectionReader.ReadAt ra s p off = Ret (0, [], Some EOF, s)) /\
  (0 <= off < SectionReader.Size s ->
     SectionReader.Size s = SectionReader.limit s - SectionReader.base s /\
     0 < max /\
     (max < len p ->
        exists p', slice_to p max = Ret p' /\
                   elems p' = firstn (Z.to_nat max) (elems p) /\
                   len p' = max /\
                   forall n data err r',
                     ra (SectionReader.r s) p' abs = Ret (n, data, err, r') ->
                     SectionReader.ReadAt ra s p off
                       = Ret (n, data,
                              Some (match err with None => EOF | Some e => e end),
                              with_store r')) /\
     (len p <= max ->
        forall n data err r',
          ra (SectionReader.r s) p abs = Ret (n, data, err, r') ->
          SectionReader.ReadAt ra s p off = Ret (n, data, err, with_store r'))).
Proof.
  intros Hb Hl Hbl abs max with_store. split.
  - intros Hout. unfold SectionReader.ReadAt. fold (SectionReader.Size s).
    assert (E : (off <? 0) || (SectionReader.Size s <=? off) = true).
    { apply orb_true_iff. destruct Hout; [left; apply Z.ltb_lt | right; apply Z.leb_le]; lia. }
    rewrite E. reflexivity.
  - intros Hin. pose proof (Size_exact s Hb Hl Hbl Hin) as Hsize.
    assert (Habs : wrap64 (off + SectionReader.base s) = abs).
    { subst abs. rewrite Z.add_comm. apply wrap64_id.
      unfold is_int64, minint64, maxint64 in *. lia. }
    assert (Hmax : wrap64 (SectionReader.limit s - abs) = max).
    { subst max. apply wrap64_id. subst abs.
      pose proof (wrap64_range (SectionReader.limit s - SectionReader.base s)) as Hr.
      fold (SectionReader.Size s) in Hr.
      unfold is_int64, minint64, maxint64 in *. lia. }
    assert (E : (off <? 0) || (SectionReader.Size s <=? off) = false).
    { apply orb_false_iff. split; [apply Z.ltb_ge | apply Z.leb_gt]; lia. }
    split; [exact Hsize |]. split; [subst max abs; lia |]. split.
    + intros Hclamp.
      destruct (@slice_to_within p max) as (p' & Hp' & Hel & Hlen);
        [subst max abs; lia |].
      exists p'. repeat split; trivial.
      intros n data err r' Hra. unfold SectionReader.ReadAt.
      fold (SectionReader.Size s). rewrite E.
      cbv zeta. rewrite Habs, Hmax.
      destruct (Z.ltb_spec max (len p)); [| lia].
      rewrite Hp'. cbv beta iota delta [bind]. rewrite Hra.
      destruct err; reflexivity.
    + intros Hfit n data err r' Hra. unfold SectionReader.ReadAt.
      fold (SectionReader.Size s). rewrite E.
      cbv zeta. rewrite Habs, Hmax.
      destruct (Z.ltb_spec max (len p)); [lia |].
      rewrite Hra. reflexivity.
Qed.

(** On the section with base 10 and length 5 over the 100-byte store, a
    read of 4 bytes at local offset 3 is clamped to the 2 bytes left in
    the window; the store reports no failure for those 2 bytes and the
    section reports [EOF]. *)
Lemma SectionReader_ReadAt_spec_witness :
  SectionReader.ReadAt Fixtures.storeReadAt (SectionReader.New Fixtures.store100 10 5)
                       (make 4) 3
    = Ret (2, [x0d; x0e], Some EOF, SectionReader.New Fixtures.store100 10 5) /\
  SectionReader.ReadAt Fixtures.storeReadAt (SectionReader.New Fixtures.store100 10 5)
                       (make 4) 5
    = Ret (0, [], Some EOF, SectionReader.New Fixtures.store100 10 5).
Proof.
  assert (Hb : is_int64 (SectionReader.base (SectionReader.New Fixtures.store100 10 5)))
    by (vm_compute; split; discriminate).
  assert (Hl : is_int64 (SectionReader.limit (SectionReader.New Fixtures.store100 10 5)))
    by (vm_compute; split; discriminate).
  assert (Hbl : SectionReader.base (SectionReader.New Fixtures.store100 10 5)
                <= SectionReader.limit (SectionReader.New Fixtures.store100 10 5))
    by (vm_compute; discriminate).
  split.
  - destruct (@SectionReader_ReadAt_spec _ Fixtures.storeReadAt _ (make 4) 3 Hb Hl Hbl)
      as [_ Hin].
    destruct Hin as (_ & _ & Hclamp & _); [vm_compute; split; [discriminate | reflexivity] |].
    destruct Hclamp as (p' & Hp' & _ & _ & Hrun); [vm_compute; reflexivity |].
    injection Hp' as <-.
    apply (Hrun 2 [x0d; x0e] None Fixtures.store100). vm_compute. reflexivity.
  - apply (proj1 (@SectionReader_ReadAt_spec _ Fixtures.storeReadAt _ (make 4) 5 Hb Hl Hbl)).
    right. vm_compute. discriminate.
Defined.

(* ----------------------------------------------------------------- *)
(** ** Slices after a callee wrote into them *)

Lemma length_overlay (data l : list byte) : length (overlay data l) = length l.
Proof.
  unfold overlay. rewrite length_app, length_firstn, length_skipn. lia.
Qed.

Lemma backing_store (data : list byte) (p : slice) :
  backing (store data p) = overlay data (backing p).
Proof. unfold store, backing at 1. cbn [elems spare]. apply firstn_skipn. Qed.

Lemma len_store (data : list byte) (p : slice) : len (store data p) = len p.
Proof.
  unfold len, store. cbn [elems]. rewrite length_firstn, length_overlay.
  unfold backing. rewrite length_app. lia.
Qed.

Lemma cap_store (data : list byte) (p : slice) : cap (store data p) = cap p.
Proof. unfold cap. rewrite backing_store, length_overlay. reflexivity. Qed.

(* ----------------------------------------------------------------- *)
(** ** teeReader.Read *)

(** C9: [teeReader.Read] first reads from the source.  If the source
    returned no bytes the sink is not written and the source's result is
    the result.  If it returned [n > 0] bytes, the sink is written once,
    with exactly [p[:n]] as the read left it, before the call returns;
    when that write reports no failure the result is the source's
    [(n, err)], and when it reports a failure the result is the write's
    count and failure, whatever the source had reported.  With a sink
    that accepts everything, the sink gains exactly the [n] bytes read.
    Reading [hello] through a tee into an empty accumulating sink
    returns [(5, nil)] and leaves [hello] in the sink. *)
Theorem teeReader_Read_spec (S W : Type) (rd : ReadFn S) (wr : WriteFn W)
    (t0 : teeReader.t S W) (p : slice) (n : Z) (data : list byte)
    (err : option error) (r' : S) :
  rd (teeReader.r t0) p = Ret (n, data, err, r') ->
  (n <= 0 ->
     teeReader.Read rd wr t0 p = Ret (n, data, err, teeReader.mk r' (teeReader.w t0))) /\
  (0 < n <= len p ->
     let sent := firstn (Z.to_nat n) (elems (store data p)) in
     (forall nw ew w',
        wr (teeReader.w t0) sent = Ret (nw, ew, w') ->
        (ew = None ->
           teeReader.Read rd wr t0 p = Ret (n, data, err, teeReader.mk r' w')) /\
        (forall e, ew = Some e ->
           teeReader.Read rd wr t0 p = Ret (nw, data, Some e, teeReader.mk r' w'))) /\
     (forall view, Accepts wr view ->
        exists w',
          teeReader.Read rd wr t0 p = Ret (n, data, err, teeReader.mk r' w') /\
          view w' = view (teeReader.w t0) ++ sent)) /\
  Examples.teeRun
    = Ret (5, Fixtures.hello, None, teeReader.mk [] Fixtures.hello) /\
  teeReader.Read (Fixtures.chunkRead 8) (Fixtures.brokenWrite (ErrOther "disk full"))
                 (teeReader.mk Fixtures.hello []) (make 8)
    = Ret (0, Fixtures.hello, Some (ErrOther "disk full"), teeReader.mk [] []).
Proof.
  intros Hrd. split; [| split; [| split]].
  - intros Hn. unfold teeReader.Read. rewrite Hrd. cbv beta iota delta [bind].
    destruct (Z.ltb_spec 0 n); [lia | reflexivity].
  - intros Hn sent.
    destruct (@slice_to_within (store data p) n) as (q & Hq & Hel & _);
      [rewrite len_store; lia |].
    fold sent in Hel.
    assert (Hstep : forall nw ew w',
               wr (teeReader.w t0) sent = Ret (nw, ew, w') ->
               teeReader.Read rd wr t0 p
                 = match ew with
                   | Some _ => Ret (nw, data, ew, teeReader.mk r' w')
                   | None => Ret (n, data, err, teeReader.mk r' w')
                   end).
    { intros nw ew w' Hwr. unfold teeReader.Read. rewrite Hrd.
      cbv beta iota delta [bind].
      destruct (Z.ltb_spec 0 n); [| lia].
      rewrite Hq, Hel, Hwr. reflexivity. }
    split.
    + intros nw ew w' Hwr. rewrite (Hstep _ _ _ Hwr). split.
      * intros ->. reflexivity.
      * intros e ->. reflexivity.
    + intros view Hacc. destruct (Hacc (teeReader.w t0) sent) as (w' & Hwr & Hview).
      exists w'. rewrite (Hstep _ _ _ Hwr). split; [reflexivity | exact Hview].
  - vm_compute. reflexivity.
  - vm_compute. reflexivity.
Qed.

Lemma teeReader_Read_spec_witness :
  exists w',
    teeReader.Read (Fixtures.chunkRead 2) Fixtures.bufferWrite
                   (teeReader.mk Fixtures.hello [x21]) (make 4)
      = Ret (2, [x68; x65], None, teeReader.mk (skipn 2 Fixtures.hello) w') /\
    w' = [x21] ++ [x68; x65].
Proof.
  assert (Hrd : Fixtures.chunkRead 2
                  (teeReader.r (teeReader.mk (W := list byte) Fixtures.hello [x21])) (make 4)
                = Ret (2, [x68; x65], None, skipn 2 Fixtures.hello))
    by (vm_compute; reflexivity).
  destruct (@teeReader_Read_spec _ _ (Fixtures.chunkRead 2) Fixtures.bufferWrite _ _ _ _ _ _ Hrd)
    as (_ & H & _).
  assert (Hn : 0 < 2 <= len (make 4)) by (vm_compute; split; [reflexivity | discriminate]).
  destruct (H Hn) as [_ Hacc].
  apply (Hacc (fun w => w)).
  intros w p. exists (w ++ p). split; reflexivity.
Defined.

(* ----------------------------------------------------------------- *)
(** ** LimitedReader.Read *)

(** C5, as the claim states it, fails in its last part: non-negative
    counts are not enough.  An underlying reader that reports 3 bytes
    for the 1-byte buffer it was given makes a reader limited to 1 byte
    return a count of 3, and its [N] drops to -2. *)
Lemma LimitedReader_total_needs_bounded_counts :
  ~ (forall (S : Type) (rd : ReadFn S),
       (forall s p n data err s', rd s p = Ret (n, data, err, s') -> 0 <= n) ->
       forall (l l' : LimitedReader.t S) (ps : list slice) (total : Z),
         0 <= LimitedReader.N l <= maxint64 ->
         limitedReads rd l ps = Ret (total, l') ->
         total <= LimitedReader.N l).
Proof.
  intros H.
  specialize (H unit (Fixtures.overReportingRead 3)).
  assert (Hpos : forall s p n data err s',
             Fixtures.overReportingRead 3 s p = Ret (n, data, err, s') -> 0 <= n).
  { intros s p n data err s' E. unfold Fixtures.overReportingRead in E.
    injection E as <- _ _ _. lia. }
  specialize (H Hpos (LimitedReader.mk tt 1) (LimitedReader.mk tt (-2)) [make 5] 3).
  cbn [LimitedReader.N] in H.
  assert (3 <= 1); [| lia].
  apply H; [unfold maxint64; lia | vm_compute; reflexivity].
Qed.

Lemma LimitedReader_Read_step (S : Type) (rd : ReadFn S) (l : LimitedReader.t S)
    (p : slice) :
  0 < LimitedReader.N l ->
  exists p',
    elems p' = firstn (Z.to_nat (LimitedReader.N l)) (elems p) /\
    len p' = Z.min (len p) (LimitedReader.N l) /\
    backing p' = backing p /\
    LimitedReader.Read rd l p =
      ('(n, data, err, r') <- rd (LimitedReader.R l) p' ;;
       Ret (n, data, err, LimitedReader.mk r' (wrap64 (LimitedReader.N l - n)))).
Proof.
  intros HN. unfold LimitedReader.Read.
  destruct (Z.leb_spec (LimitedReader.N l) 0); [lia |].
  destruct (Z.ltb_spec (LimitedReader.N l) (len p)) as [Hlt | Hge].
  - destruct (@slice_to_within p (LimitedReader.N l)) as (p' & Hp' & Hel & Hlen); [lia |].
    exists p'. rewrite Hp'. repeat split; trivial; [lia |].
    unfold slice_to in Hp'.
    destruct ((0 <=? LimitedReader.N l) && (LimitedReader.N l <=? cap p)); [| discriminate].
    injection Hp' as <-. unfold backing at 1. cbn [elems spare]. apply firstn_skipn.
  - exists p. repeat split; trivial; [| lia].
    rewrite firstn_all2; [reflexivity |]. unfold len in Hge. lia.
Qed.

Lemma limitedReads_bounded (S : Type) (rd : ReadFn S) :
  CountsWithin rd ->
  forall (ps : list slice) (l : LimitedReader.t S),
    is_int64 (LimitedReader.N l) ->
    exists total l',
      limitedReads rd l ps = Ret (total, l') /\
      0 <= total <= Z.max 0 (LimitedReader.N l) /\
      LimitedReader.N l' <= LimitedReader.N l /\
      (0 <= LimitedReader.N l -> 0 <= LimitedReader.N l').
Proof.
  intros Hrd ps. induction ps as [| p ps IH]; intros l HN.
  - exists 0, l. cbn. repeat split; lia.
  - cbn [limitedReads].
    destruct (Z_le_gt_dec (LimitedReader.N l) 0) as [Hle | Hgt].
    + unfold LimitedReader.Read at 1.
      destruct (Z.leb_spec (LimitedReader.N l) 0); [| lia].
      cbv beta iota delta [bind].
      destruct (IH l HN) as (total & l' & E & Htot & Hmono & Hnn).
      exists (0 + total), l'. rewrite E. repeat split; try lia.
    + destruct (@LimitedReader_Read_step _ rd l p) as (p' & _ & Hlen & _ & E); [lia |].
      rewrite E.
      destruct (Hrd (LimitedReader.R l) p') as (n & data & err & r' & Hcall & Hn).
      rewrite Hcall. cbv beta iota delta [bind].
      assert (Hw : wrap64 (LimitedReader.N l - n) = LimitedReader.N l - n).
      { apply wrap64_id. unfold is_int64, minint64, maxint64 in *. lia. }
      rewrite Hw.
      destruct (IH (LimitedReader.mk r' (LimitedReader.N l - n)))
        as (total & l' & E' & Htot & Hmono & Hnn).
      { cbn [LimitedReader.N]. unfold is_int64, minint64, maxint64 in *. lia. }
      cbn [LimitedReader.N] in *.
      exists (n + total), l'. rewrite E'. repeat split; try lia.
Qed.

(** C5 (amended): for a [LimitedReader] with an [int64] count [N] left,
    - when [N <= 0], [Read] returns [(0, EOF)] and leaves the reader as
      it is, whatever the underlying reader (it is not called);
    - when [N > 0], [Read] calls the underlying reader once, on [p]
      clamped to [min(len(p), N)] bytes, returns its count, bytes and
      status unchanged, and subtracts the count from [N]; for a
      non-negative count the new [N] is at most the old one;
    - over an underlying reader whose counts are between 0 and the
      length it was asked for, any sequence of calls returns; the counts
      add up to at most [max(N, 0)], [N] never increases, and a
      non-negative [N] stays non-negative. *)
Theorem LimitedReader_Read_spec (S : Type) (rd : ReadFn S) (l : LimitedReader.t S) :
  is_int64 (LimitedReader.N l) ->
  (LimitedReader.N l <= 0 ->
     forall p, LimitedReader.Read rd l p = Ret (0, [], Some EOF, l)) /\
  (0 < LimitedReader.N l ->
     forall p, exists p',
       elems p' = firstn (Z.to_nat (LimitedReader.N l)) (elems p) /\
       len p' = Z.min (len p) (LimitedReader.N l) /\
       forall n data err r',
         rd (LimitedReader.R l) p' = Ret (n, data, err, r') ->
         exists N',
           LimitedReader.Read rd l p = Ret (n, data, err, LimitedReader.mk r' N') /\
           N' = wrap64 (LimitedReader.N l - n) /\
           (0 <= n <= maxint64 -> N' = LimitedReader.N l - n /\ N' <= LimitedReader.N l)) /\
  (CountsWithin rd ->
     forall ps, exists total l',
       limitedReads rd l ps = Ret (total, l') /\
       0 <= total <= Z.max 0 (LimitedReader.N l) /\
       LimitedReader.N l' <= LimitedReader.N l /\
       (0 <= LimitedReader.N l -> 0 <= LimitedReader.N l')).
Proof.
  intros HN. split; [| split].
  - intros Hle p. unfold LimitedReader.Read.
    destruct (Z.leb_spec (LimitedReader.N l) 0); [reflexivity | lia].
  - intros Hpos p.
    destruct (@LimitedReader_Read_step _ rd l p Hpos) as (p' & Hel & Hlen & _ & E).
    exists p'. repeat split; trivial.
    intros n data err r' Hcall. eexists. rewrite E, Hcall.
    split; [reflexivity |]. split; [reflexivity |].
    intros Hn.
    assert (Hw : wrap64 (LimitedReader.N l - n) = LimitedReader.N l - n).
    { apply wrap64_id. unfold is_int64, minint64, maxint64 in *. lia. }
    rewrite Hw. lia.
  - intros Hrd ps. apply limitedReads_bounded; assumption.
Qed.



(* ----------------------------------------------------------------- *)
(** ** Lists and slices: what a call sees of a buffer *)

Lemma firstn_firstn_le (A : Type) (k n : nat) (l : list A) :
  (k <= n)%nat -> firstn k (firstn n l) = firstn k l.
Proof. intros H. rewrite firstn_firstn. f_equal. lia. Qed.

Lemma firstn_skipn_glue (A : Type) (k j : nat) (l : list A) :
  firstn k l ++ firstn j (skipn k l) = firstn (k + j) l.
Proof.
  revert l. induction k as [| k IH]; intros l.
  - reflexivity.
  - destruct l as [| a l]; cbn.
    + rewrite firstn_nil. reflexivity.
    + rewrite IH. reflexivity.
Qed.

Lemma skipn_firstn_swap (A : Type) (k n : nat) (l : list A) :
  (k <= n)%nat -> skipn k (firstn n l) = firstn (n - k) (skipn k l).
Proof.
  intros H. rewrite skipn_firstn_comm. reflexivity.
Qed.

(** The first [k <= len(p)] bytes of [p] after a write of [data] are the
    first [k] bytes of the backing array. *)
Lemma firstn_elems_store (data : list byte) (p : slice) (k : nat) :
  (k <= length (elems p))%nat ->
  firstn k (elems (store data p)) = firstn k (overlay data (backing p)).
Proof.
  intros H. unfold store. cbn [elems]. apply firstn_firstn_le. exact H.
Qed.

Lemma len_make (size : Z) : 0 <= size -> len (make size) = size.
Proof.
  intros H. unfold len, make. cbn [elems]. rewrite repeat_length. lia.
Qed.

Lemma len_nonneg (p : slice) : 0 <= len p.
Proof. unfold len. lia. Qed.

(* ----------------------------------------------------------------- *)
(** ** The staging loop over a well-behaved source and sink *)

Section CopyLoop.

Variables S W : Type.
Variable rd : ReadFn S.
Variable wr : WriteFn W.
Variable view : W -> list byte.
Hypothesis wr_accepts : Accepts wr view.

(** One pass of the loop when the source delivered the [n] bytes
    [chunk]: they are written, [written] grows by [n], and the loop
    goes on or stops as the source's status says. *)
Lemma copyIter_delivers (s s1 : S) (w : W) (buf : slice) (written n : Z)
    (data : list byte) (err : option error) :
  rd s buf = Ret (n, data, err, s1) ->
  0 <= n <= len buf ->
  is_int64 (written + n) ->
  exists w1,
    view w1 = view w ++ firstn (Z.to_nat n) (elems (store data buf)) /\
    copyIter rd wr (s, w, buf, written)
      = Ret (match err with
             | Some e => Break (written + n, if is_EOF e then None else Some e, s1, w1)
             | None => Continue (s1, w1, store data buf, written + n)
             end).
Proof.
  intros Hrd Hn Hint. unfold copyIter. rewrite Hrd.
  cbv beta iota zeta delta [bind].
  destruct (Z.ltb_spec 0 n) as [Hpos | Hzero].
  - destruct (@slice_to_within (store data buf) n) as (q & Hq & Hel & _);
      [rewrite len_store; lia |].
    rewrite Hq.
    destruct (wr_accepts w (elems q)) as (w1 & Hwr & Hview).
    rewrite Hwr.
    assert (Hlen : Z.of_nat (length (elems q)) = n).
    { rewrite Hel, length_firstn. pose proof (len_store data buf) as E.
      unfold len in E, Hn. lia. }
    rewrite Hlen.
    assert (E : (n <? 0) || (n <? n) = false).
    { apply orb_false_iff. split; apply Z.ltb_ge; lia. }
    rewrite E, Z.eqb_refl. cbn [negb].
    rewrite (wrap64_id Hint).
    exists w1. split; [rewrite Hview, Hel; reflexivity |].
    destruct err; reflexivity.
  - assert (n = 0) as -> by lia.
    exists w. cbn [Z.to_nat firstn]. rewrite app_nil_r, Z.add_0_r.
    split; [reflexivity |]. destruct err; reflexivity.
Qed.

(** The loop hands the whole content of the source to the sink and
    adds its length to [written], for every amount of fuel from some
    bound on. *)
Lemma copyLoop_Yields (s : S) (bs : list byte) :
  Yields rd s bs ->
  forall (w : W) (buf : slice) (written : Z),
    0 < len buf ->
    0 <= written ->
    written + Z.of_nat (length bs) <= maxint64 ->
    exists fuel0 s' w',
      view w' = view w ++ bs /\
      forall fuel, (fuel0 <= fuel)%nat ->
        copyLoop fuel rd wr (s, w, buf, written)
          = Ret (written + Z.of_nat (length bs), None, s', w').
Proof.
  induction 1 as [s bs Hread _ IH]. intros w buf written Hbuf Hw Hmax.
  destruct (Hread buf Hbuf) as (n & data & err & s1 & Hrd & Hn & HnL & Hpre & Herr).
  destruct (@copyIter_delivers s s1 w buf written n data err Hrd Hn)
    as (w1 & Hview & Hiter).
  { unfold is_int64, minint64, maxint64 in *. lia. }
  assert (Hsplit : bs = firstn (Z.to_nat n) bs ++ skipn (Z.to_nat n) bs)
    by (symmetry; apply firstn_skipn).
  destruct Herr as [-> | [-> HnL']].
  - destruct (IH buf n data s1 Hbuf Hrd w1 (store data buf) (written + n))
      as (fuel0 & s' & w' & Hview' & Hrun).
    + rewrite len_store. exact Hbuf.
    + lia.
    + rewrite length_skipn. lia.
    + exists (Datatypes.S fuel0), s', w'. split.
      * rewrite Hview', Hview, Hpre, <- app_assoc, <- Hsplit. reflexivity.
      * intros fuel Hfuel. destruct fuel as [| fuel]; [lia |].
        cbn [copyLoop]. rewrite Hiter. cbv beta iota delta [bind].
        rewrite Hrun by lia. rewrite length_skipn. do 4 f_equal. lia.
  - exists 1%nat, s1, w1. split.
    + rewrite Hview, Hpre. f_equal. apply firstn_all2. lia.
    + intros fuel Hfuel. destruct fuel as [| fuel]; [lia |].
      cbn [copyLoop]. rewrite Hiter. cbv beta iota delta [bind is_EOF].
      rewrite HnL'. reflexivity.
Qed.

End CopyLoop.

(* ----------------------------------------------------------------- *)
(** ** The fixtures meet the contracts *)

Lemma firstn_store_data (data : list byte) (p : slice) :
  Z.of_nat (length data) <= len p ->
  firstn (length data) (elems (store data p)) = data.
Proof.
  unfold len. intros H. rewrite firstn_elems_store by lia.
  unfold overlay.
  rewrite (firstn_all2 (n := length (backing p)) data)
    by (unfold backing; rewrite length_app; lia).
  rewrite firstn_app, firstn_all, Nat.sub_diag, firstn_O. apply app_nil_r.
Qed.

Lemma chunkRead_Yields (k : Z) :
  0 < k -> forall s, Yields (Fixtures.chunkRead k) s s.
Proof.
  intros Hk s.
  remember (length s) as m eqn:Hm.
  assert (Hle : (length s <= m)%nat) by lia. clear Hm.
  revert s Hle. induction m as [| m IH]; intros s Hle.
  - destruct s; [| cbn in Hle; lia].
    constructor.
    + intros p Hp. exists 0, [], (Some EOF), []. cbn.
      repeat split; try lia. right. split; reflexivity.
    + intros p n data s' _ E. cbn in E. discriminate E.
  - destruct s as [| b s].
    { constructor.
      - intros p Hp. exists 0, [], (Some EOF), []. cbn.
        repeat split; try lia. right. split; reflexivity.
      - intros p n data s' _ E. cbn in E. discriminate E. }
    constructor.
    + intros p Hp.
      set (n := Z.min (Z.min k (len p)) (Z.of_nat (length (b :: s)))).
      exists n, (firstn (Z.to_nat n) (b :: s)), None, (skipn (Z.to_nat n) (b :: s)).
      assert (Hn : 0 < n <= len p) by (subst n; cbn [length]; lia).
      assert (HnL : n <= Z.of_nat (length (b :: s))) by (subst n; lia).
      split; [reflexivity |]. split; [lia |]. split; [exact HnL |].
      split; [| left; reflexivity].
      assert (Hlen : length (firstn (Z.to_nat n) (b :: s)) = Z.to_nat n)
        by (rewrite length_firstn; lia).
      rewrite <- Hlen at 1. rewrite firstn_store_data by lia.
      reflexivity.
    + intros p n data s' Hp E. unfold Fixtures.chunkRead in E.
      injection E as <- _ <-.
      apply IH. rewrite length_skipn. cbn [length] in *. lia.
Qed.

Lemma bufferWrite_Accepts : Accepts Fixtures.bufferWrite (fun w => w).
Proof. intros w p. exists (w ++ p). split; reflexivity. Qed.

Lemma chunkRead_CountsWithin (k : Z) : 0 <= k -> CountsWithin (Fixtures.chunkRead k).
Proof.
  intros Hk s p. unfold Fixtures.chunkRead. destruct s as [| b s].
  - exists 0, [], (Some EOF), []. split; [reflexivity |]. pose proof (len_nonneg p). lia.
  - eexists _, _, _, _. split; [reflexivity |].
    pose proof (len_nonneg p). cbn [length]. lia.
Qed.

(** Three reads of two bytes each from [hello] through a reader limited
    to 3 bytes: the counts add up to at most 3. *)
Lemma LimitedReader_Read_spec_witness :
  exists total l',
    limitedReads (Fixtures.chunkRead 2) (LimitedReader.mk Fixtures.hello 3)
                 [make 2; make 2; make 2] = Ret (total, l') /\
    0 <= total <= Z.max 0 3 /\
    LimitedReader.N l' <= 3 /\
    (0 <= 3 -> 0 <= LimitedReader.N l').
Proof.
  assert (HN : is_int64 (LimitedReader.N (LimitedReader.mk Fixtures.hello 3)))
    by (vm_compute; split; discriminate).
  destruct (LimitedReader_Read_spec (Fixtures.chunkRead 2) _ HN) as (_ & _ & H).
  apply H. apply chunkRead_CountsWithin. lia.
Defined.

(* ----------------------------------------------------------------- *)
(** ** Copy *)

(** The size of the staging buffer that [copyBuffer] allocates is at
    least one byte. *)
Lemma staging_size_pos (lim : option Z) :
  0 < match lim with
      | Some n => if n <? 32 * 1024 then (if n <? 1 then 1 else n) else 32 * 1024
      | None => 32 * 1024
      end.
Proof.
  destruct lim as [n |]; [| lia].
  destruct (Z.ltb_spec n (32 * 1024)); [| lia].
  destruct (Z.ltb_spec n 1); lia.
Qed.

(* ----------------------------------------------------------------- *)
(** ** CopyN *)

(** A source limited to [n >= 0] bytes is a source whose content is the
    first [n] bytes of the underlying content. *)
Lemma Yields_LimitReader (S : Type) (rd : ReadFn S) (s : S) (bs : list byte) :
  Yields rd s bs ->
  forall n, 0 <= n -> is_int64 n ->
    Yields (LimitedReader.Read rd) (LimitedReader.mk s n) (firstn (Z.to_nat n) bs).
Proof.
  induction 1 as [s bs Hread _ IH]. intros n Hn Hint.
  destruct (Z.eq_dec n 0) as [-> | Hnz].
  - constructor.
    + intros p Hp. exists 0, [], (Some EOF), (LimitedReader.mk s 0).
      cbn. repeat split; try lia. right. split; reflexivity.
    + intros p k data l' _ E. cbn in E. discriminate E.
  - assert (Hpos : 0 < LimitedReader.N (LimitedReader.mk s n)) by (cbn; lia).
    constructor.
    + intros p Hp.
      destruct (@LimitedReader_Read_step _ rd _ p Hpos) as (p' & _ & Hlen & Hback & E).
      cbn [LimitedReader.N LimitedReader.R] in *.
      destruct (Hread p') as (k & data & err & s1 & Hrd & Hk & HkL & Hpre & Herr); [lia |].
      exists k, data, err, (LimitedReader.mk s1 (wrap64 (n - k))).
      rewrite E, Hrd. split; [reflexivity |]. split; [lia |].
      rewrite length_firstn. split; [lia |]. split.
      * rewrite firstn_firstn_le by lia. rewrite <- Hpre.
        unfold len in *. rewrite !firstn_elems_store by lia.
        rewrite Hback. reflexivity.
      * destruct Herr as [-> | [-> HkL']]; [left; reflexivity | right].
        split; [reflexivity | lia].
    + intros p k data l' Hp E.
      destruct (@LimitedReader_Read_step _ rd (LimitedReader.mk s n) p Hpos)
        as (p' & _ & Hlen & _ & E').
      cbn [LimitedReader.N LimitedReader.R] in *.
      rewrite E' in E.
      destruct (Hread p') as (k' & data' & err' & s1 & Hrd & Hk & HkL & _ & _); [lia |].
      rewrite Hrd in E. cbv beta iota delta [bind] in E.
      injection E as <- <- -> <-.
      rewrite wrap64_id by (unfold is_int64, minint64, maxint64 in *; lia).
      rewrite skipn_firstn_swap by lia.
      replace (Z.to_nat n - Z.to_nat k')%nat with (Z.to_nat (n - k')) by lia.
      apply (IH p' k' data' s1); [lia | exact Hrd | lia |].
      unfold is_int64, minint64, maxint64 in *. lia.
Qed.

(** A source limited to a negative count has no content. *)
Lemma Yields_LimitReader_exhausted (S : Type) (rd : ReadFn S) (s : S) (n : Z) :
  n <= 0 -> Yields (LimitedReader.Read rd) (LimitedReader.mk s n) [].
Proof.
  intros Hn.
  assert (E : forall p, LimitedReader.Read rd (LimitedReader.mk s n) p
                        = Ret (0, [], Some EOF, LimitedReader.mk s n)).
  { intros p. unfold LimitedReader.Read. cbn [LimitedReader.N].
    destruct (Z.leb_spec n 0); [reflexivity | lia]. }
  constructor.
  - intros p Hp. exists 0, [], (Some EOF), (LimitedReader.mk s n).
    rewrite E. cbn. repeat split; try lia. right. split; reflexivity.
  - intros p k data l' _ E'. rewrite E in E'. discriminate E'.
Qed.

(** C2, as the claim states it, fails for a negative [n]: [n <= L]
    holds, but [CopyN] transfers nothing and returns [(0, nil)], not
    [(n, nil)]. *)
Lemma CopyN_negative_count :
  ~ (forall n : Z,
       is_int64 n -> n <= Z.of_nat (length Fixtures.hello) ->
       exists fuel s' w',
         CopyN fuel Fixtures.bufferWriter (Fixtures.chunkReader 2) [] Fixtures.hello n
           = Ret (n, None, s', w')).
Proof.
  intros H.
  destruct (H (-1)) as (fuel & s' & w' & E).
  - unfold is_int64, minint64, maxint64. lia.
  - cbn. lia.
  - destruct fuel as [| fuel]; [vm_compute in E; discriminate E |].
    assert (E' : CopyN (Datatypes.S fuel) Fixtures.bufferWriter (Fixtures.chunkReader 2)
                   [] Fixtures.hello (-1)
                 = Ret (0, None, Fixtures.hello, [])) by reflexivity.
    rewrite E' in E. discriminate E.
Qed.

(* ----------------------------------------------------------------- *)
(** ** ReadAtLeast: the loop *)

Lemma slice_from_within (buf : slice) (n : Z) :
  0 <= n <= len buf ->
  exists p, slice_from buf n = Ret p /\
            elems p = skipn (Z.to_nat n) (elems buf) /\
            backing p = skipn (Z.to_nat n) (backing buf) /\
            len p = len buf - n.
Proof.
  intros H. unfold slice_from.
  destruct (Z.leb_spec 0 n); [| lia].
  destruct (Z.leb_spec n (len buf)); [| lia].
  eexists. split; [reflexivity |]. unfold len in *. cbn [andb elems].
  split; [reflexivity |]. split.
  - unfold backing. cbn [elems spare]. rewrite skipn_app.
    replace (Z.to_nat n - length (elems buf))%nat with O by lia. reflexivity.
  - rewrite length_skipn. lia.
Qed.

Lemma len_store_from (data : list byte) (buf : slice) (n : Z) :
  len (store_from data buf n) = len buf.
Proof.
  unfold len, store_from. cbn [elems].
  rewrite length_firstn, length_app, length_firstn, length_overlay, length_skipn.
  unfold backing. rewrite length_app. lia.
Qed.

(** After a write of [data] at [buf[n:]], the first [n + k] bytes of
    [buf] are its first [n] bytes followed by the first [k] bytes that
    the callee saw in [p = buf[n:]]. *)
Lemma firstn_store_from (data : list byte) (buf p : slice) (n k : Z) :
  0 <= n <= len buf ->
  slice_from buf n = Ret p ->
  0 <= k <= len p ->
  firstn (Z.to_nat (n + k)) (elems (store_from data buf n))
    = firstn (Z.to_nat n) (elems buf) ++ firstn (Z.to_nat k) (elems (store data p)).
Proof.
  intros Hn Hp Hk.
  destruct (slice_from_within buf Hn) as (p' & Hp' & Hel & Hback & Hlen).
  rewrite Hp in Hp'. injection Hp' as <-.
  unfold len in *.
  rewrite firstn_elems_store by lia. rewrite Hback.
  unfold store_from. cbn [elems].
  rewrite firstn_firstn_le by lia.
  rewrite firstn_app, length_firstn.
  assert (Hb : (Z.to_nat n <= length (backing buf))%nat)
    by (unfold backing; rewrite length_app; lia).
  rewrite firstn_firstn.
  replace (Nat.min (Z.to_nat (n + k)) (Z.to_nat n)) with (Z.to_nat n) by lia.
  replace (Z.to_nat (n + k) - Nat.min (Z.to_nat n) (length (backing buf)))%nat
    with (Z.to_nat k) by lia.
  f_equal. unfold backing. rewrite firstn_app.
  replace (Z.to_nat n - length (elems buf))%nat with O by lia.
  rewrite firstn_O. apply app_nil_r.
Qed.

Section ReadLoop.

Variable S : Type.
Variable rd : ReadFn S.

Lemma readLoop_eq (fuel : nat) (s : S) (buf : slice) (min n : Z) (err : option error) :
  readLoop fuel rd s buf min n err =
    if (n <? min) && (match err with None => true | Some _ => false end) then
      match fuel with
      | O => OutOfFuel
      | Datatypes.S fuel =>
          p <- slice_from buf n ;;
          '(nn, data, err, s) <- rd s p ;;
          readLoop fuel rd s (store_from data buf n) min (wrap64 (n + nn)) err
      end
    else Ret (n, err, s, buf).
Proof. destruct fuel; reflexivity. Qed.

(** When the loop returns, its test has failed: it has [min] bytes or
    a failure. *)
Lemma readLoop_exit (fuel : nat) :
  forall (s : S) (buf : slice) (min n : Z) (err : option error) n' err' s' buf',
    readLoop fuel rd s buf min n err = Ret (n', err', s', buf') ->
    n' < min -> err' <> None.
Proof.
  induction fuel as [| fuel IH]; intros s buf min n err n' err' s' buf' E Hlt;
    rewrite readLoop_eq in E;
    destruct ((n <? min) && match err with None => true | Some _ => false end) eqn:C.
  - discriminate E.
  - injection E as <- <- <- <-. intros ->.
    rewrite andb_true_r in C. apply Z.ltb_ge in C. lia.
  - destruct (slice_from buf n) as [p | |]; try discriminate E.
    cbv beta iota delta [bind] in E.
    destruct (rd s p) as [[[[nn data] e1] s1] | |]; try discriminate E.
    apply (IH _ _ _ _ _ _ _ _ _ E Hlt).
  - injection E as <- <- <- <-. intros ->.
    rewrite andb_true_r in C. apply Z.ltb_ge in C. lia.
Qed.

(** The loop over a source whose content is [bs], entered with [n]
    bytes in [buf]: for enough fuel it returns [m] bytes, the [n] it
    had and the next [m - n] of [bs]; either [m] has reached [min], or
    the source ran dry: then [m = n + L] and [EOF] is the status. *)
Lemma readLoop_Yields (s : S) (bs : list byte) :
  Yields rd s bs ->
  forall (buf : slice) (min n : Z),
    0 <= n -> min <= len buf -> len buf <= maxint64 ->
    exists fuel0 m e s' buf',
      (forall fuel, (fuel0 <= fuel)%nat ->
         readLoop fuel rd s buf min n None = Ret (m, e, s', buf')) /\
      len buf' = len buf /\
      n <= m <= n + Z.of_nat (length bs) /\
      (min <= n -> m = n) /\
      (n < min -> m <= len buf) /\
      firstn (Z.to_nat m) (elems buf')
        = firstn (Z.to_nat n) (elems buf) ++ firstn (Z.to_nat (m - n)) bs /\
      ((min <= m /\ (e = None \/ e = Some EOF)) \/
       (m < min /\ e = Some EOF /\ m = n + Z.of_nat (length bs))).
Proof.
  induction 1 as [s bs Hread _ IH]. intros buf min n Hn Hmin Hmax.
  destruct (Z_le_gt_dec min n) as [Hdone | Hmore].
  - exists O, n, None, s, buf. split.
    + intros fuel _. rewrite readLoop_eq.
      destruct (Z.ltb_spec n min); [lia | reflexivity].
    + repeat split; try lia.
      * rewrite Z.sub_diag. cbn [Z.to_nat firstn]. symmetry. apply app_nil_r.
      * left. split; [lia | left; reflexivity].
  - destruct (@slice_from_within buf n) as (p & Hp & _ & _ & Hlen); [lia |].
    destruct (Hread p) as (k & data & err & s1 & Hrd & Hk & HkL & Hpre & Herr); [lia |].
    assert (Hw : wrap64 (n + k) = n + k).
    { apply wrap64_id. unfold is_int64, minint64, maxint64 in *. lia. }
    assert (Hstep : forall fuel,
               readLoop (Datatypes.S fuel) rd s buf min n None
                 = readLoop fuel rd s1 (store_from data buf n) min (n + k) err).
    { intros fuel. rewrite readLoop_eq.
      destruct (Z.ltb_spec n min); [| lia]. cbn [andb].
      rewrite Hp. cbv beta iota delta [bind]. rewrite Hrd, Hw. reflexivity. }
    pose proof (@firstn_store_from data buf p n k ltac:(lia) Hp ltac:(lia)) as Hfst.
    rewrite Hpre in Hfst.
    destruct Herr as [-> | [-> HkL']].
    + destruct (IH p k data s1 ltac:(lia) Hrd (store_from data buf n) min (n + k))
        as (fuel0 & m & e & s' & buf' & Hrun & Hlen' & Hm & Hstop & Hcap & Hdata & Hend).
      * lia.
      * rewrite len_store_from. exact Hmin.
      * rewrite len_store_from. exact Hmax.
      * rewrite len_store_from in *. rewrite length_skipn in *.
        exists (Datatypes.S fuel0), m, e, s', buf'. split.
        { intros fuel Hfuel. destruct fuel as [| fuel]; [lia |].
          rewrite Hstep. apply Hrun. lia. }
        split; [exact Hlen' |]. split; [lia |]. split; [lia |].
        split; [intros _; destruct (Z_le_gt_dec min (n + k)); lia |].
        split.
        { rewrite Hdata, Hfst, <- app_assoc. f_equal.
          rewrite firstn_skipn_glue. f_equal. lia. }
        destruct Hend as [Hend | (Hlt & He & Hm')]; [left; exact Hend | right].
        repeat split; trivial. lia.
    + exists 1%nat, (n + k), (Some EOF), s1, (store_from data buf n). split.
      * intros fuel Hfuel. destruct fuel as [| fuel]; [lia |].
        rewrite Hstep, readLoop_eq. rewrite andb_false_r. reflexivity.
      * rewrite len_store_from. split; [reflexivity |].
        split; [lia |]. split; [lia |]. split; [lia |]. split.
        { rewrite Hfst. do 2 f_equal. lia. }
        destruct (Z_le_gt_dec min (n + k)).
        { left. split; [lia | right; reflexivity]. }
        { right. repeat split; lia. }
Qed.

End ReadLoop.

(* ----------------------------------------------------------------- *)
(** ** ReadAtLeast and ReadFull *)

(** C4: for every reader [r], buffer [buf] and count [min]:
    - when [len(buf) < min], [ReadAtLeast] returns
      [(0, ErrShortBuffer)] at once: no fuel is needed, the reader's state
      and the buffer are untouched;
    - whenever it returns [(n, err)], [n >= min] if and only if
      [err == nil];
    - a failure that the reader reports together with at least [min]
      bytes is dropped;
    - over a source whose total content is [bs], of length [L], and with
      [min <= len(buf)], it returns for every amount of fuel from some
      bound on, and [buf] then starts with the first [n] bytes of [bs]:
      [(0, EOF)] when [L = 0 < min]; [(L, ErrUnexpectedEOF)] when
      [0 < L < min]; [(n, nil)] with [min <= n <= L] and [n <= len(buf)]
      when [min <= L];
    - [ReadFull(r, buf)] is [ReadAtLeast(r, buf, len(buf))]. *)
Theorem ReadAtLeast_spec (S : Type) (r : Reader S) (s : S) (buf : slice) (min : Z) :
  (len buf < min ->
     forall fuel, ReadAtLeast fuel r s buf min = Ret (0, Some ErrShortBuffer, s, buf)) /\
  (forall fuel n err s' buf',
     ReadAtLeast fuel r s buf min = Ret (n, err, s', buf') ->
     (min <= n <-> err = None)) /\
  (forall k data e s1 fuel,
     0 < min <= len buf ->
     Read r s (Slice (elems buf) (spare buf)) = Ret (k, data, Some e, s1) ->
     min <= k -> is_int64 k ->
     ReadAtLeast (Datatypes.S fuel) r s buf min = Ret (k, None, s1, store_from data buf 0)) /\
  (forall bs,
     Yields (Read r) s bs -> min <= len buf -> len buf <= maxint64 ->
     exists fuel0 n err s' buf',
       (forall fuel, (fuel0 <= fuel)%nat ->
          ReadAtLeast fuel r s buf min = Ret (n, err, s', buf')) /\
       len buf' = len buf /\
       firstn (Z.to_nat n) (elems buf') = firstn (Z.to_nat n) bs /\
       (0 < min -> length bs = O -> n = 0 /\ err = Some EOF) /\
       (0 < Z.of_nat (length bs) < min ->
          n = Z.of_nat (length bs) /\ err = Some ErrUnexpectedEOF) /\
       (min <= Z.of_nat (length bs) ->
          min <= n <= Z.of_nat (length bs) /\ n <= len buf /\ err = None)) /\
  (forall fuel, ReadFull fuel r s buf = ReadAtLeast fuel r s buf (len buf)).
Proof.
  split; [| split; [| split; [| split]]].
  - intros Hshort fuel. unfold ReadAtLeast.
    destruct (Z.ltb_spec (len buf) min); [reflexivity | lia].
  - intros fuel n err s' buf' E. unfold ReadAtLeast in E.
    destruct (Z.ltb_spec (len buf) min) as [Hshort | Hfit].
    + injection E as <- <- <- <-. pose proof (len_nonneg buf).
      split; [lia | discriminate].
    + destruct (readLoop fuel (Read r) s buf min 0 None)
        as [[[[n0 e0] s0] buf0] | |] eqn:Eloop; try discriminate E.
      cbv beta iota zeta delta [bind] in E. injection E as <- <- <- <-.
      assert (Hexit : n0 < min -> e0 <> None)
        by (intros Hlt; eapply readLoop_exit; [exact Eloop | exact Hlt]).
      destruct (Z.leb_spec min n0) as [Hge | Hlt].
      * split; [reflexivity | lia].
      * split; [lia |]. intros Hnil. exfalso. apply (Hexit Hlt).
        destruct e0 as [e |]; [| reflexivity].
        destruct ((0 <? n0) && match e with EOF => true | _ => false end);
          discriminate Hnil.
  - intros k data e s1 fuel Hmin Hrd Hk Hint. unfold ReadAtLeast.
    destruct (Z.ltb_spec (len buf) min); [lia |].
    rewrite readLoop_eq.
    destruct (Z.ltb_spec 0 min); [| lia]. cbn [andb].
    unfold slice_from.
    destruct (Z.leb_spec 0 (len buf)); [| lia].
    change (0 <=? 0) with true. change (Z.to_nat 0) with O.
    cbn [andb skipn bind]. rewrite Hrd.
    cbv beta iota delta [bind]. rewrite readLoop_eq, andb_false_r.
    rewrite (wrap64_id (z := 0 + k)) by exact Hint.
    destruct (Z.leb_spec min (0 + k)); [reflexivity | lia].
  - intros bs Hsrc Hmin Hmax.
    destruct (@readLoop_Yields _ (Read r) s bs Hsrc buf min 0 ltac:(lia) Hmin Hmax)
      as (fuel0 & m & e & s' & buf' & Hrun & Hlen & Hm & Hstop & Hcap & Hdata & Hend).
    cbn [Z.to_nat firstn app] in Hdata. rewrite Z.sub_0_r in Hdata.
    pose proof (len_nonneg buf) as Hnn.
    exists fuel0, m,
      (if min <=? m then None
       else if (0 <? m) && match e with Some EOF => true | _ => false end
            then Some ErrUnexpectedEOF else e),
      s', buf'.
    split.
    { intros fuel Hfuel. unfold ReadAtLeast.
      destruct (Z.ltb_spec (len buf) min); [lia |].
      rewrite (Hrun fuel Hfuel). reflexivity. }
    split; [exact Hlen |]. split; [exact Hdata |].
    destruct Hend as [[Hge He] | (Hlt & -> & Hm')].
    + destruct (Z.leb_spec min m); [| lia].
      split; [| split].
      * intros Hpos HL. rewrite HL in Hm. cbn in Hm. lia.
      * intros HL. lia.
      * intros HL. split; [lia |]. split; [| reflexivity].
        destruct (Z_le_gt_dec min 0); lia.
    + destruct (Z.leb_spec min m); [lia |].
      split; [| split].
      * intros _ HL. rewrite HL in Hm'. cbn in Hm'. subst m. split; reflexivity.
      * intros HL. split; [lia |].
        destruct (Z.ltb_spec 0 m); [reflexivity | lia].
      * intros HL. lia.
  - intros fuel. reflexivity.
Qed.

(** [ReadFull] of a 7-byte buffer from the 5-byte source [hello]. *)
Lemma ReadAtLeast_spec_witness :
  exists fuel0 n err s' buf',
    (forall fuel, (fuel0 <= fuel)%nat ->
       ReadAtLeast fuel (Fixtures.chunkReader 2) Fixtures.hello (make 7) 7
         = Ret (n, err, s', buf')) /\
    len buf' = len (make 7) /\
    firstn (Z.to_nat n) (elems buf') = firstn (Z.to_nat n) Fixtures.hello /\
    (0 < 7 -> length Fixtures.hello = O -> n = 0 /\ err = Some EOF) /\
    (0 < Z.of_nat (length Fixtures.hello) < 7 ->
       n = Z.of_nat (length Fixtures.hello) /\ err = Some ErrUnexpectedEOF) /\
    (7 <= Z.of_nat (length Fixtures.hello) ->
       7 <= n <= Z.of_nat (length Fixtures.hello) /\ n <= len (make 7) /\ err = None).
Proof.
  destruct (ReadAtLeast_spec (Fixtures.chunkReader 2) Fixtures.hello (make 7) 7)
    as (_ & _ & _ & H & _).
  apply (H Fixtures.hello).
  - apply chunkRead_Yields. lia.
  - vm_compute. discriminate.
  - vm_compute. discriminate.
Defined.

(* ================================================================= *)
(** * Further properties of the package *)

(** ** Sources that end with a status other than EOF *)

Lemma Yields_YieldsUntil (S : Type) (rd : ReadFn S) (s : S) (bs : list byte) :
  Yields rd s bs -> YieldsUntil rd EOF s bs.
Proof.
  induction 1 as [s bs Hread _ IH]. constructor.
  - exact Hread.
  - exact IH.
Qed.

Section CopyLoopUntil.

Variables S W : Type.
Variable rd : ReadFn S.
Variable wr : WriteFn W.
Variable view : W -> list byte.
Hypothesis wr_accepts : Accepts wr view.

(** The staging loop over a source that delivers [bs] and then reports
    [e]: all of [bs] reaches the sink, and the loop returns the status,
    [nil] in the place of [EOF]. *)
Lemma copyLoop_YieldsUntil (e : error) (s : S) (bs : list byte) :
  YieldsUntil rd e s bs ->
  forall (w : W) (buf : slice) (written : Z),
    0 < len buf ->
    0 <= written ->
    written + Z.of_nat (length bs) <= maxint64 ->
    exists fuel0 s' w',
      view w' = view w ++ bs /\
      forall fuel, (fuel0 <= fuel)%nat ->
        copyLoop fuel rd wr (s, w, buf, written)
          = Ret (written + Z.of_nat (length bs),
                 if is_EOF e then None else Some e, s', w').
Proof.
  induction 1 as [s bs Hread _ IH]. intros w buf written Hbuf Hw Hmax.
  destruct (Hread buf Hbuf) as (n & data & err & s1 & Hrd & Hn & HnL & Hpre & Herr).
  destruct (@copyIter_delivers S W rd wr view wr_accepts s s1 w buf written n data err
              Hrd Hn)
    as (w1 & Hview & Hiter).
  { unfold is_int64, minint64, maxint64 in *. lia. }
  assert (Hsplit : bs = firstn (Z.to_nat n) bs ++ skipn (Z.to_nat n) bs)
    by (symmetry; apply firstn_skipn).
  destruct Herr as [-> | [-> HnL']].
  - destruct (IH buf n data s1 Hbuf Hrd w1 (store data buf) (written + n))
      as (fuel0 & s' & w' & Hview' & Hrun).
    + rewrite len_store. exact Hbuf.
    + lia.
    + rewrite length_skipn. lia.
    + exists (Datatypes.S fuel0), s', w'. split.
      * rewrite Hview', Hview, Hpre, <- app_assoc, <- Hsplit. reflexivity.
      * intros fuel Hfuel. destruct fuel as [| fuel]; [lia |].
        cbn [copyLoop]. rewrite Hiter. cbv beta iota delta [bind].
        rewrite Hrun by lia. rewrite length_skipn. do 4 f_equal. lia.
  - exists 1%nat, s1, w1. split.
    + rewrite Hview, Hpre. f_equal. apply firstn_all2. lia.
    + intros fuel Hfuel. destruct fuel as [| fuel]; [lia |].
      cbn [copyLoop]. rewrite Hiter. cbv beta iota delta [bind].
      rewrite HnL'. reflexivity.
Qed.

End CopyLoopUntil.

Lemma endingRead_YieldsUntil (e : error) (k : Z) :
  0 < k -> forall s, YieldsUntil (MoreFixtures.endingRead e k) e s s.
Proof.
  intros Hk s.
  remember (length s) as m eqn:Hm.
  assert (Hle : (length s <= m)%nat) by lia. clear Hm.
  revert s Hle. induction m as [| m IH]; intros s Hle.
  - destruct s; [| cbn in Hle; lia].
    constructor.
    + intros p Hp. exists 0, [], (Some e), []. cbn.
      repeat split; try lia. right. split; reflexivity.
    + intros p n data s' _ E. cbn in E. discriminate E.
  - destruct s as [| b s].
    { constructor.
      - intros p Hp. exists 0, [], (Some e), []. cbn.
        repeat split; try lia. right. split; reflexivity.
      - intros p n data s' _ E. cbn in E. discriminate E. }
    constructor.
    + intros p Hp.
      set (n := Z.min (Z.min k (len p)) (Z.of_nat (length (b :: s)))).
      exists n, (firstn (Z.to_nat n) (b :: s)), None, (skipn (Z.to_nat n) (b :: s)).
      assert (Hn : 0 < n <= len p) by (subst n; cbn [length]; lia).
      assert (HnL : n <= Z.of_nat (length (b :: s))) by (subst n; lia).
      split; [reflexivity |]. split; [lia |]. split; [exact HnL |].
      split; [| left; reflexivity].
      assert (Hlen : length (firstn (Z.to_nat n) (b :: s)) = Z.to_nat n)
        by (rewrite length_firstn; lia).
      rewrite <- Hlen at 1. rewrite firstn_store_data by lia.
      reflexivity.
    + intros p n data s' Hp E. unfold MoreFixtures.endingRead in E.
      injection E as <- _ <-.
      apply IH. rewrite length_skipn. cbn [length] in *. lia.
Qed.

(* ----------------------------------------------------------------- *)
(** ** Copy and CopyBuffer on the staging path *)

(** X1: [Copy] over a source without [WriteTo] and a sink without
    [ReadFrom]: when the source delivers [bs] and then fails with [e],
    an accepting sink receives all of [bs] and [Copy] returns
    [(len(bs), e)]; only [EOF] is turned into [nil]. *)
Theorem Copy_propagates_source_failure (S W : Type) (dst : Writer W) (src : Reader S)
    (view : W -> list byte) (e : error) (s : S) (w : W) (bs : list byte) :
  WriteTo src = None ->
  ReadFrom dst = None ->
  YieldsUntil (Read src) e s bs ->
  Accepts (Write dst) view ->
  Z.of_nat (length bs) <= maxint64 ->
  exists fuel0 s' w',
    view w' = view w ++ bs /\
    forall fuel, (fuel0 <= fuel)%nat ->
      Copy fuel dst src w s
        = Ret (Z.of_nat (length bs), if is_EOF e then None else Some e, s', w').
Proof.
  intros Hwt Hrf Hsrc Hdst HL. unfold Copy, copyBuffer. rewrite Hwt, Hrf.
  pose proof (staging_size_pos (asLimitedReader src s)) as Hsize. cbv zeta.
  destruct (@copyLoop_YieldsUntil S W (Read src) (Write dst) view Hdst e s bs Hsrc w
              (make match asLimitedReader src s with
                    | Some n => if n <? 32 * 1024 then (if n <? 1 then 1 else n)
                                else 32 * 1024
                    | None => 32 * 1024
                    end) 0)
    as (fuel0 & s' & w' & Hview & Hrun).
  - rewrite len_make; lia.
  - lia.
  - lia.
  - exists fuel0, s', w'. split; [exact Hview |].
    intros fuel Hfuel. rewrite (Hrun fuel Hfuel). reflexivity.
Qed.

Lemma Copy_propagates_source_failure_witness :
  exists fuel0 s' w',
    w' = [x21] ++ Fixtures.hello /\
    forall fuel, (fuel0 <= fuel)%nat ->
      Copy fuel Fixtures.bufferWriter (MoreFixtures.endingReader ErrNoProgress 2)
           [x21] Fixtures.hello
        = Ret (5, Some ErrNoProgress, s', w').
Proof.
  apply (@Copy_propagates_source_failure _ _ Fixtures.bufferWriter
           (MoreFixtures.endingReader ErrNoProgress 2) (fun w => w) ErrNoProgress
           Fixtures.hello [x21] Fixtures.hello).
  - reflexivity.
  - reflexivity.
  - apply endingRead_YieldsUntil. lia.
  - apply bufferWrite_Accepts.
  - vm_compute. discriminate.
Defined.

(** X2: [CopyBuffer] panics on a buffer that is not [nil] and has
    length 0, whatever the source and the sink; with any non-empty
    buffer, on the staging path, it transfers the whole content of the
    source and returns [(len(bs), nil)]: the size of the caller's buffer
    does not show in the result. *)
Theorem CopyBuffer_any_buffer (S W : Type) (dst : Writer W) (src : Reader S)
    (view : W -> list byte) (s : S) (w : W) (bs : list byte) (buf : slice) :
  (len buf = 0 ->
     forall fuel, CopyBuffer fuel dst src w s (Some buf)
                  = Panic "empty buffer in CopyBuffer") /\
  (0 < len buf ->
     WriteTo src = None ->
     ReadFrom dst = None ->
     Yields (Read src) s bs ->
     Accepts (Write dst) view ->
     Z.of_nat (length bs) <= maxint64 ->
     exists fuel0 s' w',
       view w' = view w ++ bs /\
       forall fuel, (fuel0 <= fuel)%nat ->
         CopyBuffer fuel dst src w s (Some buf)
           = Ret (Z.of_nat (length bs), None, s', w')).
Proof.
  split.
  - intros Hz fuel. unfold CopyBuffer. rewrite Hz. reflexivity.
  - intros Hpos Hwt Hrf Hsrc Hdst HL.
    destruct (@copyLoop_Yields S W (Read src) (Write dst) view Hdst s bs Hsrc w buf 0
                Hpos ltac:(lia) ltac:(lia))
      as (fuel0 & s' & w' & Hview & Hrun).
    exists fuel0, s', w'. split; [exact Hview |].
    intros fuel Hfuel. unfold CopyBuffer.
    destruct (Z.eqb_spec (len buf) 0); [lia |].
    unfold copyBuffer. rewrite Hwt, Hrf. rewrite (Hrun fuel Hfuel). reflexivity.
Qed.

Lemma CopyBuffer_any_buffer_witness :
  exists fuel0 s' w',
    w' = [] ++ Fixtures.hello /\
    forall fuel, (fuel0 <= fuel)%nat ->
      CopyBuffer fuel Fixtures.bufferWriter (Fixtures.chunkReader 4) [] Fixtures.hello
                 (Some (make 3))
        = Ret (5, None, s', w').
Proof.
  apply (proj2 (@CopyBuffer_any_buffer _ _ Fixtures.bufferWriter (Fixtures.chunkReader 4)
                  (fun w => w) Fixtures.hello [] Fixtures.hello (make 3))).
  - vm_compute. reflexivity.
  - reflexivity.
  - reflexivity.
  - apply chunkRead_Yields. lia.
  - apply bufferWrite_Accepts.
  - vm_compute. discriminate.
Defined.

(** X3: the staging loop never reports [EOF] on its own account: when
    the sink's writes never fail with [EOF], a failure returned by the
    loop is not [EOF]. *)
Theorem copyLoop_never_EOF (S W : Type) (rd : ReadFn S) (wr : WriteFn W) (fuel : nat) :
  (forall w p nw e w', wr w p = Ret (nw, Some e, w') -> e <> EOF) ->
  forall st n e s' w',
    copyLoop fuel rd wr st = Ret (n, Some e, s', w') -> e <> EOF.
Proof.
  intros Hwr. induction fuel as [| fuel IH]; intros st n e s' w' E.
  - discriminate E.
  - cbn [copyLoop] in E. destruct st as [[[s w] buf] written].
    unfold copyIter in E.
    destruct (rd s buf) as [[[[nr data] er] s1] | |]; try discriminate E.
    cbv beta iota zeta delta [bind] in E.
    assert (Htail : forall w0 written0,
               match match er with
                     | Some e0 => Break (written0, if is_EOF e0 then None else Some e0, s1, w0)
                     | None => Continue (s1, w0, store data buf, written0)
                     end with
               | Continue st0 => copyLoop fuel rd wr st0
               | Break res => Ret res
               end = Ret (n, Some e, s', w') -> e <> EOF).
    { intros w0 written0 E0. destruct er as [e0 |].
      - destruct e0; cbn in E0; try discriminate E0;
          injection E0 as _ <- _ _; discriminate.
      - apply (IH _ _ _ _ _ E0). }
    destruct (0 <? nr).
    + destruct (slice_to (store data buf) nr) as [chunk | |]; try discriminate E.
      cbv beta iota delta [bind] in E.
      destruct (wr w (elems chunk)) as [[[nw ew] w1] | |] eqn:Ew; try discriminate E.
      cbv beta iota delta [bind] in E.
      destruct ((nw <? 0) || (nr <? nw)).
      * destruct ew as [e0 |]; cbn in E.
        -- injection E as _ <- _ _. apply (Hwr _ _ _ _ _ Ew).
        -- injection E as _ <- _ _. discriminate.
      * destruct ew as [e0 |]; cbn in E.
        -- injection E as _ <- _ _. apply (Hwr _ _ _ _ _ Ew).
        -- destruct (negb (nr =? nw)); cbn in E.
           ++ injection E as _ <- _ _. discriminate.
           ++ apply (Htail _ _ E).
    + cbn in E. apply (Htail _ _ E).
Qed.

Lemma copyLoop_never_EOF_witness :
  copyLoop 3 (Fixtures.chunkRead 2) Fixtures.shortWrite (Fixtures.hello, [], make 4, 0)
    = Ret (1, Some ErrShortWrite, skipn 2 Fixtures.hello, [x68]) /\
  ErrShortWrite <> EOF.
Proof.
  assert (E : copyLoop 3 (Fixtures.chunkRead 2) Fixtures.shortWrite
                (Fixtures.hello, [], make 4, 0)
              = Ret (1, Some ErrShortWrite, skipn 2 Fixtures.hello, [x68]))
    by (vm_compute; reflexivity).
  split; [exact E |].
  refine (@copyLoop_never_EOF _ _ (Fixtures.chunkRead 2) Fixtures.shortWrite 3 _
            _ _ _ _ _ E).
  intros w p nw e w' Ew. unfold Fixtures.shortWrite in Ew. discriminate Ew.
Defined.

(* ----------------------------------------------------------------- *)
(** ** discard *)

Lemma readFromLoop_YieldsUntil (S : Type) (rd : ReadFn S) (e : error) (s : S)
    (bs : list byte) :
  YieldsUntil rd e s bs ->
  forall (bufp : slice) (n : Z),
    0 < len bufp ->
    0 <= n ->
    n + Z.of_nat (length bs) <= maxint64 ->
    exists fuel0 s',
      forall fuel, (fuel0 <= fuel)%nat ->
        discard.readFromLoop fuel rd s bufp n
          = Ret (n + Z.of_nat (length bs), if is_EOF e then None else Some e, s', tt).
Proof.
  induction 1 as [s bs Hread _ IH]. intros bufp n Hbuf Hn Hmax.
  destruct (Hread bufp Hbuf) as (k & data & err & s1 & Hrd & Hk & HkL & _ & Herr).
  assert (Hw : wrap64 (n + k) = n + k).
  { apply wrap64_id. unfold is_int64, minint64, maxint64 in *. lia. }
  destruct Herr as [-> | [-> HkL']].
  - destruct (IH bufp k data s1 Hbuf Hrd (store data bufp) (n + k))
      as (fuel0 & s' & Hrun).
    + rewrite len_store. exact Hbuf.
    + lia.
    + rewrite length_skipn. lia.
    + exists (Datatypes.S fuel0), s'.
      intros fuel Hfuel. destruct fuel as [| fuel]; [lia |].
      cbn [discard.readFromLoop]. rewrite Hrd. cbv beta iota zeta delta [bind].
      rewrite Hw, Hrun by lia. rewrite length_skipn. do 4 f_equal. lia.
  - exists 1%nat, s1.
    intros fuel Hfuel. destruct fuel as [| fuel]; [lia |].
    cbn [discard.readFromLoop]. rewrite Hrd. cbv beta iota zeta delta [bind].
    rewrite Hw, HkL'. reflexivity.
Qed.

(** X4: [Copy] into [Discard] from a source without [WriteTo] is the
    sink's [ReadFrom], not the staging loop: for every such source and
    every amount of fuel the two calls have the same outcome, and a
    source that reports the length of the buffer it is handed sees the
    8192 bytes of the pooled buffer.  For a source that delivers [bs]
    and then reports [e], [Copy] returns [(len(bs), e)], with [nil] in
    the place of [EOF], for every amount of fuel from some bound on. *)
Theorem Copy_to_Discard (S : Type) (src : Reader S) (e : error) (s : S)
    (bs : list byte) :
  WriteTo src = None ->
  (forall fuel, Copy fuel Discard src tt s = discard.ReadFrom fuel (Read src) tt s) /\
  Copy 1 Discard BulkFixtures.probeReader tt tt = Ret (8192, None, tt, tt) /\
  (YieldsUntil (Read src) e s bs ->
   Z.of_nat (length bs) <= maxint64 ->
   exists fuel0 s',
     forall fuel, (fuel0 <= fuel)%nat ->
       Copy fuel Discard src tt s
         = Ret (Z.of_nat (length bs), if is_EOF e then None else Some e, s', tt)).
Proof.
  intros Hwt.
  assert (Hpath : forall fuel,
             Copy fuel Discard src tt s = discard.ReadFrom fuel (Read src) tt s).
  { intros fuel. unfold Copy, copyBuffer. rewrite Hwt. reflexivity. }
  split; [exact Hpath |]. split; [vm_compute; reflexivity |].
  intros Hsrc HL.
  destruct (@readFromLoop_YieldsUntil S (Read src) e s bs Hsrc (make 8192) 0)
    as (fuel0 & s' & Hrun).
  - rewrite len_make; lia.
  - lia.
  - lia.
  - exists fuel0, s'. intros fuel Hfuel.
    rewrite Hpath. unfold discard.ReadFrom.
    rewrite (Hrun fuel Hfuel). reflexivity.
Qed.

Lemma Copy_to_Discard_witness :
  (forall fuel,
     Copy fuel Discard (Fixtures.chunkReader 2) tt Fixtures.hello
       = discard.ReadFrom fuel (Fixtures.chunkRead 2) tt Fixtures.hello) /\
  exists fuel0 s',
    forall fuel, (fuel0 <= fuel)%nat ->
      Copy fuel Discard (Fixtures.chunkReader 2) tt Fixtures.hello
        = Ret (5, None, s', tt).
Proof.
  destruct (@Copy_to_Discard _ (Fixtures.chunkReader 2) EOF Fixtures.hello Fixtures.hello
              eq_refl) as (Hpath & _ & Hrun).
  split; [exact Hpath |].
  apply Hrun.
  - apply Yields_YieldsUntil. apply chunkRead_Yields. lia.
  - vm_compute. discriminate.
Defined.

Lemma readFromLoop_never_EOF (S : Type) (rd : ReadFn S) (fuel : nat) :
  forall s bufp n0 n e s' u,
    discard.readFromLoop fuel rd s bufp n0 = Ret (n, Some e, s', u) -> e <> EOF.
Proof.
  induction fuel as [| fuel IH]; intros s bufp n0 n e s' u E.
  - discriminate E.
  - cbn [discard.readFromLoop] in E.
    destruct (rd s bufp) as [[[[k data] err] s1] | |]; try discriminate E.
    cbv beta iota zeta delta [bind] in E.
    destruct err as [e0 |].
    + destruct e0; cbn in E; try discriminate E; injection E as _ <- _ _; discriminate.
    + apply (IH _ _ _ _ _ _ _ E).
Qed.

(** X5: [discard.ReadFrom] never returns [EOF]: whatever the source
    does, a failure it returns is a failure of the source other than
    [EOF]. *)
Theorem discard_ReadFrom_never_EOF (S : Type) (rd : ReadFn S) (fuel : nat)
    (s s' : S) (u u' : unit) (n : Z) (e : error) :
  discard.ReadFrom fuel rd u s = Ret (n, Some e, s', u') -> e <> EOF.
Proof.
  unfold discard.ReadFrom. intros E.
  apply (@readFromLoop_never_EOF _ _ _ _ _ _ _ _ _ _ E).
Qed.

Lemma discard_ReadFrom_never_EOF_witness :
  discard.ReadFrom 1%nat (Fixtures.failingRead ErrNoProgress) tt Fixtures.hello
    = Ret (5, Some ErrNoProgress, [], tt) /\
  ErrNoProgress <> EOF.
Proof.
  assert (E : discard.ReadFrom 1%nat (Fixtures.failingRead ErrNoProgress)
                tt Fixtures.hello
              = Ret (5, Some ErrNoProgress, [], tt)) by (vm_compute; reflexivity).
  split; [exact E |].
  exact (@discard_ReadFrom_never_EOF _ _ _ _ _ _ _ _ _ E).
Defined.

(* ----------------------------------------------------------------- *)
(** ** ReadAll *)

(** [b[:len(b)+k]] on a slice with elements [A] and spare bytes [E]. *)
Lemma slice_to_extend (A E : list byte) (k : Z) :
  0 <= k <= Z.of_nat (length E) ->
  slice_to (Slice A E) (Z.of_nat (length A) + k)
    = Ret (Slice (A ++ firstn (Z.to_nat k) E) (skipn (Z.to_nat k) E)).
Proof.
  intros Hk. unfold slice_to, cap, backing. cbn [elems spare].
  rewrite length_app.
  destruct (Z.leb_spec 0 (Z.of_nat (length A) + k)); [| lia].
  destruct (Z.leb_spec (Z.of_nat (length A) + k) (Z.of_nat (length A + length E)));
    [| lia].
  cbn [andb].
  replace (Z.to_nat (Z.of_nat (length A) + k)) with (length A + Z.to_nat k)%nat by lia.
  rewrite firstn_app_2, skipn_app, skipn_all2 by lia.
  replace (length A + Z.to_nat k - length A)%nat with (Z.to_nat k) by lia.
  reflexivity.
Qed.

Section ReadAllLoop.

Variable S : Type.
Variable rd : ReadFn S.
Variable newcap : Z -> Z.
Hypothesis newcap_grows : forall c, 0 <= c -> c < newcap c.

(** Before each read the loop has room: the slice it hands to the
    source is not empty. *)
Lemma readAll_room (b : slice) :
  let b0 := if len b =? cap b then grow newcap b else b in
  elems b0 = elems b /\ 0 < Z.of_nat (length (spare b0)).
Proof.
  cbv zeta. unfold cap, backing, len. rewrite length_app.
  destruct (Z.eqb_spec (Z.of_nat (length (elems b)))
                       (Z.of_nat (length (elems b) + length (spare b)))) as [Hfull | Hroom].
  - unfold grow. cbn [elems spare]. split; [reflexivity |].
    rewrite repeat_length.
    assert (Hc : cap b = len b) by (unfold cap, backing, len; rewrite length_app; lia).
    pose proof (newcap_grows (c := cap b)) as Hg.
    unfold cap, backing, len in *. rewrite length_app in *. lia.
  - split; [reflexivity | lia].
Qed.

Lemma readAllLoop_YieldsUntil (e : error) (s : S) (bs : list byte) :
  YieldsUntil rd e s bs ->
  forall b : slice,
    len b + Z.of_nat (length bs) <= maxint64 ->
    exists fuel0 s' b',
      elems b' = elems b ++ bs /\
      forall fuel, (fuel0 <= fuel)%nat ->
        readAllLoop newcap fuel rd (s, b)
          = Ret (b', if is_EOF e then None else Some e, s').
Proof.
  induction 1 as [s bs Hread _ IH]. intros b Hmax.
  destruct (readAll_room b) as [Hel Hroom].
  set (b0 := if len b =? cap b then grow newcap b else b) in *.
  set (p := Slice (spare b0) []).
  assert (Hp : 0 < len p) by (unfold len, p; cbn [elems]; exact Hroom).
  destruct (Hread p Hp) as (k & data & err & s1 & Hrd & Hk & HkL & Hpre & Herr).
  assert (Hw : wrap64 (len b0 + k) = Z.of_nat (length (elems b)) + k).
  { unfold len. rewrite Hel. apply wrap64_id.
    unfold len in Hmax. unfold is_int64, minint64, maxint64 in *. lia. }
  assert (Hsl : slice_to (Slice (elems b0) (elems (store data p))) (wrap64 (len b0 + k))
                = Ret (Slice (elems b ++ firstn (Z.to_nat k) bs)
                             (skipn (Z.to_nat k) (elems (store data p))))).
  { rewrite Hw, Hel, slice_to_extend.
    - rewrite Hpre. reflexivity.
    - pose proof (len_store data p) as E. unfold len in E, Hk. lia. }
  assert (Hiter : readAllIter newcap rd (s, b)
                  = Ret (match err with
                         | Some e0 =>
                             Break (Slice (elems b ++ firstn (Z.to_nat k) bs)
                                          (skipn (Z.to_nat k) (elems (store data p))),
                                    if is_EOF e0 then None else Some e0, s1)
                         | None =>
                             Continue (s1, Slice (elems b ++ firstn (Z.to_nat k) bs)
                                                 (skipn (Z.to_nat k) (elems (store data p))))
                         end)).
  { unfold readAllIter. fold b0. cbv zeta. fold p. rewrite Hrd.
    cbv beta iota delta [bind]. rewrite Hsl. destruct err; reflexivity. }
  destruct Herr as [-> | [-> HkL']].
  - destruct (IH p k data s1 Hp Hrd
                (Slice (elems b ++ firstn (Z.to_nat k) bs)
                       (skipn (Z.to_nat k) (elems (store data p)))))
      as (fuel0 & s' & b' & Hb' & Hrun).
    + unfold len in *. cbn [elems]. rewrite length_app, length_firstn, length_skipn. lia.
    + exists (Datatypes.S fuel0), s', b'. split.
      * rewrite Hb'. cbn [elems]. rewrite <- app_assoc, firstn_skipn. reflexivity.
      * intros fuel Hfuel. destruct fuel as [| fuel]; [lia |].
        cbn [readAllLoop]. rewrite Hiter. cbv beta iota delta [bind].
        apply Hrun. lia.
  - exists 1%nat, s1,
      (Slice (elems b ++ bs) (skipn (Z.to_nat k) (elems (store data p)))).
    split.
    + reflexivity.
    + intros fuel Hfuel. destruct fuel as [| fuel]; [lia |].
      cbn [readAllLoop]. rewrite Hiter. cbv beta iota delta [bind].
      rewrite firstn_all2 by lia. reflexivity.
Qed.

Lemma readAllLoop_never_EOF (fuel : nat) :
  forall st b e s',
    readAllLoop newcap fuel rd st = Ret (b, Some e, s') -> e <> EOF.
Proof.
  induction fuel as [| fuel IH]; intros [s b0] b e s' E.
  - discriminate E.
  - cbn [readAllLoop] in E. unfold readAllIter in E. cbv zeta in E.
    destruct (rd s _) as [[[[k data] err] s1] | |]; try discriminate E.
    cbv beta iota delta [bind] in E.
    destruct (slice_to _ _) as [b1 | |]; try discriminate E.
    cbv beta iota delta [bind] in E.
    destruct err as [e0 |].
    + destruct e0; cbn in E; try discriminate E; injection E as _ <- _; discriminate.
    + apply (IH _ _ _ _ E).
Qed.

End ReadAllLoop.

(** X6: [ReadAll], whatever capacity [append] picks when the buffer is
    full (as long as it grows): over a source that delivers [bs] and
    then reports [e], it returns exactly the bytes [bs] together with
    [e], and with [nil] when [e] is [EOF], for every amount of fuel from
    some bound on. *)
Theorem ReadAll_returns_content (S : Type) (newcap : Z -> Z) (r : Reader S)
    (e : error) (s : S) (bs : list byte) :
  (forall c, 0 <= c -> c < newcap c) ->
  YieldsUntil (Read r) e s bs ->
  Z.of_nat (length bs) <= maxint64 ->
  exists fuel0 s' b',
    elems b' = bs /\
    forall fuel, (fuel0 <= fuel)%nat ->
      ReadAll newcap fuel r s = Ret (b', if is_EOF e then None else Some e, s').
Proof.
  intros Hgrow Hsrc HL.
  destruct (@readAllLoop_YieldsUntil S (Read r) newcap Hgrow e s bs Hsrc
              (Slice [] (repeat x00 512)))
    as (fuel0 & s' & b' & Hb' & Hrun).
  - unfold len. cbn [elems length]. lia.
  - exists fuel0, s', b'. split; [exact Hb' |]. exact Hrun.
Qed.

Lemma ReadAll_returns_content_witness :
  exists fuel0 s' b',
    elems b' = Fixtures.hello /\
    forall fuel, (fuel0 <= fuel)%nat ->
      ReadAll (fun c => 2 * c + 1) fuel (MoreFixtures.endingReader ErrNoProgress 2)
              Fixtures.hello
        = Ret (b', Some ErrNoProgress, s').
Proof.
  apply (@ReadAll_returns_content _ (fun c => 2 * c + 1)
           (MoreFixtures.endingReader ErrNoProgress 2) ErrNoProgress
           Fixtures.hello Fixtures.hello).
  - intros c Hc. lia.
  - apply endingRead_YieldsUntil. lia.
  - vm_compute. discriminate.
Defined.

(** X7: [ReadAll] never returns [EOF], whatever the source does and
    whatever capacity [append] picks. *)
Theorem ReadAll_never_EOF (S : Type) (newcap : Z -> Z) (r : Reader S) (fuel : nat)
    (s s' : S) (b : slice) (e : error) :
  ReadAll newcap fuel r s = Ret (b, Some e, s') -> e <> EOF.
Proof.
  unfold ReadAll. intros E.
  apply (@readAllLoop_never_EOF _ _ _ _ _ _ _ _ E).
Qed.

Lemma ReadAll_never_EOF_witness :
  ReadAll (fun c => 2 * c + 1) 1 (Fixtures.failingReader ErrNoProgress) Fixtures.hello
    = Ret (Slice Fixtures.hello (repeat x00 507), Some ErrNoProgress, []) /\
  ErrNoProgress <> EOF.
Proof.
  assert (E : ReadAll (fun c => 2 * c + 1) 1 (Fixtures.failingReader ErrNoProgress)
                Fixtures.hello
              = Ret (Slice Fixtures.hello (repeat x00 507), Some ErrNoProgress, []))
    by (vm_compute; reflexivity).
  split; [exact E |].
  exact (@ReadAll_never_EOF _ _ _ _ _ _ _ _ E).
Defined.

(* ----------------------------------------------------------------- *)
(** ** ReadAtLeast stays inside the buffer *)

Lemma readLoop_within (S : Type) (rd : ReadFn S) (min : Z) :
  CountsWithin rd ->
  forall (fuel : nat) (s : S) (buf : slice) (n : Z) (err : option error),
    min <= len buf -> len buf <= maxint64 -> 0 <= n <= len buf ->
    match readLoop fuel rd s buf min n err with
    | Ret (n', _, _, buf') => n <= n' <= len buf /\ len buf' = len buf
    | Panic _ => False
    | OutOfFuel => True
    end.
Proof.
  intros Hrd. induction fuel as [| fuel IH]; intros s buf n err Hmin Hmax Hn;
    rewrite readLoop_eq;
    destruct ((n <? min) && match err with None => true | Some _ => false end) eqn:C;
    try (split; [lia | reflexivity]).
  - exact I.
  - destruct (@slice_from_within buf n Hn) as (p & Hp & _ & _ & Hlen).
    rewrite Hp. cbv beta iota delta [bind].
    destruct (Hrd s p) as (k & data & e1 & s1 & Hcall & Hk).
    rewrite Hcall.
    rewrite wrap64_id by (unfold is_int64, minint64, maxint64 in *; lia).
    specialize (IH s1 (store_from data buf n) (n + k) e1).
    rewrite len_store_from in IH.
    specialize (IH Hmin Hmax ltac:(lia)).
    destruct (readLoop fuel rd s1 (store_from data buf n) min (n + k) e1)
      as [[[[n' e'] s'] buf'] | |]; trivial.
    destruct IH as [IH1 IH2]. split; [lia | exact IH2].
Qed.

(** X8: over a reader whose counts are between 0 and the length it was
    asked for, [ReadAtLeast] never panics, and when it returns, its count
    is between 0 and [len(buf)] and the buffer has kept its length. *)
Theorem ReadAtLeast_stays_in_buffer (S : Type) (r : Reader S) (s : S) (buf : slice)
    (min : Z) (fuel : nat) :
  CountsWithin (Read r) ->
  len buf <= maxint64 ->
  match ReadAtLeast fuel r s buf min with
  | Ret (n, _, _, buf') => 0 <= n <= len buf /\ len buf' = len buf
  | Panic _ => False
  | OutOfFuel => True
  end.
Proof.
  intros Hrd Hmax. unfold ReadAtLeast. pose proof (len_nonneg buf) as Hnn.
  destruct (Z.ltb_spec (len buf) min) as [Hshort | Hfit].
  - split; [lia | reflexivity].
  - pose proof (@readLoop_within S (Read r) min Hrd fuel s buf 0 None Hfit Hmax
                  ltac:(lia)) as H.
    destruct (readLoop fuel (Read r) s buf min 0 None) as [[[[n e] s'] buf'] | |];
      cbv beta iota delta [bind]; exact H.
Qed.

Lemma ReadAtLeast_stays_in_buffer_witness :
  match ReadAtLeast 5 (Fixtures.chunkReader 2) Fixtures.hello (make 4) 3 with
  | Ret (n, _, _, buf') => 0 <= n <= len (make 4) /\ len buf' = len (make 4)
  | Panic _ => False
  | OutOfFuel => True
  end.
Proof.
  apply (@ReadAtLeast_stays_in_buffer _ (Fixtures.chunkReader 2) Fixtures.hello
           (make 4) 3 5).
  - apply chunkRead_CountsWithin. lia.
  - vm_compute. discriminate.
Defined.

(* ----------------------------------------------------------------- *)
(** ** OffsetWriter *)

(** X9: [OffsetWriter.Seek] on a writer whose cursor is at or after its
    base: any [whence] other than [SeekStart] and [SeekCurrent], [SeekEnd]
    included, is refused with [errWhence]; a refused call leaves the
    writer as it is; every call leaves the base and the underlying writer
    as they are and the cursor at or after the base; a successful call
    returns the new cursor relative to the base. *)
Theorem OffsetWriter_Seek_spec (W : Type) (o : OffsetWriter.t W) (offset whence : Z) :
  OffsetWriter.base o <= OffsetWriter.off o ->
  let '(pos, err, o') := OffsetWriter.Seek o offset whence in
  OffsetWriter.base o' = OffsetWriter.base o /\
  OffsetWriter.w o' = OffsetWriter.w o /\
  OffsetWriter.base o' <= OffsetWriter.off o' /\
  (whence <> SeekStart -> whence <> SeekCurrent -> err = Some errWhence) /\
  (err <> None -> pos = 0 /\ o' = o) /\
  (err = None -> pos = wrap64 (OffsetWriter.off o' - OffsetWriter.base o)).
Proof.
  intros Hinv. unfold OffsetWriter.Seek.
  destruct (Z.eqb_spec whence SeekStart) as [Hs | Hs];
    [| destruct (Z.eqb_spec whence SeekCurrent) as [Hc | Hc]].
  - destruct (Z.ltb_spec (wrap64 (offset + OffsetWriter.base o)) (OffsetWriter.base o));
      cbn [OffsetWriter.base OffsetWriter.off OffsetWriter.w];
      repeat split; trivial; try lia; try contradiction; try discriminate;
      intros H'; contradiction.
  - destruct (Z.ltb_spec (wrap64 (offset + OffsetWriter.off o)) (OffsetWriter.base o));
      cbn [OffsetWriter.base OffsetWriter.off OffsetWriter.w];
      repeat split; trivial; try lia; try contradiction; try discriminate;
      intros H'; contradiction.
  - repeat split; trivial; discriminate.
Qed.

Lemma OffsetWriter_Seek_spec_witness :
  OffsetWriter.Seek (OffsetWriter.New tt 10) 0 SeekEnd
    = (0, Some errWhence, OffsetWriter.New tt 10).
Proof.
  assert (Hinv : OffsetWriter.base (OffsetWriter.New tt 10)
                 <= OffsetWriter.off (OffsetWriter.New tt 10)) by (vm_compute; discriminate).
  pose proof (OffsetWriter_Seek_spec (OffsetWriter.New tt 10) 0 SeekEnd Hinv) as H.
  destruct (OffsetWriter.Seek (OffsetWriter.New tt 10) 0 SeekEnd) as [[pos err] o'].
  destruct H as (_ & _ & _ & Hw & Hfail & _).
  assert (E : err = Some errWhence) by (apply Hw; vm_compute; discriminate).
  subst err. destruct Hfail as [-> ->]; [discriminate | reflexivity].
Defined.

Lemma totalLength_nonneg (ps : list (list byte)) : 0 <= totalLength ps.
Proof.
  unfold totalLength. induction ps as [| p ps IH]; cbn [fold_right]; lia.
Qed.

Lemma offsetWrites_landings (W : Type) (wa : WriteAtFn W)
    (log : W -> list (Z * list byte)) :
  RecordsAt wa log ->
  forall (ps : list (list byte)) (o : OffsetWriter.t W),
    is_int64 (OffsetWriter.off o) ->
    OffsetWriter.off o + totalLength ps <= maxint64 ->
    exists o',
      offsetWrites wa o ps = Ret (totalLength ps, o') /\
      log (OffsetWriter.w o')
        = log (OffsetWriter.w o) ++ landings (OffsetWriter.off o) ps /\
      OffsetWriter.off o' = OffsetWriter.off o + totalLength ps /\
      OffsetWriter.base o' = OffsetWriter.base o.
Proof.
  intros Hwa ps. induction ps as [| p ps IH]; intros o Hoff Hmax.
  - exists o. cbn. rewrite app_nil_r. repeat split; lia.
  - cbn [offsetWrites landings totalLength fold_right] in *.
    fold (totalLength ps) in *. pose proof (totalLength_nonneg ps) as Hnn.
    unfold OffsetWriter.Write.
    destruct (Hwa (OffsetWriter.w o) p (OffsetWriter.off o)) as (w' & Hcall & Hlog).
    rewrite Hcall. cbv beta iota delta [bind].
    rewrite wrap64_id by (unfold is_int64, minint64, maxint64 in *; lia).
    destruct (IH (OffsetWriter.mk w' (OffsetWriter.base o)
                                  (OffsetWriter.off o + Z.of_nat (length p))))
      as (o' & Hrun & Hlog' & Hoff' & Hbase').
    + cbn [OffsetWriter.off]. unfold is_int64, minint64, maxint64 in *. lia.
    + cbn [OffsetWriter.off]. lia.
    + cbn [OffsetWriter.off OffsetWriter.base OffsetWriter.w] in *.
      exists o'. rewrite Hrun. repeat split; trivial; try lia.
      rewrite Hlog', Hlog, <- app_assoc. reflexivity.
Qed.

(** X10: consecutive [Write] calls on an [OffsetWriter] over a
    random-access sink that takes every write whole and records it: the
    sink has received the writes one after the other, the first at the
    cursor, each next one at the offset right after the bytes of the one
    before; the calls return the number of bytes written in all;
    afterwards the cursor has advanced by that number, the base is
    unchanged, and [Seek(0, SeekCurrent)] returns the cursor relative to
    the base without moving it. *)
Theorem OffsetWriter_writes_are_contiguous (W : Type) (wa : WriteAtFn W)
    (log : W -> list (Z * list byte)) (o : OffsetWriter.t W) (ps : list (list byte)) :
  RecordsAt wa log ->
  is_int64 (OffsetWriter.off o) ->
  OffsetWriter.base o <= OffsetWriter.off o ->
  OffsetWriter.off o + totalLength ps <= maxint64 ->
  is_int64 (OffsetWriter.off o + totalLength ps - OffsetWriter.base o) ->
  exists o',
    offsetWrites wa o ps = Ret (totalLength ps, o') /\
    log (OffsetWriter.w o') = log (OffsetWriter.w o) ++ landings (OffsetWriter.off o) ps /\
    OffsetWriter.off o' = OffsetWriter.off o + totalLength ps /\
    OffsetWriter.base o' = OffsetWriter.base o /\
    OffsetWriter.Seek o' 0 SeekCurrent
      = (OffsetWriter.off o + totalLength ps - OffsetWriter.base o, None, o').
Proof.
  intros Hwa Hoff Hinv Hmax Hrel.
  destruct (offsetWrites_landings Hwa ps o Hoff Hmax)
    as (o' & Hrun & Hlog & Hoff' & Hbase').
  exists o'. repeat split; trivial.
  pose proof (totalLength_nonneg ps) as Hnn.
  unfold OffsetWriter.Seek.
  change (SeekCurrent =? SeekStart) with false.
  change (SeekCurrent =? SeekCurrent) with true. cbv iota.
  rewrite Z.add_0_l, Hoff', Hbase'.
  rewrite (wrap64_id (z := OffsetWriter.off o + totalLength ps))
    by (unfold is_int64, minint64, maxint64 in *; lia).
  destruct (Z.ltb_spec (OffsetWriter.off o + totalLength ps) (OffsetWriter.base o));
    [lia |].
  rewrite (wrap64_id Hrel). destruct o' as [w' b' f']. cbn in *. subst. reflexivity.
Qed.

(** Two writes through a writer based at 100 over an empty recording
    sink: the sink holds [hello] at 100 and the three bytes at 105, and
    the position reported afterwards is 8. *)
Lemma OffsetWriter_writes_are_contiguous_witness :
  exists o',
    offsetWrites MoreFixtures.logWriteAt (OffsetWriter.New [] 100)
                 [Fixtures.hello; [x21; x21; x21]]
      = Ret (8, o') /\
    OffsetWriter.w o' = [] ++ [(100, Fixtures.hello); (105, [x21; x21; x21])] /\
    OffsetWriter.off o' = 100 + 8 /\
    OffsetWriter.base o' = 100 /\
    OffsetWriter.Seek o' 0 SeekCurrent = (100 + 8 - 100, None, o').
Proof.
  apply (@OffsetWriter_writes_are_contiguous _ MoreFixtures.logWriteAt (fun w => w)
           (OffsetWriter.New [] 100) [Fixtures.hello; [x21; x21; x21]]).
  - intros w p off. eexists. split; reflexivity.
  - vm_compute. split; discriminate.
  - vm_compute. discriminate.
  - vm_compute. discriminate.
  - vm_compute. split; discriminate.
Defined.

(* ----------------------------------------------------------------- *)
(** ** SectionReader: the cursor and the size *)

(** X11: a sequential [Read] on a section whose cursor is inside the
    window, over a store whose counts are between 0 and the length asked
    for, never panics, asks the store for at most [limit - off] bytes,
    returns a count within that bound and within [len(p)], advances the
    cursor by the count and so never past [limit], and leaves [base] and
    [limit] as they are. *)
Theorem SectionReader_Read_stays_in_window (S : Type) (ra : ReadAtFn S)
    (s : SectionReader.t S) (p : slice) :
  CountsWithinAt ra ->
  is_int64 (SectionReader.off s) -> is_int64 (SectionReader.limit s) ->
  0 <= SectionReader.off s <= SectionReader.limit s ->
  exists n data err s',
    SectionReader.Read ra s p = Ret (n, data, err, s') /\
    0 <= n <= len p /\
    n <= SectionReader.limit s - SectionReader.off s /\
    SectionReader.off s' = SectionReader.off s + n /\
    SectionReader.off s' <= SectionReader.limit s' /\
    SectionReader.base s' = SectionReader.base s /\
    SectionReader.limit s' = SectionReader.limit s.
Proof.
  intros Hra Hoff Hlim Hin. unfold SectionReader.Read.
  pose proof (len_nonneg p) as Hnn.
  destruct (Z.leb_spec (SectionReader.limit s) (SectionReader.off s)) as [Hend | Hmore].
  - exists 0, [], (Some EOF), s. repeat split; lia.
  - cbv zeta.
    assert (Hmax : wrap64 (SectionReader.limit s - SectionReader.off s)
                   = SectionReader.limit s - SectionReader.off s).
    { apply wrap64_id. unfold is_int64, minint64, maxint64 in *. lia. }
    rewrite Hmax.
    assert (Hclamp : exists p',
               (if SectionReader.limit s - SectionReader.off s <? len p
                then slice_to p (SectionReader.limit s - SectionReader.off s)
                else Ret p) = Ret p' /\
               len p' <= len p /\
               len p' <= SectionReader.limit s - SectionReader.off s).
    { destruct (Z.ltb_spec (SectionReader.limit s - SectionReader.off s) (len p)).
      - destruct (@slice_to_within p (SectionReader.limit s - SectionReader.off s))
          as (p' & Hp' & _ & Hlen); [lia |].
        exists p'. repeat split; trivial; lia.
      - exists p. repeat split; trivial; lia. }
    destruct Hclamp as (p' & Hp' & Hle1 & Hle2). rewrite Hp'.
    cbv beta iota delta [bind].
    destruct (Hra (SectionReader.r s) p' (SectionReader.off s))
      as (n & data & err & st' & Hcall & Hn).
    rewrite Hcall.
    rewrite wrap64_id by (unfold is_int64, minint64, maxint64 in *; lia).
    eexists n, data, err, _. split; [reflexivity |].
    cbn [SectionReader.off SectionReader.limit SectionReader.base].
    repeat split; lia.
Qed.

Lemma storeReadAt_CountsWithinAt : CountsWithinAt Fixtures.storeReadAt.
Proof.
  intros st p off. unfold Fixtures.storeReadAt. pose proof (len_nonneg p) as Hnn.
  destruct (off <? 0); [eexists _, _, _, _; split; [reflexivity | lia] |].
  destruct (Z.of_nat (length st) <=? off);
    [eexists _, _, _, _; split; [reflexivity | lia] |].
  eexists _, _, _, _; split; [reflexivity | lia].
Qed.

Lemma SectionReader_Read_stays_in_window_witness :
  exists n data err s',
    SectionReader.Read Fixtures.storeReadAt (SectionReader.mk Fixtures.store100 10 13 15)
                       (make 8)
      = Ret (n, data, err, s') /\
    0 <= n <= len (make 8) /\
    n <= 15 - 13 /\
    SectionReader.off s' = 13 + n /\
    SectionReader.off s' <= SectionReader.limit s' /\
    SectionReader.base s' = 10 /\
    SectionReader.limit s' = 15.
Proof.
  apply (@SectionReader_Read_stays_in_window _ Fixtures.storeReadAt
           (SectionReader.mk Fixtures.store100 10 13 15) (make 8)).
  - apply storeReadAt_CountsWithinAt.
  - vm_compute. split; discriminate.
  - vm_compute. split; discriminate.
  - vm_compute. split; discriminate.
Defined.

(** X12: the [Size] of a new section with a non-negative length [n] is
    [n], unless [off + n] is not representable: then the limit was
    saturated and [Size] is [maxint64 - off]. *)
Theorem SectionReader_Size_of_new (S : Type) (r : S) (off n : Z) :
  is_int64 off -> is_int64 n -> 0 <= n ->
  SectionReader.Size (SectionReader.New r off n)
    = if off + n <=? maxint64 then n else maxint64 - off.
Proof.
  intros Hoff Hn Hpos. unfold SectionReader.Size, SectionReader.New.
  cbn [SectionReader.limit SectionReader.base].
  rewrite (wrap64_id (z := maxint64 - n))
    by (unfold is_int64, minint64, maxint64 in *; lia).
  destruct (Z.leb_spec off (maxint64 - n)); destruct (Z.leb_spec (off + n) maxint64);
    try lia.
  - rewrite (wrap64_id (z := n + off))
      by (unfold is_int64, minint64, maxint64 in *; lia).
    replace (n + off - off) with n by lia.
    apply wrap64_id. exact Hn.
  - apply wrap64_id. unfold is_int64, minint64, maxint64 in *. lia.
Qed.

Lemma SectionReader_Size_of_new_witness :
  SectionReader.Size (SectionReader.New tt 10 5) = 5 /\
  SectionReader.Size (SectionReader.New tt 10 maxint64) = maxint64 - 10.
Proof.
  assert (H10 : is_int64 10) by (vm_compute; split; discriminate).
  assert (H5 : is_int64 5) by (vm_compute; split; discriminate).
  assert (Hm : is_int64 maxint64) by (vm_compute; split; discriminate).
  split.
  - exact (SectionReader_Size_of_new tt H10 H5 ltac:(lia)).
  - exact (SectionReader_Size_of_new tt H10 Hm ltac:(vm_compute; discriminate)).
Defined.

(** X13: on a section whose cursor is at or after its base,
    [Seek(0, SeekCurrent)] returns the position relative to the base and
    changes nothing; and [Seek(k, SeekStart)] with [k >= 0] returns [k]
    and puts the cursor [k] bytes after the base, so that a following
    [Seek(0, SeekCurrent)] returns [k] again. *)
Theorem SectionReader_Seek_round_trip (S : Type) (s : SectionReader.t S) (k : Z) :
  is_int64 (SectionReader.base s) -> is_int64 (SectionReader.off s) ->
  SectionReader.base s <= SectionReader.off s ->
  is_int64 (SectionReader.off s - SectionReader.base s) ->
  0 <= k -> is_int64 k -> is_int64 (SectionReader.base s + k) ->
  SectionReader.Seek s 0 SeekCurrent
    = (SectionReader.off s - SectionReader.base s, None, s) /\
  let s' := SectionReader.mk (SectionReader.r s) (SectionReader.base s)
                             (SectionReader.base s + k) (SectionReader.limit s) in
  SectionReader.Seek s k SeekStart = (k, None, s') /\
  SectionReader.Seek s' 0 SeekCurrent = (k, None, s').
Proof.
  intros Hb Ho Hinv Hrel Hk Hki Hbk.
  assert (Hcur : forall t : SectionReader.t S,
             is_int64 (SectionReader.off t) ->
             SectionReader.base t <= SectionReader.off t ->
             is_int64 (SectionReader.off t - SectionReader.base t) ->
             SectionReader.Seek t 0 SeekCurrent
               = (SectionReader.off t - SectionReader.base t, None, t)).
  { intros t Ht Hti Htr. unfold SectionReader.Seek.
    change (SeekCurrent =? SeekStart) with false.
    change (SeekCurrent =? SeekCurrent) with true. cbv iota.
    rewrite Z.add_0_l, (wrap64_id Ht).
    destruct (Z.ltb_spec (SectionReader.off t) (SectionReader.base t)); [lia |].
    rewrite (wrap64_id Htr). destruct t; reflexivity. }
  split; [apply Hcur; assumption |].
  cbv zeta. split.
  - unfold SectionReader.Seek.
    change (SeekStart =? SeekStart) with true. cbv iota.
    rewrite (Z.add_comm k), (wrap64_id Hbk).
    destruct (Z.ltb_spec (SectionReader.base s + k) (SectionReader.base s)); [lia |].
    replace (SectionReader.base s + k - SectionReader.base s) with k by lia.
    rewrite (wrap64_id Hki). reflexivity.
  - rewrite Hcur; cbn [SectionReader.off SectionReader.base].
    + do 2 f_equal. lia.
    + exact Hbk.
    + lia.
    + replace (SectionReader.base s + k - SectionReader.base s) with k by lia.
      exact Hki.
Qed.

Lemma SectionReader_Seek_round_trip_witness :
  SectionReader.Seek (SectionReader.mk tt 10 13 15) 0 SeekCurrent
    = (13 - 10, None, SectionReader.mk tt 10 13 15) /\
  SectionReader.Seek (SectionReader.mk tt 10 13 15) 4 SeekStart
    = (4, None, SectionReader.mk tt 10 (10 + 4) 15) /\
  SectionReader.Seek (SectionReader.mk tt 10 (10 + 4) 15) 0 SeekCurrent
    = (4, None, SectionReader.mk tt 10 (10 + 4) 15).
Proof.
  apply (@SectionReader_Seek_round_trip _ (SectionReader.mk tt 10 13 15) 4);
    vm_compute; try split; discriminate.
Defined.

(* ----------------------------------------------------------------- *)
(** ** A section as a source *)

Lemma clamp_slice (p : slice) (max : Z) :
  0 < max ->
  exists p',
    (if max <? len p then slice_to p max else Ret p) = Ret p' /\
    len p' = Z.min (len p) max /\
    backing p' = backing p.
Proof.
  intros Hmax. destruct (Z.ltb_spec max (len p)) as [Hlt | Hge].
  - destruct (@slice_to_within p max) as (p' & Hp' & _ & Hlen); [lia |].
    exists p'. repeat split; trivial; [lia |].
    unfold slice_to in Hp'.
    destruct ((0 <=? max) && (max <=? cap p)); [| discriminate].
    injection Hp' as <-. unfold backing at 1. cbn [elems spare]. apply firstn_skipn.
  - exists p. repeat split; trivial. lia.
Qed.

Lemma SectionReader_Yields_window (S : Type) (ra : ReadAtFn S) (st : S) (c : list byte)
    (base limit : Z) :
  ServesAt ra st c ->
  is_int64 limit ->
  forall (m : nat) (off : Z),
    0 <= off ->
    (Z.to_nat (limit - off) <= m)%nat ->
    Yields (SectionReader.Read ra) (SectionReader.mk st base off limit)
           (firstn (Z.to_nat (limit - off)) (skipn (Z.to_nat off) c)).
Proof.
  intros Hra Hlim. induction m as [| m IH]; intros off Hoff Hm.
  - assert (Hend : limit <= off) by lia.
    replace (Z.to_nat (limit - off)) with O by lia. cbn [firstn].
    constructor.
    + intros p Hp. exists 0, [], (Some EOF), (SectionReader.mk st base off limit).
      unfold SectionReader.Read. cbn [SectionReader.limit SectionReader.off].
      destruct (Z.leb_spec limit off); [| lia].
      cbn. repeat split; try lia. right. split; reflexivity.
    + intros p n data s' _ E. unfold SectionReader.Read in E.
      cbn [SectionReader.limit SectionReader.off] in E.
      destruct (Z.leb_spec limit off); [discriminate E | lia].
  - destruct (Z_le_gt_dec limit off) as [Hend | Hmore].
    { apply IH; [exact Hoff | lia]. }
    set (win := firstn (Z.to_nat (limit - off)) (skipn (Z.to_nat off) c)).
    assert (Hwin : Z.of_nat (length win)
                   = Z.min (limit - off) (Z.max 0 (Z.of_nat (length c) - off))).
    { unfold win. rewrite length_firstn, length_skipn. lia. }
    assert (Hmax : wrap64 (limit - off) = limit - off).
    { apply wrap64_id. unfold is_int64, minint64, maxint64 in *. lia. }
    assert (Hstep : forall p, 0 < len p ->
               exists p' n data err,
                 len p' = Z.min (len p) (limit - off) /\
                 backing p' = backing p /\
                 ra st p' off = Ret (n, data, err, st) /\
                 n = Z.min (len p') (Z.max 0 (Z.of_nat (length c) - off)) /\
                 firstn (Z.to_nat n) (elems (store data p'))
                   = firstn (Z.to_nat n) (skipn (Z.to_nat off) c) /\
                 (n < len p' -> err = Some EOF) /\
                 (n = len p' ->
                    err = None \/ (err = Some EOF /\ Z.of_nat (length c) <= off + n)) /\
                 SectionReader.Read ra (SectionReader.mk st base off limit) p
                   = Ret (n, data, err, SectionReader.mk st base (off + n) limit)).
    { intros p Hp.
      destruct (@clamp_slice p (limit - off) ltac:(lia)) as (p' & Hp' & Hlen & Hback).
      destruct (Hra p' off Hoff) as (n & data & err & Hcall & Hn & Hdata & Hshort & Hfull).
      exists p', n, data, err. repeat split; trivial.
      unfold SectionReader.Read.
      cbn [SectionReader.limit SectionReader.off SectionReader.r SectionReader.base].
      destruct (Z.leb_spec limit off); [lia |].
      cbv zeta. rewrite Hmax, Hp'. cbv beta iota delta [bind]. rewrite Hcall.
      rewrite wrap64_id; [reflexivity |].
      unfold is_int64, minint64, maxint64 in *. lia. }
    constructor.
    + intros p Hp.
      destruct (Hstep p Hp)
        as (p' & n & data & err & Hlen & Hback & _ & Hn & Hdata & Hshort & Hfull & Hrun).
      exists n, data, err, (SectionReader.mk st base (off + n) limit).
      split; [exact Hrun |]. split; [lia |]. split; [lia |]. split.
      * unfold win. rewrite firstn_firstn_le by lia. rewrite <- Hdata.
        unfold len in *. rewrite !firstn_elems_store by lia.
        rewrite Hback. reflexivity.
      * destruct (Z_lt_ge_dec n (len p')) as [Hlt | Hge].
        -- right. split; [apply Hshort; exact Hlt | lia].
        -- destruct (Hfull ltac:(lia)) as [-> | [-> HC]]; [left; reflexivity | right].
           split; [reflexivity | lia].
    + intros p n data s' Hp E.
      destruct (Hstep p Hp)
        as (p' & n' & data' & err & Hlen & _ & _ & Hn & _ & Hshort & _ & Hrun).
      rewrite Hrun in E. injection E as <- <- -> <-.
      assert (Hn' : n' = len p').
      { destruct (Z_lt_ge_dec n' (len p')) as [Hlt | Hge]; [| lia].
        specialize (Hshort Hlt). discriminate Hshort. }
      unfold win. rewrite skipn_firstn_swap by lia. rewrite skipn_skipn.
      replace (Z.to_nat (limit - off) - Z.to_nat n')%nat
        with (Z.to_nat (limit - (off + n'))) by lia.
      replace (Z.to_nat n' + Z.to_nat off)%nat with (Z.to_nat (off + n')) by lia.
      apply IH; lia.
Qed.

(** X14: [Copy] from a new section over a random-access store that
    honours the [ReaderAt] contract transfers exactly the bytes of the
    window: for [off >= 0], [n >= 0] and [off + n] representable, an
    accepting sink without [ReadFrom] receives the bytes of the store
    from [off] up to [off + n] (fewer when the store ends before), and
    [Copy] returns their number and [nil]. *)
Theorem Copy_from_section (S W : Type) (ra : ReadAtFn S) (dst : Writer W)
    (view : W -> list byte) (st : S) (c : list byte) (off n : Z) (w : W) :
  ServesAt ra st c ->
  0 <= off -> 0 <= n -> off + n <= maxint64 ->
  Accepts (Write dst) view ->
  ReadFrom dst = None ->
  let window := firstn (Z.to_nat n) (skipn (Z.to_nat off) c) in
  exists fuel0 s' w',
    view w' = view w ++ window /\
    forall fuel, (fuel0 <= fuel)%nat ->
      Copy fuel dst (SectionReader_Reader ra) w (SectionReader.New st off n)
        = Ret (Z.of_nat (length window), None, s', w').
Proof.
  intros Hra Hoff Hn Hsum Hdst Hrf window.
  assert (Hnew : SectionReader.New st off n = SectionReader.mk st off off (off + n)).
  { unfold SectionReader.New.
    rewrite (wrap64_id (z := maxint64 - n))
      by (unfold is_int64, minint64, maxint64 in *; lia).
    destruct (Z.leb_spec off (maxint64 - n)); [| lia].
    rewrite (Z.add_comm n off), wrap64_id; [reflexivity |].
    unfold is_int64, minint64, maxint64 in *. lia. }
  assert (Hsrc : Yields (SectionReader.Read ra) (SectionReader.mk st off off (off + n))
                        window).
  { assert (Ew : window
                 = firstn (Z.to_nat (off + n - off)) (skipn (Z.to_nat off) c))
      by (unfold window; f_equal; lia).
    rewrite Ew.
    apply (@SectionReader_Yields_window S ra st c off (off + n) Hra) with
      (m := Z.to_nat (off + n - off)); [| exact Hoff | lia].
    unfold is_int64, minint64, maxint64 in *. lia. }
  destruct (@copyLoop_Yields _ _ (SectionReader.Read ra) (Write dst) view Hdst _ _ Hsrc
              w (make (32 * 1024)) 0)
    as (fuel0 & s' & w' & Hview & Hrun).
  - rewrite len_make; lia.
  - lia.
  - unfold window. rewrite length_firstn. lia.
  - exists fuel0, s', w'. split; [exact Hview |].
    intros fuel Hfuel. unfold Copy, copyBuffer.
    cbn [WriteTo SectionReader_Reader asLimitedReader Read]. rewrite Hrf, Hnew.
    rewrite (Hrun fuel Hfuel). reflexivity.
Qed.

Lemma storeReadAt_ServesAt (c : list byte) : ServesAt Fixtures.storeReadAt c c.
Proof.
  intros p off Hoff. unfold Fixtures.storeReadAt. pose proof (len_nonneg p) as Hnn.
  destruct (Z.ltb_spec off 0); [lia |].
  destruct (Z.leb_spec (Z.of_nat (length c)) off) as [Hpast | Hin].
  - exists 0, [], (Some EOF). repeat split; try lia.
    right. split; [reflexivity | lia].
  - set (avail := skipn (Z.to_nat off) c).
    assert (Hav : Z.of_nat (length avail) = Z.of_nat (length c) - off)
      by (unfold avail; rewrite length_skipn; lia).
    set (n := Z.min (len p) (Z.of_nat (length avail))).
    exists n, (firstn (Z.to_nat n) avail), (if n <? len p then Some EOF else None).
    split; [reflexivity |]. split; [lia |]. split.
    + assert (Hlen : length (firstn (Z.to_nat n) avail) = Z.to_nat n)
        by (rewrite length_firstn; lia).
      rewrite <- Hlen at 1. rewrite firstn_store_data by lia. reflexivity.
    + split.
      * intros Hlt. destruct (Z.ltb_spec n (len p)); [reflexivity | lia].
      * intros Heq. destruct (Z.ltb_spec n (len p)); [lia | left; reflexivity].
Qed.

(** The section with base 10 and length 5 over the 100-byte store,
    copied into an empty accumulating sink. *)
Lemma Copy_from_section_witness :
  exists fuel0 s' w',
    w' = [] ++ firstn 5 (skipn 10 Fixtures.store100) /\
    forall fuel, (fuel0 <= fuel)%nat ->
      Copy fuel Fixtures.bufferWriter (SectionReader_Reader Fixtures.storeReadAt) []
           (SectionReader.New Fixtures.store100 10 5)
        = Ret (Z.of_nat (length (firstn 5 (skipn 10 Fixtures.store100))), None, s', w').
Proof.
  apply (@Copy_from_section _ _ Fixtures.storeReadAt Fixtures.bufferWriter (fun w => w)
           Fixtures.store100 Fixtures.store100 10 5 []).
  - apply storeReadAt_ServesAt.
  - lia.
  - lia.
  - vm_compute. discriminate.
  - apply bufferWrite_Accepts.
  - reflexivity.
Defined.

(* ----------------------------------------------------------------- *)
(** ** ReadAll over a limited source *)

(** X15: [ReadAll(LimitReader(r, n))] with [n >= 0] returns exactly the
    first [n] bytes of the content of [r] (all of it when it is
    shorter), and [nil]. *)
Theorem ReadAll_of_LimitReader (S : Type) (newcap : Z -> Z) (src : Reader S)
    (s : S) (bs : list byte) (n : Z) :
  (forall c, 0 <= c -> c < newcap c) ->
  Yields (Read src) s bs ->
  0 <= n -> is_int64 n ->
  exists fuel0 l' b',
    elems b' = firstn (Z.to_nat n) bs /\
    forall fuel, (fuel0 <= fuel)%nat ->
      ReadAll newcap fuel (LimitReader src) (LimitedReader.mk s n) = Ret (b', None, l').
Proof.
  intros Hgrow Hsrc Hn Hint.
  pose proof (Yields_YieldsUntil (Yields_LimitReader Hsrc Hn Hint)) as Hlim.
  destruct (@readAllLoop_YieldsUntil _ (LimitedReader.Read (Read src)) newcap Hgrow
              EOF _ _ Hlim (Slice [] (repeat x00 512)))
    as (fuel0 & l' & b' & Hb' & Hrun).
  - unfold len. cbn [elems length]. rewrite length_firstn.
    unfold is_int64 in Hint. lia.
  - exists fuel0, l', b'. split; [exact Hb' |]. exact Hrun.
Qed.

Lemma ReadAll_of_LimitReader_witness :
  exists fuel0 l' b',
    elems b' = firstn 3 Fixtures.hello /\
    forall fuel, (fuel0 <= fuel)%nat ->
      ReadAll (fun c => c + 512) fuel (LimitReader (Fixtures.chunkReader 2))
              (LimitedReader.mk Fixtures.hello 3)
        = Ret (b', None, l').
Proof.
  apply (@ReadAll_of_LimitReader _ (fun c => c + 512) (Fixtures.chunkReader 2)
           Fixtures.hello Fixtures.hello 3).
  - intros c Hc. lia.
  - apply chunkRead_Yields. lia.
  - lia.
  - vm_compute. split; discriminate.
Defined.

(* ----------------------------------------------------------------- *)
(** ** NopCloser *)

(** X16: [Copy] from [NopCloser(r)].  When [r] has [WriteTo], the
    wrapper forwards it: [Copy] is that [WriteTo] on the sink and returns
    its result, without a read.  When [r] has none, [Copy] into an
    accepting sink without [ReadFrom] transfers the whole content of [r]
    and returns [(len(bs), nil)]; this holds also when [r] is a
    [*LimitedReader], whose type the wrapper hides from [copyBuffer]. *)
Theorem Copy_from_NopCloser (S W : Type) (r : Reader S) (dst : Writer W)
    (view : W -> list byte) (s : S) (w : W) (bs : list byte) :
  (forall wt, WriteTo r = Some wt ->
     forall fuel, Copy fuel dst (NopCloser r) w s = wt fuel W (Write dst) s w) /\
  (WriteTo r = None ->
   ReadFrom dst = None ->
   Yields (Read r) s bs ->
   Accepts (Write dst) view ->
   Z.of_nat (length bs) <= maxint64 ->
   exists fuel0 s' w',
     view w' = view w ++ bs /\
     forall fuel, (fuel0 <= fuel)%nat ->
       Copy fuel dst (NopCloser r) w s = Ret (Z.of_nat (length bs), None, s', w')).
Proof.
  split.
  - intros wt Hwt fuel. unfold Copy, copyBuffer, NopCloser. rewrite Hwt.
    reflexivity.
  - intros Hwt Hrf Hsrc Hdst HL.
    assert (Hbuf : 0 < len (make (32 * 1024))) by (rewrite len_make; lia).
    destruct (@copyLoop_Yields S W (Read r) (Write dst) view Hdst s bs Hsrc w
                (make (32 * 1024)) 0 Hbuf ltac:(lia) ltac:(lia))
      as (fuel0 & s' & w' & Hview & Hrun).
    exists fuel0, s', w'. split; [exact Hview |].
    intros fuel Hfuel. unfold Copy, copyBuffer, NopCloser. rewrite Hwt.
    cbn [WriteTo Read asLimitedReader]. rewrite Hrf.
    rewrite (Hrun fuel Hfuel). reflexivity.
Qed.

(** A source whose [WriteTo] returns [(42, ErrNoProgress)], wrapped:
    [Copy] returns that result and the sink is not written; and [hello]
    copied out of a wrapped reader limited to 9 bytes. *)
Lemma Copy_from_NopCloser_witness :
  Copy 0 Fixtures.bufferWriter
       (NopCloser (BulkFixtures.bulkReader 2 42 (Some ErrNoProgress))) [] Fixtures.hello
    = Ret (42, Some ErrNoProgress, Fixtures.hello, []) /\
  exists fuel0 s' w',
    w' = [] ++ Fixtures.hello /\
    forall fuel, (fuel0 <= fuel)%nat ->
      Copy fuel Fixtures.bufferWriter (NopCloser (LimitReader (Fixtures.chunkReader 2)))
           [] (LimitedReader.mk Fixtures.hello 9)
        = Ret (5, None, s', w').
Proof.
  split.
  - exact (proj1 (@Copy_from_NopCloser _ _
                    (BulkFixtures.bulkReader 2 42 (Some ErrNoProgress))
                    Fixtures.bufferWriter (fun w => w) Fixtures.hello [] [])
                 _ eq_refl 0%nat).
  - apply (proj2 (@Copy_from_NopCloser _ _ (LimitReader (Fixtures.chunkReader 2))
                    Fixtures.bufferWriter (fun w => w)
                    (LimitedReader.mk Fixtures.hello 9) [] Fixtures.hello)).
    + reflexivity.
    + reflexivity.
    + change Fixtures.hello with (firstn (Z.to_nat 9) Fixtures.hello) at 2.
      apply (@Yields_LimitReader _ (Fixtures.chunkRead 2) Fixtures.hello Fixtures.hello).
      * apply chunkRead_Yields. lia.
      * lia.
      * vm_compute. split; discriminate.
    + apply bufferWrite_Accepts.
    + vm_compute. discriminate.
Defined.

(* ----------------------------------------------------------------- *)
(** ** alphaReader *)

Lemma store_backing (p q : slice) :
  len q = len p -> cap q = cap p -> store (backing q) p = q.
Proof.
  unfold len, cap. intros Hlen Hcap. unfold store, overlay.
  rewrite (firstn_all2 (n := length (backing p)) (backing q)) by lia.
  rewrite (skipn_all2 (n := length (backing q)) (backing p)) by lia.
  rewrite app_nil_r. unfold backing.
  replace (length (elems p)) with (length (elems q)) by lia.
  rewrite firstn_app, firstn_all, Nat.sub_diag, firstn_O, app_nil_r.
  rewrite skipn_app, skipn_all, Nat.sub_diag. cbn [skipn app].
  destruct q; reflexivity.
Qed.

Lemma chunkRead_StatusAlone (k : Z) : StatusAlone (Fixtures.chunkRead k).
Proof.
  intros s p n data e s' E. unfold Fixtures.chunkRead in E.
  destruct s; [injection E as <- _ _ _; reflexivity | discriminate E].
Qed.

(** What [alphaReader.Read] returns when the underlying read reported no
    status: the count, and [p] with its first [n] bytes filtered. *)
Lemma alphaReader_Read_ok (S : Type) (rd : ReadFn S) (a a' : S) (p : slice)
    (n : Z) (data : list byte) :
  rd a p = Ret (n, data, None, a') ->
  0 <= n <= len p ->
  exists data',
    alphaReader.Read rd a p = Ret (n, data', None, a') /\
    firstn (Z.to_nat n) (elems (store data' p))
      = map alphaReader.alpha (firstn (Z.to_nat n) (elems (store data p))).
Proof.
  intros Hrd Hn. unfold alphaReader.Read. rewrite Hrd.
  cbv beta iota zeta delta [bind].
  destruct (Z.ltb_spec n 0); [lia |].
  destruct (Z.ltb_spec (len p) n); [lia |].
  eexists. split; [reflexivity |].
  set (p1 := store data p).
  set (buf := map alphaReader.alpha (firstn (Z.to_nat n) (elems p1))).
  assert (Hbuf : length buf = Z.to_nat n).
  { unfold buf. rewrite length_map, length_firstn.
    pose proof (len_store data p) as E. fold p1 in E. unfold len in E, Hn. lia. }
  rewrite store_backing.
  - rewrite <- Hbuf. apply firstn_store_data.
    unfold p1. rewrite len_store. lia.
  - unfold p1. rewrite !len_store. reflexivity.
  - unfold p1. rewrite !cap_store. reflexivity.
Qed.

(** [alpha] keeps the 52 ASCII letters and turns every other byte
    into 0. *)
Lemma alpha_letterOrZero (b : byte) : alphaReader.alpha b = letterOrZero b.
Proof. destruct b; vm_compute; reflexivity. Qed.

Lemma alphaReader_Yields_map (S : Type) (rd : ReadFn S) (s : S) (bs : list byte) :
  StatusAlone rd ->
  Yields rd s bs ->
  Yields (alphaReader.Read rd) s (map alphaReader.alpha bs) /\
  (forall a p n data e a',
     rd a p = Ret (n, data, Some e, a') ->
     alphaReader.Read rd a p = Ret (n, data, Some e, a')).
Proof.
  intros Halone Hsrc. split.
  - induction Hsrc as [s bs Hread _ IH]. constructor.
    + intros p Hp.
      destruct (Hread p Hp) as (n & data & err & s1 & Hrd & Hn & HnL & Hpre & Herr).
      destruct Herr as [-> | [-> HnL']].
      * destruct (alphaReader_Read_ok rd s p Hrd Hn) as (data' & Hrun & Hdata).
        exists n, data', None, s1. split; [exact Hrun |]. split; [exact Hn |].
        rewrite length_map. split; [exact HnL |]. split; [| left; reflexivity].
        rewrite Hdata, Hpre. symmetry. apply firstn_map.
      * pose proof (Halone _ _ _ _ _ _ Hrd) as Hz.
        exists n, data, (Some EOF), s1. split.
        { unfold alphaReader.Read. rewrite Hrd. reflexivity. }
        rewrite length_map. split; [lia |]. split; [lia |]. split.
        { rewrite Hz. reflexivity. }
        right. split; [reflexivity | lia].
    + intros p n data' s' Hp E.
      destruct (Hread p Hp) as (n0 & data & err & s1 & Hrd & Hn & _ & _ & _).
      destruct err as [e |].
      * unfold alphaReader.Read in E. rewrite Hrd in E. discriminate E.
      * destruct (alphaReader_Read_ok rd s p Hrd Hn) as (data0 & Hrun & _).
        rewrite Hrun in E. injection E as <- _ <-.
        rewrite skipn_map. apply (IH p n0 data s1 Hp Hrd).
  - intros a p n data e a' Hrd. unfold alphaReader.Read. rewrite Hrd. reflexivity.
Qed.

(** X17: [alphaReader] over a source that reports its status only in
    calls that deliver no bytes is a source whose content is the
    content of the underlying source with every byte that is not one of
    the 52 ASCII letters replaced by 0, and the letters kept.  Bytes that
    the underlying source delivers together with a status are passed on
    as they are, without the filter. *)
Theorem alphaReader_filters (S : Type) (rd : ReadFn S) (s : S) (bs : list byte) :
  StatusAlone rd ->
  Yields rd s bs ->
  Yields (alphaReader.Read rd) s (map letterOrZero bs) /\
  (forall a p n data e a',
     rd a p = Ret (n, data, Some e, a') ->
     alphaReader.Read rd a p = Ret (n, data, Some e, a')).
Proof.
  intros Halone Hsrc.
  destruct (alphaReader_Yields_map Halone Hsrc) as [Hy Hpass].
  split; [| exact Hpass].
  rewrite (map_ext _ _ alpha_letterOrZero) in Hy. exact Hy.
Qed.

(** The bytes [H i ! 9 a] through the filter: [H i 0 0 a]. *)
Lemma alphaReader_filters_witness :
  Yields (alphaReader.Read (Fixtures.chunkRead 2)) [x48; x69; x21; x39; x61]
         [x48; x69; x00; x00; x61] /\
  (forall a p n data e a',
     Fixtures.chunkRead 2 a p = Ret (n, data, Some e, a') ->
     alphaReader.Read (Fixtures.chunkRead 2) a p = Ret (n, data, Some e, a')).
Proof.
  apply (@alphaReader_filters _ (Fixtures.chunkRead 2) [x48; x69; x21; x39; x61]
           [x48; x69; x21; x39; x61]).
  - apply chunkRead_StatusAlone.
  - apply chunkRead_Yields. lia.
Defined.

(* ----------------------------------------------------------------- *)
(** ** Where the staging loop leaves the source *)

Section CopyLoopFinalState.

Variables S W : Type.
Variable rd : ReadFn S.
Variable wr : WriteFn W.

(** [Inv] holds of the source's state as long as reads report no
    status; [Post] holds of the state in which a read reports [EOF]. *)
Variables Inv Post : S -> Prop.

Hypothesis Inv_step :
  forall s p n data s',
    0 < len p -> Inv s -> rd s p = Ret (n, data, None, s') -> Inv s'.

Hypothesis Inv_stop :
  forall s p n data s',
    0 < len p -> Inv s -> rd s p = Ret (n, data, Some EOF, s') -> Post s'.

(** A loop that returns without a failure stopped on an [EOF] of the
    source, in a state where [Post] holds. *)
Lemma copyLoop_final_state (fuel : nat) :
  forall s w buf written n s' w',
    0 < len buf -> Inv s ->
    copyLoop fuel rd wr (s, w, buf, written) = Ret (n, None, s', w') ->
    Post s'.
Proof.
  induction fuel as [| fuel IH]; intros s w buf written n s' w' Hbuf HI E.
  - discriminate E.
  - cbn [copyLoop] in E. unfold copyIter in E.
    destruct (rd s buf) as [[[[nr data] er] s1] | |] eqn:Hrd; try discriminate E.
    cbv beta iota zeta delta [bind] in E.
    assert (Htail : forall w0 written0,
               match match er with
                     | Some e0 => Break (written0, if is_EOF e0 then None else Some e0, s1, w0)
                     | None => Continue (s1, w0, store data buf, written0)
                     end with
               | Continue st0 => copyLoop fuel rd wr st0
               | Break res => Ret res
               end = Ret (n, None, s', w') -> Post s').
    { intros w0 written0 E0. destruct er as [e0 |].
      - destruct e0; cbn in E0; try discriminate E0.
        injection E0 as _ <- _. apply (Inv_stop Hbuf HI Hrd).
      - apply (IH _ _ _ _ _ _ _ ltac:(rewrite len_store; exact Hbuf)
                  (Inv_step Hbuf HI Hrd) E0). }
    destruct (0 <? nr).
    + destruct (slice_to (store data buf) nr) as [chunk | |]; try discriminate E.
      cbv beta iota delta [bind] in E.
      destruct (wr w (elems chunk)) as [[[nw ew] w1] | |]; try discriminate E.
      cbv beta iota delta [bind] in E.
      destruct ((nw <? 0) || (nr <? nw)).
      * destruct ew; cbn in E; discriminate E.
      * destruct ew; cbn in E; [discriminate E |].
        destruct (negb (nr =? nw)); cbn in E; [discriminate E |].
        apply (Htail _ _ E).
    + cbn in E. apply (Htail _ _ E).
Qed.

End CopyLoopFinalState.

(* ----------------------------------------------------------------- *)
(** ** CopyN takes no more than n bytes from the source *)

Lemma Yields_inv (S : Type) (rd : ReadFn S) (s : S) (bs : list byte) :
  Yields rd s bs ->
  (forall p, 0 < len p ->
     exists n data err s',
       rd s p = Ret (n, data, err, s') /\
       0 <= n <= len p /\
       n <= Z.of_nat (length bs) /\
       firstn (Z.to_nat n) (elems (store data p)) = firstn (Z.to_nat n) bs /\
       (err = None \/ (err = Some EOF /\ n = Z.of_nat (length bs)))) /\
  (forall p n data s',
     0 < len p -> rd s p = Ret (n, data, None, s') ->
     Yields rd s' (skipn (Z.to_nat n) bs)).
Proof. intros H. destruct H as [s bs H1 H2]. split; assumption. Qed.

(** X18: [CopyN] with [0 <= n < L] into an accepting sink without
    [ReadFrom] takes exactly [n] bytes from the source: it returns
    [(n, nil)], the sink has received the first [n] bytes, and the
    source is left in a state from which it delivers the rest of its
    content, from byte [n] on. *)
Theorem CopyN_leaves_the_rest (S W : Type) (dst : Writer W) (src : Reader S)
    (view : W -> list byte) (s : S) (w : W) (bs : list byte) (n : Z) :
  Yields (Read src) s bs ->
  Accepts (Write dst) view ->
  ReadFrom dst = None ->
  0 <= n < Z.of_nat (length bs) ->
  is_int64 n ->
  exists fuel0 s' w',
    Yields (Read src) s' (skipn (Z.to_nat n) bs) /\
    view w' = view w ++ firstn (Z.to_nat n) bs /\
    forall fuel, (fuel0 <= fuel)%nat ->
      CopyN fuel dst src w s n = Ret (n, None, s', w').
Proof.
  intros Hsrc Hdst Hrf Hn Hint.
  pose proof (Yields_LimitReader Hsrc (proj1 Hn) Hint) as Hlim.
  pose proof (staging_size_pos (Some n)) as Hsize. cbv beta iota in Hsize.
  set (buf := make (if n <? 32 * 1024 then (if n <? 1 then 1 else n) else 32 * 1024)).
  assert (Hbuf : 0 < len buf) by (unfold buf; rewrite len_make; lia).
  destruct (@copyLoop_Yields _ _ (LimitedReader.Read (Read src)) (Write dst) view
              Hdst _ _ Hlim w buf 0 Hbuf ltac:(lia))
    as (fuel0 & l' & w' & Hview & Hrun).
  { rewrite length_firstn. unfold is_int64 in Hint. lia. }
  rewrite length_firstn in Hrun.
  replace (0 + Z.of_nat (Nat.min (Z.to_nat n) (length bs))) with n in Hrun by lia.
  exists fuel0, (LimitedReader.R l'), w'. split; [| split; [exact Hview |]].
  - refine (@copyLoop_final_state _ _ (LimitedReader.Read (Read src)) (Write dst)
              (fun l => 0 <= LimitedReader.N l <= n /\
                        Yields (Read src) (LimitedReader.R l)
                               (skipn (Z.to_nat (n - LimitedReader.N l)) bs))
              (fun l => Yields (Read src) (LimitedReader.R l) (skipn (Z.to_nat n) bs))
              _ _ fuel0 _ _ _ _ _ _ _ Hbuf _ (Hrun fuel0 (Nat.le_refl _))).
    + intros l p k data l1 Hp [HN HY] E.
      destruct (Z_le_gt_dec (LimitedReader.N l) 0) as [Hz | Hpos].
      { unfold LimitedReader.Read in E.
        destruct (Z.leb_spec (LimitedReader.N l) 0); [discriminate E | lia]. }
      destruct (@LimitedReader_Read_step _ (Read src) l p ltac:(lia))
        as (p' & _ & Hlen & _ & E').
      rewrite E' in E. destruct (Yields_inv HY) as [Hread Hnext].
      destruct (Hread p') as (k' & data' & err' & s1 & Hrd & Hk & _ & _ & _); [lia |].
      rewrite Hrd in E. cbv beta iota delta [bind] in E.
      injection E as <- _ -> <-.
      rewrite wrap64_id by (unfold is_int64, minint64, maxint64 in *; lia).
      cbn [LimitedReader.N LimitedReader.R]. split; [lia |].
      pose proof (Hnext p' k' data' s1 ltac:(lia) Hrd) as HY'.
      rewrite skipn_skipn in HY'.
      replace (Z.to_nat (n - (LimitedReader.N l - k')))
        with (Z.to_nat k' + Z.to_nat (n - LimitedReader.N l))%nat by lia.
      exact HY'.
    + intros l p k data l1 Hp [HN HY] E.
      destruct (Z_le_gt_dec (LimitedReader.N l) 0) as [Hz | Hpos].
      { unfold LimitedReader.Read in E.
        destruct (Z.leb_spec (LimitedReader.N l) 0); [| lia].
        injection E as _ _ <-.
        replace (n - LimitedReader.N l) with n in HY by lia. exact HY. }
      exfalso.
      destruct (@LimitedReader_Read_step _ (Read src) l p ltac:(lia))
        as (p' & _ & Hlen & _ & E').
      rewrite E' in E. destruct (Yields_inv HY) as [Hread _].
      destruct (Hread p') as (k' & data' & err' & s1 & Hrd & Hk & _ & _ & Herr); [lia |].
      rewrite Hrd in E. cbv beta iota delta [bind] in E.
      injection E as _ _ -> _.
      destruct Herr as [Herr | [_ HkL]]; [discriminate Herr |].
      rewrite length_skipn in HkL. lia.
    + cbn [LimitedReader.N LimitedReader.R]. split; [lia |].
      replace (n - n) with 0 by lia. exact Hsrc.
  - intros fuel Hfuel. unfold CopyN, Copy, copyBuffer.
    cbn [WriteTo LimitReader asLimitedReader Read LimitedReader.N]. rewrite Hrf.
    cbv zeta. fold buf. rewrite (Hrun fuel Hfuel).
    cbv beta iota delta [bind]. rewrite Z.eqb_refl. reflexivity.
Qed.

Lemma CopyN_leaves_the_rest_witness :
  exists fuel0 s' w',
    Yields (Fixtures.chunkRead 2) s' (skipn 3 Fixtures.hello) /\
    w' = [] ++ firstn 3 Fixtures.hello /\
    forall fuel, (fuel0 <= fuel)%nat ->
      CopyN fuel Fixtures.bufferWriter (Fixtures.chunkReader 2) [] Fixtures.hello 3
        = Ret (3, None, s', w').
Proof.
  apply (@CopyN_leaves_the_rest _ _ Fixtures.bufferWriter (Fixtures.chunkReader 2)
           (fun w => w) Fixtures.hello [] Fixtures.hello 3).
  - apply chunkRead_Yields. lia.
  - apply bufferWrite_Accepts.
  - reflexivity.
  - vm_compute. split; [discriminate | reflexivity].
  - vm_compute. split; discriminate.
Defined.

(* ----------------------------------------------------------------- *)
(** ** Copy through a TeeReader *)

Lemma teeReader_Read_accepting (S W : Type) (rd : ReadFn S) (wr : WriteFn W)
    (view : W -> list byte) (t0 : teeReader.t S W) (p : slice) (n : Z)
    (data : list byte) (err : option error) (r' : S) :
  Accepts wr view ->
  rd (teeReader.r t0) p = Ret (n, data, err, r') ->
  0 <= n <= len p ->
  exists w',
    teeReader.Read rd wr t0 p = Ret (n, data, err, teeReader.mk r' w') /\
    view w' = view (teeReader.w t0) ++ firstn (Z.to_nat n) (elems (store data p)).
Proof.
  intros Hacc Hrd Hn. unfold teeReader.Read. rewrite Hrd.
  cbv beta iota delta [bind].
  destruct (Z.ltb_spec 0 n) as [Hpos | Hzero].
  - destruct (@slice_to_within (store data p) n) as (q & Hq & Hel & _);
      [rewrite len_store; lia |].
    rewrite Hq. cbv beta iota delta [bind].
    destruct (Hacc (teeReader.w t0) (elems q)) as (w' & Hwr & Hview).
    rewrite Hwr. exists w'. split; [reflexivity |]. rewrite Hview, Hel. reflexivity.
  - exists (teeReader.w t0). assert (n = 0) as -> by lia.
    split; [reflexivity |]. cbn [Z.to_nat firstn]. symmetry. apply app_nil_r.
Qed.

Lemma TeeReader_Yields (S W : Type) (rd : ReadFn S) (wr : WriteFn W)
    (view : W -> list byte) (s : S) (bs : list byte) :
  Accepts wr view ->
  Yields rd s bs ->
  forall w2, Yields (teeReader.Read rd wr) (teeReader.mk s w2) bs.
Proof.
  intros Hacc. induction 1 as [s bs Hread _ IH]. intros w2. constructor.
  - intros p Hp.
    destruct (Hread p Hp) as (n & data & err & s1 & Hrd & Hn & HnL & Hpre & Herr).
    destruct (@teeReader_Read_accepting _ _ rd wr view (teeReader.mk s w2) p n data err
                s1 Hacc Hrd Hn) as (w' & Hrun & _).
    exists n, data, err, (teeReader.mk s1 w'). repeat split; trivial; lia.
  - intros p n data t' Hp E.
    destruct (Hread p Hp) as (n0 & data0 & err0 & s1 & Hrd & Hn & _ & _ & _).
    destruct (@teeReader_Read_accepting _ _ rd wr view (teeReader.mk s w2) p n0 data0
                err0 s1 Hacc Hrd Hn) as (w' & Hrun & _).
    rewrite Hrun in E. injection E as <- _ -> <-.
    apply (IH p n0 data0 s1 Hp Hrd).
Qed.

(** X19: [Copy] from [TeeReader(src, mirror)] into [dst], on the staging
    path, with sinks that accept everything: when it returns, [dst] and
    [mirror] have both received exactly the content of [src], and the
    count is its length. *)
Theorem Copy_through_TeeReader (S W M : Type) (dst : Writer W) (mirror : Writer M)
    (src : Reader S) (view : W -> list byte) (view2 : M -> list byte)
    (s : S) (w : W) (m : M) (bs : list byte) :
  Yields (Read src) s bs ->
  Accepts (Write dst) view ->
  Accepts (Write mirror) view2 ->
  ReadFrom dst = None ->
  Z.of_nat (length bs) <= maxint64 ->
  exists fuel0 t' w',
    view w' = view w ++ bs /\
    view2 (teeReader.w t') = view2 m ++ bs /\
    forall fuel, (fuel0 <= fuel)%nat ->
      Copy fuel dst (TeeReader src mirror) w (teeReader.mk s m)
        = Ret (Z.of_nat (length bs), None, t', w').
Proof.
  intros Hsrc Hdst Hmir Hrf HL.
  pose proof (@TeeReader_Yields _ _ (Read src) (Write mirror) view2 s bs Hmir Hsrc m)
    as Htee.
  assert (Hbuf : 0 < len (make (32 * 1024))) by (rewrite len_make; lia).
  destruct (@copyLoop_Yields _ _ (teeReader.Read (Read src) (Write mirror)) (Write dst)
              view Hdst _ _ Htee w (make (32 * 1024)) 0 Hbuf ltac:(lia) ltac:(lia))
    as (fuel0 & t' & w' & Hview & Hrun).
  exists fuel0, t', w'. split; [exact Hview |]. split.
  - refine (@copyLoop_final_state _ _ (teeReader.Read (Read src) (Write mirror))
              (Write dst)
              (fun t => exists rest,
                          Yields (Read src) (teeReader.r t) rest /\
                          view2 (teeReader.w t) ++ rest = view2 m ++ bs)
              (fun t => view2 (teeReader.w t) = view2 m ++ bs)
              _ _ fuel0 _ _ _ _ _ _ _ Hbuf _ (Hrun fuel0 (Nat.le_refl _))).
    + intros t p n data t1 Hp (rest & HY & Hsum) E.
      destruct (Yields_inv HY) as [Hread Hnext].
      destruct (Hread p Hp) as (n0 & data0 & err0 & s1 & Hrd & Hn & _ & Hpre & _).
      destruct (@teeReader_Read_accepting _ _ (Read src) (Write mirror) view2 t p n0
                  data0 err0 s1 Hmir Hrd Hn) as (m' & Hrun' & Hview').
      rewrite Hrun' in E. injection E as <- _ -> <-.
      exists (skipn (Z.to_nat n0) rest). cbn [teeReader.r teeReader.w]. split.
      * apply (Hnext p n0 data0 s1 Hp Hrd).
      * rewrite Hview', Hpre, <- app_assoc, firstn_skipn. exact Hsum.
    + intros t p n data t1 Hp (rest & HY & Hsum) E.
      destruct (Yields_inv HY) as [Hread _].
      destruct (Hread p Hp) as (n0 & data0 & err0 & s1 & Hrd & Hn & _ & Hpre & Herr).
      destruct (@teeReader_Read_accepting _ _ (Read src) (Write mirror) view2 t p n0
                  data0 err0 s1 Hmir Hrd Hn) as (m' & Hrun' & Hview').
      rewrite Hrun' in E. injection E as _ _ -> <-.
      destruct Herr as [Herr | [_ HnL]]; [discriminate Herr |].
      cbn [teeReader.w]. rewrite Hview', Hpre, firstn_all2 by lia. exact Hsum.
    + exists bs. cbn [teeReader.r teeReader.w]. split; [exact Hsrc | reflexivity].
  - intros fuel Hfuel. unfold Copy, copyBuffer.
    cbn [WriteTo TeeReader asLimitedReader Read]. rewrite Hrf.
    rewrite (Hrun fuel Hfuel). reflexivity.
Qed.

Lemma Copy_through_TeeReader_witness :
  exists fuel0 t' w',
    w' = [] ++ Fixtures.hello /\
    teeReader.w t' = [x21] ++ Fixtures.hello /\
    forall fuel, (fuel0 <= fuel)%nat ->
      Copy fuel Fixtures.bufferWriter
           (TeeReader (Fixtures.chunkReader 2) Fixtures.bufferWriter) []
           (teeReader.mk Fixtures.hello [x21])
        = Ret (5, None, t', w').
Proof.
  apply (@Copy_through_TeeReader _ _ _ Fixtures.bufferWriter Fixtures.bufferWriter
           (Fixtures.chunkReader 2) (fun w => w) (fun w => w)
           Fixtures.hello [] [x21] Fixtures.hello).
  - apply chunkRead_Yields. lia.
  - apply bufferWrite_Accepts.
  - apply bufferWrite_Accepts.
  - reflexivity.
  - vm_compute. discriminate.
Defined.

(* ----------------------------------------------------------------- *)
(** ** Calls that ask for nothing *)

(** X20: [ReadAtLeast] with [min <= 0], and so [ReadFull] with an empty
    buffer, returns [(0, nil)] without a call to the reader, whatever
    the reader would do: no fuel is used, and the reader's state and the
    buffer are untouched. *)
Theorem ReadAtLeast_nothing_asked (S : Type) (r : Reader S) (s : S) (buf : slice)
    (min : Z) (fuel : nat) :
  (min <= 0 -> ReadAtLeast fuel r s buf min = Ret (0, None, s, buf)) /\
  (len buf = 0 -> ReadFull fuel r s buf = Ret (0, None, s, buf)).
Proof.
  assert (H : forall m, m <= 0 -> ReadAtLeast fuel r s buf m = Ret (0, None, s, buf)).
  { intros m Hm. unfold ReadAtLeast. pose proof (len_nonneg buf).
    destruct (Z.ltb_spec (len buf) m); [lia |].
    rewrite readLoop_eq.
    destruct (Z.ltb_spec 0 m); [lia |]. cbn [andb bind].
    destruct (Z.leb_spec m 0); [reflexivity | lia]. }
  split.
  - apply H.
  - intros Hz. unfold ReadFull. apply H. lia.
Qed.

Lemma ReadAtLeast_nothing_asked_witness :
  ReadFull 0 (Fixtures.failingReader ErrNoProgress) Fixtures.hello (make 0)
    = Ret (0, None, Fixtures.hello, make 0).
Proof.
  apply (proj2 (ReadAtLeast_nothing_asked (Fixtures.failingReader ErrNoProgress)
                  Fixtures.hello (make 0) 0 0)).
  reflexivity.
Defined.

(** X21: [CopyN] with [n <= 0] returns [(0, nil)] and touches neither
    the source nor the sink, for every source and every sink without
    [ReadFrom]: the limited reader reports [EOF] before any call to the
    source.  For a negative [n] the count returned is 0, not [n]. *)
Theorem CopyN_nothing_asked (S W : Type) (dst : Writer W) (src : Reader S)
    (w : W) (s : S) (n : Z) (fuel : nat) :
  ReadFrom dst = None ->
  n <= 0 ->
  CopyN (Datatypes.S fuel) dst src w s n = Ret (0, None, s, w).
Proof.
  intros Hrf Hn. unfold CopyN, Copy, copyBuffer.
  cbn [WriteTo LimitReader asLimitedReader Read LimitedReader.N]. rewrite Hrf.
  cbv zeta. cbn [copyLoop]. unfold copyIter.
  unfold LimitedReader.Read at 1. cbn [LimitedReader.N].
  destruct (Z.leb_spec n 0); [| lia].
  cbv beta iota zeta delta [bind].
  change (0 <? 0) with false. cbv iota. cbn [is_EOF LimitedReader.R].
  destruct (Z.eqb_spec 0 n) as [<- | Hne]; [reflexivity |].
  destruct (Z.ltb_spec 0 n); [lia |]. reflexivity.
Qed.

Lemma CopyN_nothing_asked_witness :
  CopyN 1 Fixtures.bufferWriter (Fixtures.failingReader ErrNoProgress) [x21]
        Fixtures.hello (-7)
    = Ret (0, None, Fixtures.hello, [x21]).
Proof.
  apply (@CopyN_nothing_asked _ _ Fixtures.bufferWriter
           (Fixtures.failingReader ErrNoProgress) [x21] Fixtures.hello (-7) 0).
  - reflexivity.
  - lia.
Defined.

(* ----------------------------------------------------------------- *)
(** ** Rewinding a section *)

(** X22: on a section over a store that honours the [ReaderAt]
    contract, with [0 <= base] and an [int64] limit, [Seek(0, SeekStart)]
    succeeds with position 0 wherever the cursor was, and from the state
    it leaves the section delivers its whole window again: the bytes of
    the store from [base] up to [limit]. *)
Theorem SectionReader_rewind (S : Type) (ra : ReadAtFn S) (st : S) (c : list byte)
    (base off limit : Z) :
  ServesAt ra st c ->
  0 <= base -> is_int64 base -> is_int64 limit ->
  exists s',
    SectionReader.Seek (SectionReader.mk st base off limit) 0 SeekStart = (0, None, s') /\
    Yields (SectionReader.Read ra) s'
           (firstn (Z.to_nat (limit - base)) (skipn (Z.to_nat base) c)).
Proof.
  intros Hra Hbase Hb Hl.
  exists (SectionReader.mk st base base limit). split.
  - unfold SectionReader.Seek.
    change (SeekStart =? SeekStart) with true. cbv iota.
    cbn [SectionReader.base SectionReader.r SectionReader.limit].
    rewrite Z.add_0_l, (wrap64_id Hb).
    destruct (Z.ltb_spec base base); [lia |].
    rewrite Z.sub_diag. reflexivity.
  - apply (@SectionReader_Yields_window S ra st c base limit Hra Hl
             (Z.to_nat (limit - base)) base Hbase (Nat.le_refl _)).
Qed.

Lemma SectionReader_rewind_witness :
  exists s',
    SectionReader.Seek (SectionReader.mk Fixtures.store100 10 14 15) 0 SeekStart
      = (0, None, s') /\
    Yields (SectionReader.Read Fixtures.storeReadAt) s'
           (firstn (Z.to_nat (15 - 10)) (skipn (Z.to_nat 10) Fixtures.store100)).
Proof.
  apply (@SectionReader_rewind _ Fixtures.storeReadAt Fixtures.store100
           Fixtures.store100 10 14 15).
  - apply storeReadAt_ServesAt.
  - lia.
  - vm_compute. split; discriminate.
  - vm_compute. split; discriminate.
Defined.

(* ================================================================= *)
(** * Copy and CopyN over every source and sink *)

(* ----------------------------------------------------------------- *)
(** ** Copy on each of its three paths *)

(** C1, as the claim states it, fails when the source implements
    [WriterTo]: [Copy] then returns what [WriteTo] returns, and does not
    read.  A source whose reads deliver [hello] and whose [WriteTo]
    returns [(42, ErrNoProgress)] makes [Copy] into an accepting sink
    return [(42, ErrNoProgress)], not [(5, nil)].  It fails in the same
    way for the sources without [WriteTo], when the sink implements
    [ReaderFrom]: an accepting sink whose [ReadFrom] returns
    [(42, ErrNoProgress)] makes [Copy] return that. *)
Lemma Copy_bulk_paths_decide_the_result :
  ~ (forall (S W : Type) (dst : Writer W) (src : Reader S) (view : W -> list byte)
            (s : S) (w : W) (bs : list byte),
       Yields (Read src) s bs ->
       Accepts (Write dst) view ->
       Z.of_nat (length bs) <= maxint64 ->
       exists fuel0 s' w',
         view w' = view w ++ bs /\
         forall fuel, (fuel0 <= fuel)%nat ->
           Copy fuel dst src w s = Ret (Z.of_nat (length bs), None, s', w')) /\
  ~ (forall (S W : Type) (dst : Writer W) (src : Reader S) (view : W -> list byte)
            (s : S) (w : W) (bs : list byte),
       WriteTo src = None ->
       Yields (Read src) s bs ->
       Accepts (Write dst) view ->
       Z.of_nat (length bs) <= maxint64 ->
       exists fuel0 s' w',
         view w' = view w ++ bs /\
         forall fuel, (fuel0 <= fuel)%nat ->
           Copy fuel dst src w s = Ret (Z.of_nat (length bs), None, s', w')).
Proof.
  assert (Hsrc : Yields (Fixtures.chunkRead 2) Fixtures.hello Fixtures.hello)
    by (apply (@chunkRead_Yields 2); lia).
  assert (HL : Z.of_nat (length Fixtures.hello) <= maxint64)
    by (vm_compute; discriminate).
  split; intros H.
  - destruct (H (list byte) (list byte) Fixtures.bufferWriter
                (BulkFixtures.bulkReader 2 42 (Some ErrNoProgress)) (fun w => w)
                Fixtures.hello [] Fixtures.hello Hsrc bufferWrite_Accepts HL)
      as (fuel0 & s' & w' & _ & Hrun).
    specialize (Hrun fuel0 (Nat.le_refl _)).
    assert (E : Copy fuel0 Fixtures.bufferWriter
                  (BulkFixtures.bulkReader 2 42 (Some ErrNoProgress)) [] Fixtures.hello
                = Ret (42, Some ErrNoProgress, Fixtures.hello, [])) by reflexivity.
    rewrite E in Hrun. discriminate Hrun.
  - destruct (H (list byte) (list byte)
                (BulkFixtures.bulkWriter 42 (Some ErrNoProgress))
                (Fixtures.chunkReader 2) (fun w => w)
                Fixtures.hello [] Fixtures.hello eq_refl Hsrc bufferWrite_Accepts HL)
      as (fuel0 & s' & w' & _ & Hrun).
    specialize (Hrun fuel0 (Nat.le_refl _)).
    assert (E : Copy fuel0 (BulkFixtures.bulkWriter 42 (Some ErrNoProgress))
                  (Fixtures.chunkReader 2) [] Fixtures.hello
                = Ret (42, Some ErrNoProgress, Fixtures.hello, [])) by reflexivity.
    rewrite E in Hrun. discriminate Hrun.
Qed.

(** C1 (amended): for every source and sink, [Copy] runs one of three
    paths.
    - When the source implements [WriterTo], [Copy] is the source's
      [WriteTo] on the sink and returns what it returns.
    - Otherwise, when the sink implements [ReaderFrom], [Copy] is the
      sink's [ReadFrom] on the source and returns what it returns; for
      the package's [Discard] and a source whose total content is [bs],
      that is [(len(bs), nil)].
    - Otherwise [Copy] runs its staging loop: for every source whose
      total content is the byte sequence [bs], of a length [L] that an
      [int64] holds, and every sink that accepts all the bytes it is
      given, it returns [(L, nil)] for every amount of fuel from some
      bound on: the end of the stream is not reported as a failure, and
      the sink has received exactly [bs], in order, after what it
      held. *)
Theorem Copy_spec (S W : Type) (dst : Writer W) (src : Reader S)
    (view : W -> list byte) (s : S) (w : W) (bs : list byte) :
  (forall wt, WriteTo src = Some wt ->
     forall fuel, Copy fuel dst src w s = wt fuel W (Write dst) s w) /\
  (WriteTo src = None ->
     forall rt, ReadFrom dst = Some rt ->
     forall fuel, Copy fuel dst src w s = rt fuel S (Read src) w s) /\
  (WriteTo src = None ->
   Yields (Read src) s bs ->
   Z.of_nat (length bs) <= maxint64 ->
   exists fuel0 s',
     forall fuel, (fuel0 <= fuel)%nat ->
       Copy fuel Discard src tt s = Ret (Z.of_nat (length bs), None, s', tt)) /\
  (WriteTo src = None ->
   ReadFrom dst = None ->
   Yields (Read src) s bs ->
   Accepts (Write dst) view ->
   Z.of_nat (length bs) <= maxint64 ->
   exists fuel0 s' w',
     view w' = view w ++ bs /\
     forall fuel, (fuel0 <= fuel)%nat ->
       Copy fuel dst src w s = Ret (Z.of_nat (length bs), None, s', w')).
Proof.
  split; [| split; [| split]].
  - intros wt Hwt fuel. unfold Copy, copyBuffer. rewrite Hwt. reflexivity.
  - intros Hwt rt Hrf fuel. unfold Copy, copyBuffer. rewrite Hwt, Hrf. reflexivity.
  - intros Hwt Hsrc HL.
    destruct (@readFromLoop_YieldsUntil S (Read src) EOF s bs (Yields_YieldsUntil Hsrc)
                (make 8192) 0)
      as (fuel0 & s' & Hrun).
    + rewrite len_make; lia.
    + lia.
    + lia.
    + exists fuel0, s'. intros fuel Hfuel. unfold Copy, copyBuffer. rewrite Hwt.
      cbn [ReadFrom Discard]. unfold discard.ReadFrom.
      rewrite (Hrun fuel Hfuel). reflexivity.
  - intros Hwt Hrf Hsrc Hdst HL. unfold Copy, copyBuffer. rewrite Hwt, Hrf.
    pose proof (staging_size_pos (asLimitedReader src s)) as Hsize. cbv zeta.
    destruct (@copyLoop_Yields S W (Read src) (Write dst) view Hdst s bs Hsrc w
                (make match asLimitedReader src s with
                      | Some n => if n <? 32 * 1024 then (if n <? 1 then 1 else n)
                                  else 32 * 1024
                      | None => 32 * 1024
                      end) 0)
      as (fuel0 & s' & w' & Hview & Hrun).
    + rewrite len_make; lia.
    + lia.
    + lia.
    + exists fuel0, s', w'. split; [exact Hview |].
      intros fuel Hfuel. rewrite (Hrun fuel Hfuel). reflexivity.
Qed.

(** [Copy] on each path: a source whose [WriteTo] returns
    [(42, ErrNoProgress)]; a sink whose [ReadFrom] returns [(7, nil)];
    [hello] from a source that serves two bytes per call into [Discard],
    and into an empty accumulating sink through the staging loop. *)
Lemma Copy_spec_witness :
  Copy 0 Fixtures.bufferWriter (BulkFixtures.bulkReader 2 42 (Some ErrNoProgress))
       [] Fixtures.hello
    = Ret (42, Some ErrNoProgress, Fixtures.hello, []) /\
  Copy 0 (BulkFixtures.bulkWriter 7 None) (Fixtures.chunkReader 2) [] Fixtures.hello
    = Ret (7, None, Fixtures.hello, []) /\
  (exists fuel0 s',
     forall fuel, (fuel0 <= fuel)%nat ->
       Copy fuel Discard (Fixtures.chunkReader 2) tt Fixtures.hello
         = Ret (5, None, s', tt)) /\
  (exists fuel0 s' w',
     w' = [] ++ Fixtures.hello /\
     forall fuel, (fuel0 <= fuel)%nat ->
       Copy fuel Fixtures.bufferWriter (Fixtures.chunkReader 2) [] Fixtures.hello
         = Ret (5, None, s', w')).
Proof.
  assert (Hsrc : Yields (Fixtures.chunkRead 2) Fixtures.hello Fixtures.hello)
    by (apply (@chunkRead_Yields 2); lia).
  assert (HL : Z.of_nat (length Fixtures.hello) <= maxint64)
    by (vm_compute; discriminate).
  split; [| split; [| split]].
  - destruct (@Copy_spec _ _ Fixtures.bufferWriter
                (BulkFixtures.bulkReader 2 42 (Some ErrNoProgress))
                (fun w => w) Fixtures.hello [] Fixtures.hello)
      as (Hwt & _ & _ & _).
    exact (Hwt _ eq_refl 0%nat).
  - destruct (@Copy_spec _ _ (BulkFixtures.bulkWriter 7 None) (Fixtures.chunkReader 2)
                (fun w => w) Fixtures.hello [] Fixtures.hello)
      as (_ & Hrf & _ & _).
    exact (Hrf eq_refl _ eq_refl 0%nat).
  - destruct (@Copy_spec _ _ Fixtures.bufferWriter (Fixtures.chunkReader 2)
                (fun w => w) Fixtures.hello [] Fixtures.hello)
      as (_ & _ & Hdiscard & _).
    exact (Hdiscard eq_refl Hsrc HL).
  - destruct (@Copy_spec _ _ Fixtures.bufferWriter (Fixtures.chunkReader 2)
                (fun w => w) Fixtures.hello [] Fixtures.hello)
      as (_ & _ & _ & Hstaging).
    exact (Hstaging eq_refl eq_refl Hsrc bufferWrite_Accepts HL).
Defined.

(* ----------------------------------------------------------------- *)
(** ** CopyN over every well-behaved sink *)

(** What [CopyN] makes of the result of its [Copy] over the limited
    source, when that result is the length of the limited content and
    no failure. *)
Lemma CopyN_of_full_transfer (S W : Type) (dst : Writer W) (src : Reader S)
    (w w' : W) (s : S) (l' : LimitedReader.t S) (bs : list byte) (n : Z) (fuel : nat) :
  0 <= n ->
  Copy fuel dst (LimitReader src) w (LimitedReader.mk s n)
    = Ret (Z.min n (Z.of_nat (length bs)), None, l', w') ->
  (n <= Z.of_nat (length bs) ->
     CopyN fuel dst src w s n = Ret (n, None, LimitedReader.R l', w')) /\
  (Z.of_nat (length bs) < n ->
     CopyN fuel dst src w s n
       = Ret (Z.of_nat (length bs), Some EOF, LimitedReader.R l', w')).
Proof.
  intros Hn Hcopy. unfold CopyN. rewrite Hcopy. cbv beta iota delta [bind]. split.
  - intros Hle. replace (Z.min n (Z.of_nat (length bs))) with n by lia.
    rewrite Z.eqb_refl. reflexivity.
  - intros Hgt.
    replace (Z.min n (Z.of_nat (length bs))) with (Z.of_nat (length bs)) by lia.
    destruct (Z.eqb_spec (Z.of_nat (length bs)) n); [lia |].
    destruct (Z.ltb_spec (Z.of_nat (length bs)) n); [| lia].
    reflexivity.
Qed.

(** C2 (amended): for every source of total length [L], every count
    [n >= 0] and every well-behaved sink, [CopyN] returns [(n, nil)] if
    [n <= L] and [(L, EOF)] if [n > L].  A sink is well-behaved when
    - it has no [ReadFrom] and accepts all the bytes it is given: it
      then has received the first [n] bytes of the content (all of it
      when [n > L]); or
    - it has a [ReadFrom] which, on the limited source, returns the
      length of what that source holds, [min(n, L)], and no failure;
      the package's [Discard] is such a sink.
    A negative [n] is left out: see [CopyN_negative_count]. *)
Theorem CopyN_spec (S W : Type) (dst : Writer W) (src : Reader S)
    (view : W -> list byte) (s : S) (w : W) (bs : list byte) (n : Z) :
  Yields (Read src) s bs ->
  is_int64 n ->
  0 <= n ->
  (ReadFrom dst = None ->
   Accepts (Write dst) view ->
   exists fuel0 s' w',
     view w' = view w ++ firstn (Z.to_nat n) bs /\
     forall fuel, (fuel0 <= fuel)%nat ->
       (n <= Z.of_nat (length bs) ->
          CopyN fuel dst src w s n = Ret (n, None, s', w')) /\
       (Z.of_nat (length bs) < n ->
          CopyN fuel dst src w s n = Ret (Z.of_nat (length bs), Some EOF, s', w'))) /\
  (forall rt, ReadFrom dst = Some rt ->
   forall fuel l' w',
     rt fuel (LimitedReader.t S) (LimitedReader.Read (Read src)) w (LimitedReader.mk s n)
       = Ret (Z.min n (Z.of_nat (length bs)), None, l', w') ->
     (n <= Z.of_nat (length bs) ->
        CopyN fuel dst src w s n = Ret (n, None, LimitedReader.R l', w')) /\
     (Z.of_nat (length bs) < n ->
        CopyN fuel dst src w s n
          = Ret (Z.of_nat (length bs), Some EOF, LimitedReader.R l', w'))) /\
  (exists fuel0 s',
     forall fuel, (fuel0 <= fuel)%nat ->
       (n <= Z.of_nat (length bs) ->
          CopyN fuel Discard src tt s n = Ret (n, None, s', tt)) /\
       (Z.of_nat (length bs) < n ->
          CopyN fuel Discard src tt s n = Ret (Z.of_nat (length bs), Some EOF, s', tt))).
Proof.
  intros Hsrc Hint Hn.
  pose proof (Yields_LimitReader Hsrc Hn Hint) as Hlim.
  assert (Hlen : Z.of_nat (length (firstn (Z.to_nat n) bs))
                 = Z.min n (Z.of_nat (length bs)))
    by (rewrite length_firstn; lia).
  split; [| split].
  - intros Hrf Hdst.
    pose proof (staging_size_pos (Some n)) as Hsize. cbv beta iota in Hsize.
    destruct (@copyLoop_Yields _ _ (LimitedReader.Read (Read src)) (Write dst) view
                Hdst _ _ Hlim w
                (make (if n <? 32 * 1024 then (if n <? 1 then 1 else n) else 32 * 1024))
                0)
      as (fuel0 & l' & w' & Hview & Hrun).
    + rewrite len_make; lia.
    + lia.
    + rewrite Hlen. unfold is_int64 in Hint. lia.
    + exists fuel0, (LimitedReader.R l'), w'. split; [exact Hview |].
      intros fuel Hfuel.
      apply (@CopyN_of_full_transfer _ _ dst src w w' s l' bs n fuel Hn).
      unfold Copy, copyBuffer.
      cbn [WriteTo LimitReader asLimitedReader Read LimitedReader.N]. rewrite Hrf.
      cbv zeta. rewrite (Hrun fuel Hfuel), Hlen. reflexivity.
  - intros rt Hrf fuel l' w' Hcall.
    apply (@CopyN_of_full_transfer _ _ dst src w w' s l' bs n fuel Hn).
    unfold Copy, copyBuffer. cbn [WriteTo LimitReader Read]. rewrite Hrf.
    exact Hcall.
  - destruct (@readFromLoop_YieldsUntil _ (LimitedReader.Read (Read src)) EOF _ _
                (Yields_YieldsUntil Hlim) (make 8192) 0)
      as (fuel0 & l' & Hrun).
    + rewrite len_make; lia.
    + lia.
    + rewrite Hlen. unfold is_int64 in Hint. lia.
    + exists fuel0, (LimitedReader.R l'). intros fuel Hfuel.
      apply (@CopyN_of_full_transfer _ _ Discard src tt tt s l' bs n fuel Hn).
      unfold Copy, copyBuffer. cbn [WriteTo LimitReader Read ReadFrom Discard].
      unfold discard.ReadFrom. rewrite (Hrun fuel Hfuel), Hlen. reflexivity.
Qed.

(** [CopyN] of 3 bytes of [hello]: an accumulating sink receives [hel];
    a sink whose [ReadFrom] reports the 3 bytes gives the same result;
    [CopyN] of 7 bytes into [Discard] reports the 5 there are, and
    [EOF]. *)
Lemma CopyN_spec_witness :
  (exists fuel0 s' w',
     w' = [] ++ firstn 3 Fixtures.hello /\
     forall fuel, (fuel0 <= fuel)%nat ->
       CopyN fuel Fixtures.bufferWriter (Fixtures.chunkReader 2) [] Fixtures.hello 3
         = Ret (3, None, s', w')) /\
  CopyN 0 (BulkFixtures.bulkWriter 3 None) (Fixtures.chunkReader 2) [] Fixtures.hello 3
    = Ret (3, None, Fixtures.hello, []) /\
  (exists fuel0 s',
     forall fuel, (fuel0 <= fuel)%nat ->
       CopyN fuel Discard (Fixtures.chunkReader 2) tt Fixtures.hello 7
         = Ret (5, Some EOF, s', tt)).
Proof.
  assert (Hsrc : Yields (Read (Fixtures.chunkReader 2)) Fixtures.hello Fixtures.hello)
    by (apply (@chunkRead_Yields 2); lia).
  assert (H3 : is_int64 3) by (vm_compute; split; discriminate).
  assert (H7 : is_int64 7) by (vm_compute; split; discriminate).
  split; [| split].
  - destruct (@CopyN_spec _ _ Fixtures.bufferWriter (Fixtures.chunkReader 2)
                (fun w => w) Fixtures.hello [] Fixtures.hello 3 Hsrc H3 ltac:(lia))
      as (Hstaging & _ & _).
    destruct (Hstaging eq_refl bufferWrite_Accepts) as (fuel0 & s' & w' & Hview & Hrun).
    exists fuel0, s', w'. split; [exact Hview |].
    intros fuel Hfuel. apply (proj1 (Hrun fuel Hfuel)). vm_compute. discriminate.
  - destruct (@CopyN_spec _ _ (BulkFixtures.bulkWriter 3 None) (Fixtures.chunkReader 2)
                (fun w => w) Fixtures.hello [] Fixtures.hello 3 Hsrc H3 ltac:(lia))
      as (_ & Hbulk & _).
    apply (proj1 (Hbulk _ eq_refl 0%nat (LimitedReader.mk Fixtures.hello 3) []
                        eq_refl)).
    vm_compute. discriminate.
  - destruct (@CopyN_spec _ _ Fixtures.bufferWriter (Fixtures.chunkReader 2)
                (fun w => w) Fixtures.hello [] Fixtures.hello 7 Hsrc H7 ltac:(lia))
      as (_ & _ & Hdiscard).
    destruct Hdiscard as (fuel0 & s' & Hrun).
    exists fuel0, s'. intros fuel Hfuel.
    apply (proj2 (Hrun fuel Hfuel)). vm_compute. reflexivity.
Defined.
